(** * cernunnos-cpp front end: tokenizer and recursive-descent parser

    A shallow embedding of [src/tokenizer.cpp] (the tokenizer that produces
    the tokens the parser consumes) and of [src/parser.hpp] (AST,
    precedence-climbing expression parser, statement parser), followed by
    the properties established about them.  The earlier tokenizer of
    [src/tokenization.hpp], with its smaller token set and no line numbers,
    is not the one the parser's grammar needs; it is embedded on its own.

    Conventions of the embedding:
    - [exit(EXIT_FAILURE)] after a message on [std::cerr] is the outcome
      [Exit msg], where [msg] is the text written before the newline;
    - the tokenizer's read cursor [_index] into the immutable [_src] is
      represented by the unread suffix of the source text;
    - the tokenizer's [int line_count] is represented by the integer it
      holds.  It starts at 1 and is incremented once per newline character
      read, so it stays an [int] for every source with fewer than
      [2^31 - 1] newline characters; what [line_count++] does at [INT_MAX]
      (a signed overflow) is not represented, and the properties of line
      numbers stated for whole sources are stated for such sources;
    - the parser's read cursor [_index] is threaded through a small state and
      error monad over the fixed token vector [_tokens];
    - [arena.hpp] is missing; as in section 4.2 of the specification,
      [emplace<T>(args)] constructs a [T] from [args] in storage that lives
      as long as the parser, a member without an argument taking its default
      member initialiser, and [alloc<T>()] gives storage whose members are
      assigned before use.  A node is represented by its value; the arena's
      capacity is not modelled;
    - recursion that is not structural is driven by a fuel argument, and the
      fuel chosen by the entry points is proved sufficient. *)

From Stdlib Require Import ZArith List String Ascii Bool Arith Lia DecimalString.
Import ListNotations.

Local Open Scope string_scope.

(** ** Tokens *)

(** Modelled from the spec: the header [tokenizer.h] that declares the token
    kinds used by [tokenizer.cpp] and [parser.hpp] is missing; the
    enumerators are the cases of [to_string(TokenType)] in [tokenizer.cpp],
    which are the kinds of the spec's data model.  The enumerator [IF] is
    written [IF'] here, [IF] being a reserved word of the notation
    [IF _ then _ else _]. *)
Inductive TokenType : Set :=
| RETURN
| VAR
| FUNC
| IDENTIFIER
| TYPE_INT
| TYPE_CHAR
| INTEGER_LITERAL
| CHAR_LITERAL
| IF'
| ELIF
| ELSE
| EQUAL
| COLON
| COMMA
| LEFT_PARENTHESIS
| RIGHT_PARENTHESIS
| LEFT_CURLY_BACKET
| RIGHT_CURLY_BRACKET
| PLUS
| MINUS
| STAR
| SLASH.

Definition TokenType_eqb (a b : TokenType) : bool :=
  match a, b with
  | RETURN, RETURN | VAR, VAR | FUNC, FUNC | IDENTIFIER, IDENTIFIER
  | TYPE_INT, TYPE_INT | TYPE_CHAR, TYPE_CHAR
  | INTEGER_LITERAL, INTEGER_LITERAL | CHAR_LITERAL, CHAR_LITERAL
  | IF', IF' | ELIF, ELIF | ELSE, ELSE | EQUAL, EQUAL | COLON, COLON
  | COMMA, COMMA | LEFT_PARENTHESIS, LEFT_PARENTHESIS
  | RIGHT_PARENTHESIS, RIGHT_PARENTHESIS
  | LEFT_CURLY_BACKET, LEFT_CURLY_BACKET
  | RIGHT_CURLY_BRACKET, RIGHT_CURLY_BRACKET
  | PLUS, PLUS | MINUS, MINUS | STAR, STAR | SLASH, SLASH => true
  | _, _ => false
  end.

(** Modelled from the spec: [struct Token] is declared in the missing
    [tokenizer.h]; its fields are those of the designated initialisers in
    [Tokenizer::tokenize] ([.type], [.line], [.val]) and of the spec's
    [{kind, text, line}]. *)
Record Token : Set := mkToken {
  type : TokenType;
  line : Z;
  val : option string
}.

(** [to_string(TokenType)], tokenizer.cpp lines 3-54. *)
Definition TokenType_to_string (t : TokenType) : string :=
  match t with
  | RETURN => "return value"
  | VAR => "var"
  | FUNC => "func"
  | IDENTIFIER => "identifier"
  | TYPE_INT => "int"
  | TYPE_CHAR => "char"
  | INTEGER_LITERAL => "integer literal"
  | CHAR_LITERAL => "char literal"
  | IF' => "if"
  | ELIF => "elif"
  | ELSE => "else"
  | EQUAL => "="
  | COLON => ":"
  | COMMA => ","
  | LEFT_PARENTHESIS => "("
  | RIGHT_PARENTHESIS => ")"
  | LEFT_CURLY_BACKET => "{"
  | RIGHT_CURLY_BRACKET => "}"
  | PLUS => "+"
  | MINUS => "-"
  | STAR => "*"
  | SLASH => "/"
  end.

(** [bin_prec], tokenizer.cpp lines 56-69. *)
Definition bin_prec (t : TokenType) : option Z :=
  match t with
  | PLUS | MINUS => Some 0%Z
  | STAR | SLASH => Some 1%Z
  | _ => None
  end.

(** What [std::ostream::operator<<(int)] prints. *)
Definition show_int (z : Z) : string := NilZero.string_of_int (Z.to_int z).

(** ** Character classes of [<cctype>] in the "C" locale *)

Definition in_range (lo hi : nat) (c : ascii) : bool :=
  (lo <=? nat_of_ascii c)%nat && (nat_of_ascii c <=? hi)%nat.

Definition isdigit (c : ascii) : bool := in_range 48 57 c.
Definition isalpha (c : ascii) : bool := in_range 65 90 c || in_range 97 122 c.
Definition isalnum (c : ascii) : bool := isalpha c || isdigit c.
Definition isspace (c : ascii) : bool :=
  (nat_of_ascii c =? 32)%nat || in_range 9 13 c.

Definition newline : ascii := ascii_of_nat 10.
Definition quote : ascii := ascii_of_nat 39.

(** ** The tokenizer ([Tokenizer::tokenize], tokenizer.cpp lines 88-261) *)

Module Tokenizer.

Inductive Outcome : Set :=
| Tokens (tokens : list Token)     (* [return tokens] *)
| Exit (err : string)              (* message on [std::cerr], then [exit] *)
| OutOfFuel.

(** [peek(offset)] on the unread suffix. *)
Definition peek (src : string) (offset : nat) : option ascii :=
  String.get offset src.

Definition peek_is (src : string) (offset : nat) (c : ascii) : bool :=
  match peek src offset with
  | Some d => Ascii.eqb d c
  | None => false
  end.

(** [while (peek().has_value() && peek().value() != '\n') consume();] *)
Fixpoint skip_line_comment (src : string) : string :=
  match src with
  | EmptyString => EmptyString
  | String c rest =>
      if Ascii.eqb c newline then src else skip_line_comment rest
  end.

(** The scan for the closing delimiter of a block comment (lines 106-111):
    every character before it is consumed, whatever it is. *)
Fixpoint skip_block_comment (src : string) : string :=
  match src with
  | EmptyString => EmptyString
  | String c rest =>
      if Ascii.eqb c "*" && peek_is rest 0 "/" then src
      else skip_block_comment rest
  end.

(** [if (peek().has_value()) consume();] *)
Definition consume_if_any (src : string) : string :=
  match src with
  | EmptyString => EmptyString
  | String _ rest => rest
  end.

(** [while (peek().has_value() && p(peek().value())) buf.push_back(consume());]
    returns the characters pushed and the unread suffix. *)
Fixpoint take_while (p : ascii -> bool) (src : string) : string * string :=
  match src with
  | EmptyString => (EmptyString, EmptyString)
  | String c rest =>
      if p c then
        let (buf, rest') := take_while p rest in (String c buf, rest')
      else (EmptyString, src)
  end.

(** The keyword table of lines 127-147. *)
Definition word_token (buf : string) (line_count : Z) : Token :=
  if String.eqb buf "int" then mkToken TYPE_INT line_count None
  else if String.eqb buf "char" then mkToken TYPE_CHAR line_count None
  else if String.eqb buf "var" then mkToken VAR line_count None
  else if String.eqb buf "func" then mkToken FUNC line_count None
  else if String.eqb buf "return" then mkToken RETURN line_count None
  else if String.eqb buf "if" then mkToken IF' line_count None
  else if String.eqb buf "elif" then mkToken ELIF line_count None
  else if String.eqb buf "else" then mkToken ELSE line_count None
  else mkToken IDENTIFIER line_count (Some buf).

(** The single-character tokens of lines 163-217. *)
Definition punctuation (c : ascii) : option TokenType :=
  if Ascii.eqb c "=" then Some EQUAL
  else if Ascii.eqb c ":" then Some COLON
  else if Ascii.eqb c "," then Some COMMA
  else if Ascii.eqb c "(" then Some LEFT_PARENTHESIS
  else if Ascii.eqb c ")" then Some RIGHT_PARENTHESIS
  else if Ascii.eqb c "{" then Some LEFT_CURLY_BACKET
  else if Ascii.eqb c "}" then Some RIGHT_CURLY_BRACKET
  else if Ascii.eqb c "+" then Some PLUS
  else if Ascii.eqb c "-" then Some MINUS
  else if Ascii.eqb c "*" then Some STAR
  else if Ascii.eqb c "/" then Some SLASH
  else None.

Definition err_valid_char (line_count : Z) : string :=
  "[Error] expected a valid char on line " ++ show_int line_count.

Definition err_closing_quote (line_count : Z) : string :=
  "[Error] expected `'` on line " ++ show_int line_count.

Definition err_invalid_token (c : ascii) (line_count : Z) : string :=
  "[Error] invalid token `" ++ String c "` on line " ++ show_int line_count.

(** One iteration of the [while (peek().has_value())] loop per unit of
    fuel; [src] is the unread suffix, [line_count] and [tokens] the
    locals of the same name. *)
Fixpoint tokenize_loop (fuel : nat) (src : string) (line_count : Z)
         (tokens : list Token) : Outcome :=
  match fuel with
  | O => OutOfFuel
  | S fuel' =>
      match src with
      | EmptyString => Tokens tokens
      | String c rest =>
          if Ascii.eqb c "/" && peek_is src 1 "/" then
            tokenize_loop fuel' (skip_line_comment src) line_count tokens
          else if Ascii.eqb c "/" && peek_is src 1 "*" then
            let body := consume_if_any rest in        (* consume(); consume(); *)
            let at_close := skip_block_comment body in
            tokenize_loop fuel' (consume_if_any (consume_if_any at_close))
                          line_count tokens
          else if isalpha c then
            let (more, rest') :=
              take_while (fun d => isalnum d || Ascii.eqb d "_") rest in
            tokenize_loop fuel' rest' line_count
                          (tokens ++ [word_token (String c more) line_count])
          else if isdigit c then
            let (more, rest') := take_while isdigit rest in
            tokenize_loop fuel' rest' line_count
              (tokens ++ [mkToken INTEGER_LITERAL line_count (Some (String c more))])
          else
            match punctuation c with
            | Some k =>
                tokenize_loop fuel' rest line_count
                              (tokens ++ [mkToken k line_count None])
            | None =>
                if Ascii.eqb c quote then
                  match rest with
                  | String d rest' =>
                      if isalnum d then
                        if peek_is rest' 0 quote then
                          tokenize_loop fuel' (consume_if_any rest') line_count
                            (tokens ++ [mkToken CHAR_LITERAL line_count
                                                (Some (String d EmptyString))])
                        else Exit (err_closing_quote line_count)
                      else Exit (err_valid_char line_count)
                  | EmptyString => Exit (err_valid_char line_count)
                  end
                else if Ascii.eqb c newline then
                  tokenize_loop fuel' rest (line_count + 1) tokens
                else if isspace c then
                  tokenize_loop fuel' rest line_count tokens
                else Exit (err_invalid_token c line_count)
            end
      end
  end.

(** Every iteration consumes at least one character, so one unit of fuel
    per character (and one for the final test) is enough. *)
Definition tokenize (src : string) : Outcome :=
  tokenize_loop (S (String.length src)) src 1 [].

End Tokenizer.

(** ** The earlier tokenizer ([tokenization.hpp]) *)

(** [tokenization.hpp] holds an earlier tokenizer: eleven token kinds, no
    line numbers, no comments, no character literals.  Its error branch
    (line 140) passes ["invalid token '" + peek().value() + '\'']
    to [exit_with]; the operand on the left is a character array, so both
    additions are pointer arithmetic that leaves the array, and the call has
    undefined behaviour: the outcome [Undefined]. *)
Module Legacy.

Inductive TokenType : Set :=
| RETURN
| INTEGER_LITERAL
| LET
| IDENTIFIER
| EQUAL
| LEFT_PARENTHESIS
| RIGHT_PARENTHESIS
| PLUS
| MINUS
| STAR
| SLASH.

(** [bin_prec], tokenization.hpp lines 29-42. *)
Definition bin_prec (t : TokenType) : option Z :=
  match t with
  | PLUS | MINUS => Some 0%Z
  | STAR | SLASH => Some 1%Z
  | _ => None
  end.

(** [struct Token], lines 44-48. *)
Record Token : Set := mkToken {
  type : TokenType;
  val : option string
}.

Inductive Outcome : Set :=
| Tokens (tokens : list Token)
| Undefined
| OutOfFuel.

(** Lines 87-92. *)
Definition word_token (buf : string) : Token :=
  if String.eqb buf "return" then mkToken RETURN None
  else if String.eqb buf "let" then mkToken LET None
  else mkToken IDENTIFIER (Some buf).

(** The single-character tokens of lines 106-133. *)
Definition punctuation (c : ascii) : option TokenType :=
  if Ascii.eqb c "=" then Some EQUAL
  else if Ascii.eqb c "(" then Some LEFT_PARENTHESIS
  else if Ascii.eqb c ")" then Some RIGHT_PARENTHESIS
  else if Ascii.eqb c "+" then Some PLUS
  else if Ascii.eqb c "-" then Some MINUS
  else if Ascii.eqb c "*" then Some STAR
  else if Ascii.eqb c "/" then Some SLASH
  else None.

(** [Tokenizer::tokenize], lines 71-146: one iteration of the [while] loop
    per unit of fuel, [src] being the unread suffix. *)
Fixpoint tokenize_loop (fuel : nat) (src : string) (tokens : list Token)
  : Outcome :=
  match fuel with
  | O => OutOfFuel
  | S fuel' =>
      match src with
      | EmptyString => Tokens tokens
      | String c rest =>
          if isalpha c then
            let (more, rest') := Tokenizer.take_while isalnum rest in
            tokenize_loop fuel' rest' (tokens ++ [word_token (String c more)])
          else if isdigit c then
            let (more, rest') := Tokenizer.take_while isdigit rest in
            tokenize_loop fuel' rest'
              (tokens ++ [mkToken INTEGER_LITERAL (Some (String c more))])
          else
            match punctuation c with
            | Some k => tokenize_loop fuel' rest (tokens ++ [mkToken k None])
            | None =>
                if isspace c then tokenize_loop fuel' rest tokens
                else if Ascii.eqb c newline then tokenize_loop fuel' rest tokens
                else Undefined
            end
      end
  end.

Definition tokenize (src : string) : Outcome :=
  tokenize_loop (S (String.length src)) src [].

(** The characters the earlier tokenizer has a branch for. *)
Definition known (c : ascii) : bool :=
  isalpha c || isdigit c
  || match punctuation c with Some _ => true | None => false end
  || isspace c.

Fixpoint all_known (s : string) : bool :=
  match s with
  | EmptyString => true
  | String c rest => known c && all_known rest
  end.

End Legacy.

(** ** The type tag and the AST ([parser.hpp] lines 9-157) *)

(** [enum VarType { NONE, INT }] is an unscoped enumeration, that is, an
    integer code: [NONE] is 0 and [INT] is 1.  [to_string(VarType)] has a
    [default] case for every other code, which is kept here.  The
    enumeration has no value but these two: that the parser builds no other
    tag is proved below rather than given by the type, and no property is
    stated about a tag of another code. *)
Definition VarType : Set := Z.
Definition NONE : VarType := 0%Z.
Definition INT : VarType := 1%Z.

(** [to_string(VarType)], parser.hpp lines 14-25. *)
Definition VarType_to_string (t : VarType) : string :=
  if (t =? NONE)%Z then ""
  else if (t =? INT)%Z then "int"
  else "auto".

(** [to_variable_type], parser.hpp lines 27-36. *)
Definition to_variable_type (t : TokenType) : VarType :=
  match t with
  | INTEGER_LITERAL => INT
  | _ => NONE
  end.

Module Node.

(** [Term] and [Expr] carry a variant [var] and a tag [type]; the variant
    of each is a type of its own because [parse_expr] copies and replaces
    [expr->var] independently of [expr->type]. *)
Inductive Term : Set :=
| mkTerm (var : TermVar) (type : VarType)
with TermVar : Set :=
| TermIntegerLiteral (int_lit : Token)
| TermIdentifier (ident : Token)
| TermParen (expr : Expr)
with Expr : Set :=
| mkExpr (var : ExprVar) (type : VarType)
with ExprVar : Set :=
| OfTerm (term : Term)
| OfBinExpr (bin_expr : BinExpr)
with BinExpr : Set :=
| BinExprAdd (lside rside : Expr)
| BinExprSub (lside rside : Expr)
| BinExprMulti (lside rside : Expr)
| BinExprDiv (lside rside : Expr).

Definition Term_type (t : Term) : VarType :=
  match t with mkTerm _ ty => ty end.
Definition Expr_var (e : Expr) : ExprVar :=
  match e with mkExpr v _ => v end.
Definition Expr_type (e : Expr) : VarType :=
  match e with mkExpr _ ty => ty end.

#[warnings="-register-all"] Inductive Stmt : Set :=
| StmtReturn (expr : Expr)
| StmtVar (identifier : Token) (expr : Expr)
| StmtVarAssign (ident : Token) (expr : Expr)
| StmtScope (scope : Scope)
| StmtIf (expr : Expr) (scope : Scope) (pred : option IfPred)
with Scope : Set :=
| mkScope (stmts : list Stmt)
with IfPred : Set :=
| IfPredElif (expr : Expr) (scope : Scope) (pred : option IfPred)
| IfPredElse (scope : Scope).

Record Prog : Set := mkProg { stmts : list Stmt }.

End Node.

(** ** The parser ([class Parser], parser.hpp lines 159-503) *)

Module Parser.

(** How a call ends: it returns a value with the cursor at [index]; or the
    process exits after [err] was written to [std::cerr]; or the call runs
    into undefined or aborting behaviour ([assert(false)], [value()] of an
    empty optional, a read past the end of [_tokens]); or the model ran
    out of fuel. *)
Inductive Outcome (A : Type) : Type :=
| Ret (a : A) (index : nat)
| Exit (err : string)
| Crash
| OutOfFuel.
Arguments Ret {A} a index.
Arguments Exit {A} err.
Arguments Crash {A}.
Arguments OutOfFuel {A}.

(** A computation reads and moves the cursor [_index]. *)
Definition M (A : Type) : Type := nat -> Outcome A.

Definition ret {A} (a : A) : M A := fun i => Ret a i.

Definition bind {A B} (m : M A) (f : A -> M B) : M B :=
  fun i =>
    match m i with
    | Ret a j => f a j
    | Exit err => Exit err
    | Crash => Crash
    | OutOfFuel => OutOfFuel
    end.

Definition out_of_fuel {A} : M A := fun _ => OutOfFuel.
Definition crash {A} : M A := fun _ => Crash.

(** The short-circuit conjunction [a && b] of two tests. *)
Definition and_then (a b : M bool) : M bool :=
  bind a (fun x => if x then b else ret false).

Declare Scope parser_scope.
Delimit Scope parser_scope with parser.
Notation "x <- m ;; k" := (bind m (fun x => k))
  (at level 61, m at next level, right associativity) : parser_scope.
Notation "m ;; k" := (bind m (fun _ => k))
  (at level 61, right associativity) : parser_scope.
Notation "a &&& b" := (and_then a b)
  (at level 40, left associativity) : parser_scope.
Local Open Scope parser_scope.

Section WithTokens.

Variable _tokens : list Token.

(** [peek(offset)] with the cursor at [i].  [_index + offset] is computed
    in [size_t]; a vector holds fewer than 2^64 elements, so the sum
    wraps only for a negative result, and then to a value that is not
    below [_tokens.size()]. *)
Definition peek_at (i : nat) (offset : Z) : option Token :=
  let k := (Z.of_nat i + offset)%Z in
  if (k <? 0)%Z then None else nth_error _tokens (Z.to_nat k).

Definition peek (offset : Z) : M (option Token) :=
  fun i => Ret (peek_at i offset) i.

Definition peek_type (t : TokenType) (offset : Z) : M bool :=
  p <- peek offset ;;
  ret (match p with
       | Some tok => TokenType_eqb (type tok) t
       | None => false
       end).

(** [return _tokens[_index++];] *)
Definition consume : M Token :=
  fun i =>
    match nth_error _tokens i with
    | Some tok => Ret tok (S i)
    | None => Crash
    end.

Definition parse_error (template_msg err_msg : string) (l : Z) : string :=
  "[Parse Error] " ++ template_msg ++ " " ++ err_msg ++ " on line "
    ++ show_int l.

(** [Parser::exit_with], lines 210-222. *)
Definition exit_with {A} (err_msg : string) (template_msg : string) : M A :=
  fun i =>
    match peek_at i 0 with
    | Some tok => Exit (parse_error template_msg err_msg (line tok))
    | None =>
        match peek_at i (-1) with
        | Some tok => Exit (parse_error template_msg err_msg (line tok))
        | None => Crash
        end
    end.

Definition missing : string := "missing".

(** [try_consume_err], lines 185-196. *)
Definition try_consume_err (t : TokenType) : M Token :=
  b <- peek_type t 0 ;;
  if b then consume else exit_with (TokenType_to_string t) missing.

(** [try_consume], lines 198-208. *)
Definition try_consume (t : TokenType) : M (option Token) :=
  b <- peek_type t 0 ;;
  if b then (tok <- consume ;; ret (Some tok)) else ret None.

(** The guard of lines 291-293. *)
Definition type_mismatch (l r : VarType) : bool :=
  negb (l =? NONE)%Z && negb (r =? NONE)%Z && negb (l =? r)%Z.

(** Lines 299-327: the operand nodes, the binary node chosen by the
    operator, and the assignment [expr->var = bin_expr], which leaves
    [expr->type] as it was.  The left operand is a new [Expr] built from
    [expr->var] alone, so its tag is the default [NONE]. *)
Definition fold (expr : Node.Expr) (op : Token) (expr_rside : Node.Expr)
  : M Node.Expr :=
  let expr_lside := Node.mkExpr (Node.Expr_var expr) NONE in
  let set_var b :=
    ret (Node.mkExpr (Node.OfBinExpr b) (Node.Expr_type expr)) in
  match type op with
  | PLUS => set_var (Node.BinExprAdd expr_lside expr_rside)
  | MINUS => set_var (Node.BinExprSub expr_lside expr_rside)
  | STAR => set_var (Node.BinExprMulti expr_lside expr_rside)
  | SLASH => set_var (Node.BinExprDiv expr_lside expr_rside)
  | _ => crash                                     (* assert(false) *)
  end.

(** [parse_term] (lines 227-258), [parse_expr] (260-331) with its
    [while (true)] loop, [parse_scope] (333-348) with its [while] loop,
    [parse_if_pred] (350-385) and [parse_stmt] (387-483).  Every call
    and every loop iteration takes one unit of fuel. *)
Fixpoint parse_term (fuel : nat) : M (option Node.Term) :=
  match fuel with
  | O => out_of_fuel
  | S fuel' =>
      int_lit <- try_consume INTEGER_LITERAL ;;
      match int_lit with
      | Some tok =>
          ret (Some (Node.mkTerm (Node.TermIntegerLiteral tok) INT))
      | None =>
          ident <- try_consume IDENTIFIER ;;
          match ident with
          | Some tok =>
              ret (Some (Node.mkTerm (Node.TermIdentifier tok)
                                     (to_variable_type (type tok))))
          | None =>
              open_paren <- try_consume LEFT_PARENTHESIS ;;
              match open_paren with
              | Some _ =>
                  expr <- parse_expr fuel' 0%Z ;;
                  match expr with
                  | None => exit_with "expression" missing
                  | Some e =>
                      try_consume_err RIGHT_PARENTHESIS ;;
                      ret (Some (Node.mkTerm (Node.TermParen e)
                                             (Node.Expr_type e)))
                  end
              | None => ret None
              end
          end
      end
  end

with parse_expr (fuel : nat) (min_prec : Z) : M (option Node.Expr) :=
  match fuel with
  | O => out_of_fuel
  | S fuel' =>
      lterm <- parse_term fuel' ;;
      match lterm with
      | None => ret None
      | Some t =>
          expr <- parse_expr_loop fuel' min_prec
                    (Node.mkExpr (Node.OfTerm t) (Node.Term_type t)) ;;
          ret (Some expr)
      end
  end

with parse_expr_loop (fuel : nat) (min_prec : Z) (expr : Node.Expr)
  : M Node.Expr :=
  match fuel with
  | O => out_of_fuel
  | S fuel' =>
      curr_tok <- peek 0 ;;
      match curr_tok with
      | None => ret expr                                      (* break *)
      | Some tok =>
          match bin_prec (type tok) with
          | None => ret expr                                  (* break *)
          | Some prec =>
              if (prec <? min_prec)%Z then ret expr           (* break *)
              else
                op <- consume ;;
                expr_rside <- parse_expr fuel' (prec + 1)%Z ;;
                match expr_rside with
                | None => exit_with "expression" missing
                | Some rside =>
                    if type_mismatch (Node.Expr_type expr)
                                     (Node.Expr_type rside)
                    then
                      exit_with
                        (VarType_to_string (Node.Expr_type expr)
                           ++ TokenType_to_string (type op)
                           ++ VarType_to_string (Node.Expr_type rside))
                        "wrong operation :"
                    else
                      expr' <- fold expr op rside ;;
                      parse_expr_loop fuel' min_prec expr'
                end
          end
      end
  end.

Fixpoint parse_scope (fuel : nat) : M (option Node.Scope) :=
  match fuel with
  | O => out_of_fuel
  | S fuel' =>
      open_curly <- try_consume LEFT_CURLY_BACKET ;;
      match open_curly with
      | None => ret None
      | Some _ =>
          stmts <- parse_scope_loop fuel' [] ;;
          try_consume_err RIGHT_CURLY_BRACKET ;;
          ret (Some (Node.mkScope stmts))
      end
  end

with parse_scope_loop (fuel : nat) (stmts : list Node.Stmt)
  : M (list Node.Stmt) :=
  match fuel with
  | O => out_of_fuel
  | S fuel' =>
      stmt <- parse_stmt fuel' ;;
      match stmt with
      | Some s => parse_scope_loop fuel' (stmts ++ [s])   (* push_back *)
      | None => ret stmts
      end
  end

with parse_if_pred (fuel : nat) : M (option Node.IfPred) :=
  match fuel with
  | O => out_of_fuel
  | S fuel' =>
      t <- try_consume ELIF ;;
      match t with
      | Some _ =>
          try_consume_err LEFT_PARENTHESIS ;;
          expr <- parse_expr fuel' 0%Z ;;
          match expr with
          | None => exit_with "expression" missing
          | Some e =>
              try_consume_err RIGHT_PARENTHESIS ;;
              scope <- parse_scope fuel' ;;
              match scope with
              | None => exit_with "scope" missing
              | Some sc =>
                  pred <- parse_if_pred fuel' ;;
                  ret (Some (Node.IfPredElif e sc pred))
              end
          end
      | None =>
          t' <- try_consume ELSE ;;
          match t' with
          | Some _ =>
              scope <- parse_scope fuel' ;;
              match scope with
              | None => exit_with "scope" missing
              | Some sc => ret (Some (Node.IfPredElse sc))
              end
          | None => ret None
          end
      end
  end

with parse_stmt (fuel : nat) : M (option Node.Stmt) :=
  match fuel with
  | O => out_of_fuel
  | S fuel' =>
      next <- peek 0 ;;
      match next with
      | None => ret None
      | Some _ =>
          is_return <- peek_type RETURN 0 ;;
          if is_return then
            consume ;;
            ne <- parse_expr fuel' 0%Z ;;
            match ne with
            | Some e => ret (Some (Node.StmtReturn e))
            | None => exit_with "return value" missing
            end
          else
            is_var_decl <- peek_type VAR 0
                           &&& peek_type IDENTIFIER 1
                           &&& peek_type EQUAL 2 ;;
            if is_var_decl then
              consume ;;
              identifier <- consume ;;
              consume ;;
              e <- parse_expr fuel' 0%Z ;;
              match e with
              | Some e => ret (Some (Node.StmtVar identifier e))
              | None => exit_with "expression" missing
              end
            else
              is_assign <- peek_type IDENTIFIER 0 &&& peek_type EQUAL 1 ;;
              if is_assign then
                ident <- consume ;;
                consume ;;
                expr <- parse_expr fuel' 0%Z ;;
                match expr with
                | Some e => ret (Some (Node.StmtVarAssign ident e))
                | None => exit_with "expression" missing
                end
              else
                is_curly <- peek_type LEFT_CURLY_BACKET 0 ;;
                if is_curly then
                  scope <- parse_scope fuel' ;;
                  match scope with
                  | Some sc => ret (Some (Node.StmtScope sc))
                  | None => exit_with "scope" missing
                  end
                else
                  tif <- try_consume IF' ;;
                  match tif with
                  | Some _ =>
                      try_consume_err LEFT_PARENTHESIS ;;
                      expr <- parse_expr fuel' 0%Z ;;
                      match expr with
                      | None => exit_with "expression" missing
                      | Some e =>
                          try_consume_err RIGHT_PARENTHESIS ;;
                          scope <- parse_scope fuel' ;;
                          match scope with
                          | None => exit_with "scope" missing
                          | Some sc =>
                              pred <- parse_if_pred fuel' ;;
                              ret (Some (Node.StmtIf e sc pred))
                          end
                      end
                  | None => ret None
                  end
      end
  end.

(** The loop of [parse_prog], lines 489-499. *)
Fixpoint parse_prog_loop (fuel : nat) (stmts : list Node.Stmt)
  : M Node.Prog :=
  match fuel with
  | O => out_of_fuel
  | S fuel' =>
      next <- peek 0 ;;
      match next with
      | None => ret (Node.mkProg stmts)
      | Some _ =>
          stmt <- parse_stmt fuel' ;;
          match stmt with
          | Some s => parse_prog_loop fuel' (stmts ++ [s])   (* push_back *)
          | None => exit_with "statement" missing
          end
      end
  end.

(** Fuel that suffices for any call with [r] tokens left to read. *)
Definition fuel_for (r : nat) : nat := 4 * r + 8.

(** [parse_prog], lines 485-502, on a fresh parser ([_index = 0]). *)
Definition parse_prog : Outcome Node.Prog :=
  parse_prog_loop (fuel_for (List.length _tokens)) [] 0.

End WithTokens.

(** [main]'s pipeline, main.cpp lines 23-27: tokenize, then parse. *)
Definition compile (src : string) : Tokenizer.Outcome + Outcome Node.Prog :=
  match Tokenizer.tokenize src with
  | Tokenizer.Tokens tokens => inr (parse_prog tokens)
  | other => inl other
  end.

End Parser.

(** * Properties *)

(** ** Notions used in the statements *)

Module Shape.

Import Node.

(** The leftmost term of an expression: the term [parse_expr] parsed
    first, reached through the left operands of the binary nodes. *)
Fixpoint leftmost (e : Expr) : Term :=
  match e with
  | mkExpr v _ => leftmost_var v
  end
with leftmost_var (v : ExprVar) : Term :=
  match v with
  | OfTerm t => t
  | OfBinExpr b => leftmost_bin b
  end
with leftmost_bin (b : BinExpr) : Term :=
  match b with
  | BinExprAdd l _ | BinExprSub l _ | BinExprMulti l _ | BinExprDiv l _ =>
      leftmost l
  end.

(** How [parse_term] tags a term. *)
Definition term_tag_rule (t : Term) : Prop :=
  match t with
  | mkTerm (TermIntegerLiteral _) tag => tag = INT
  | mkTerm (TermIdentifier _) tag => tag = NONE
  | mkTerm (TermParen e) tag => tag = Expr_type e
  end.

(** The tags of the terms an expression is folded from, left to right (a
    parenthesised term counts as one term, with its own tag). *)
Fixpoint term_tags (e : Expr) : list VarType :=
  match e with
  | mkExpr v _ => term_tags_var v
  end
with term_tags_var (v : ExprVar) : list VarType :=
  match v with
  | OfTerm t => [Term_type t]
  | OfBinExpr b => term_tags_bin b
  end
with term_tags_bin (b : BinExpr) : list VarType :=
  match b with
  | BinExprAdd l r | BinExprSub l r | BinExprMulti l r | BinExprDiv l r =>
      term_tags l ++ term_tags r
  end.

(** The join of the specification, following its words: "[None] unifies
    with anything, two concrete types must be equal". *)
Definition spec_join (a b : VarType) : option VarType :=
  if (a =? NONE)%Z then Some b
  else if (b =? NONE)%Z then Some a
  else if (a =? b)%Z then Some a
  else None.

Fixpoint spec_join_all (tags : list VarType) : option VarType :=
  match tags with
  | [] => Some NONE
  | t :: rest =>
      match spec_join_all rest with
      | Some u => spec_join t u
      | None => None
      end
  end.

(** Builders for writing down expected trees. *)
Definition int_lit (l : Z) (digits : string) : Token :=
  mkToken INTEGER_LITERAL l (Some digits).
Definition ident (l : Z) (name : string) : Token :=
  mkToken IDENTIFIER l (Some name).
Definition punct (l : Z) (t : TokenType) : Token := mkToken t l None.

Definition lit (tok : Token) (tag : VarType) : Expr :=
  mkExpr (OfTerm (mkTerm (TermIntegerLiteral tok) INT)) tag.
Definition var (tok : Token) (tag : VarType) : Expr :=
  mkExpr (OfTerm (mkTerm (TermIdentifier tok) NONE)) tag.
Definition add (l r : Expr) (tag : VarType) : Expr :=
  mkExpr (OfBinExpr (BinExprAdd l r)) tag.
Definition sub (l r : Expr) (tag : VarType) : Expr :=
  mkExpr (OfBinExpr (BinExprSub l r)) tag.
Definition mul (l r : Expr) (tag : VarType) : Expr :=
  mkExpr (OfBinExpr (BinExprMulti l r)) tag.

Definition tokens_2_plus_3_times_4 : list Token :=
  [int_lit 1 "2"; punct 1 PLUS; int_lit 1 "3"; punct 1 STAR; int_lit 1 "4"].

Definition tokens_8_minus_3_minus_2 : list Token :=
  [int_lit 1 "8"; punct 1 MINUS; int_lit 1 "3"; punct 1 MINUS; int_lit 1 "2"].

Definition tokens_x_plus_1 : list Token :=
  [ident 1 "x"; punct 1 PLUS; int_lit 1 "1"].

Definition tokens_1_plus_x : list Token :=
  [int_lit 1 "1"; punct 1 PLUS; ident 1 "x"].

Definition tokens_if_elif_else : list Token :=
  [punct 1 IF'; punct 1 LEFT_PARENTHESIS; ident 1 "x"; punct 1 RIGHT_PARENTHESIS;
   punct 1 LEFT_CURLY_BACKET; punct 1 RIGHT_CURLY_BRACKET;
   punct 1 ELIF; punct 1 LEFT_PARENTHESIS; ident 1 "y"; punct 1 RIGHT_PARENTHESIS;
   punct 1 LEFT_CURLY_BACKET; punct 1 RIGHT_CURLY_BRACKET;
   punct 1 ELSE; punct 1 LEFT_CURLY_BACKET; punct 1 RIGHT_CURLY_BRACKET].

Definition tokens_if_else_else : list Token :=
  [punct 1 IF'; punct 1 LEFT_PARENTHESIS; ident 1 "x"; punct 1 RIGHT_PARENTHESIS;
   punct 1 LEFT_CURLY_BACKET; punct 1 RIGHT_CURLY_BRACKET;
   punct 1 ELSE; punct 1 LEFT_CURLY_BACKET; punct 1 RIGHT_CURLY_BRACKET;
   punct 1 ELSE; punct 1 LEFT_CURLY_BACKET; punct 1 RIGHT_CURLY_BRACKET].

Definition tokens_if_else_elif : list Token :=
  [punct 1 IF'; punct 1 LEFT_PARENTHESIS; ident 1 "x"; punct 1 RIGHT_PARENTHESIS;
   punct 1 LEFT_CURLY_BACKET; punct 1 RIGHT_CURLY_BRACKET;
   punct 1 ELSE; punct 1 LEFT_CURLY_BACKET; punct 1 RIGHT_CURLY_BRACKET;
   punct 1 ELIF; punct 1 LEFT_PARENTHESIS; ident 1 "y"; punct 1 RIGHT_PARENTHESIS;
   punct 1 LEFT_CURLY_BACKET; punct 1 RIGHT_CURLY_BRACKET].

Definition tokens_three_stmts : list Token :=
  [punct 1 VAR; ident 1 "x"; punct 1 EQUAL; int_lit 1 "1";
   ident 2 "x"; punct 2 EQUAL; ident 2 "x"; punct 2 PLUS; int_lit 2 "2";
   punct 3 RETURN; ident 3 "x"].

(** The links of a predicate chain, in order. *)
Inductive Link : Set := ElifLink | ElseLink.

Fixpoint links (p : IfPred) : list Link :=
  match p with
  | IfPredElif _ _ (Some next) => ElifLink :: links next
  | IfPredElif _ _ None => [ElifLink]
  | IfPredElse _ => [ElseLink]
  end.

Definition is_else (l : Link) : bool :=
  match l with
  | ElseLink => true
  | ElifLink => false
  end.

(** The number of [Else] links of a chain. *)
Definition else_count (p : IfPred) : nat :=
  List.length (List.filter is_else (links p)).

(** [stmt_seq tokens i segs]: from cursor [i] on, the tokens are top-level
    statements one after the other, up to the last token.  Each element of
    [segs] is a statement with the cursor position where it ends: the
    statement is what [parse_stmt] returns when started where the previous
    one ended (the first one at [i]). *)
Inductive stmt_seq (tokens : list Token) : nat -> list (Stmt * nat) -> Prop :=
| seq_end i :
    List.length tokens <= i -> stmt_seq tokens i []
| seq_stmt i n s j rest :
    i < List.length tokens ->
    Parser.parse_stmt tokens n i = Parser.Ret (Some s) j ->
    stmt_seq tokens j rest ->
    stmt_seq tokens i ((s, j) :: rest).

(** The positions [ends] increase strictly from [i] on. *)
Fixpoint increasing_from (i : nat) (ends : list nat) : Prop :=
  match ends with
  | [] => True
  | j :: rest => i < j /\ increasing_from j rest
  end.

(** [n] newline characters. *)
Fixpoint newlines (n : nat) : string :=
  match n with
  | O => EmptyString
  | S n' => String newline (newlines n')
  end.

(** [climbed lo e]: [e] has the shape precedence climbing gives an
    expression parsed with minimal precedence [lo].  The operator at the top
    binds at least [lo]; at every binary node whose operator has precedence
    [p], the left operand has the shape for [p] and the right operand the
    shape for [p + 1]; the expression inside parentheses has the shape
    for 0. *)
Fixpoint climbed (lo : Z) (e : Expr) : bool :=
  match e with
  | mkExpr v _ => climbed_var lo v
  end
with climbed_var (lo : Z) (v : ExprVar) : bool :=
  match v with
  | OfTerm t => climbed_term t
  | OfBinExpr b => climbed_bin lo b
  end
with climbed_bin (lo : Z) (b : BinExpr) : bool :=
  match b with
  | BinExprAdd l r | BinExprSub l r =>
      (lo <=? 0)%Z && climbed 0 l && climbed 1 r
  | BinExprMulti l r | BinExprDiv l r =>
      (lo <=? 1)%Z && climbed 1 l && climbed 2 r
  end
with climbed_term (t : Term) : bool :=
  match t with
  | mkTerm v _ => climbed_term_var v
  end
with climbed_term_var (v : TermVar) : bool :=
  match v with
  | TermIntegerLiteral _ | TermIdentifier _ => true
  | TermParen e => climbed 0 e
  end.

(** The operator at the top of an expression, if it is a binary node. *)
Definition top_operator (e : Expr) : option TokenType :=
  match Expr_var e with
  | OfTerm _ => None
  | OfBinExpr (BinExprAdd _ _) => Some PLUS
  | OfBinExpr (BinExprSub _ _) => Some MINUS
  | OfBinExpr (BinExprMulti _ _) => Some STAR
  | OfBinExpr (BinExprDiv _ _) => Some SLASH
  end.

(** The number of newline characters of a text. *)
Fixpoint count_newlines (s : string) : Z :=
  match s with
  | EmptyString => 0
  | String c rest =>
      ((if Ascii.eqb c newline then 1 else 0) + count_newlines rest)%Z
  end.

End Shape.

(** ** Notions used to reason about parser computations *)

Module ParserLogic.

Import Parser.

(** What is required of the outcomes other than a return. *)
Record Exc : Type := mkExc {
  on_exit : string -> Prop;
  on_crash : Prop;
  on_oof : Prop
}.

(** [wp X m i Q]: run from cursor [i], [m] returns only values and
    cursors satisfying [Q], and ends otherwise only as [X] allows. *)
Definition wp {A} (X : Exc) (m : M A) (i : nat) (Q : A -> nat -> Prop) : Prop :=
  match m i with
  | Ret a j => Q a j
  | Exit err => on_exit X err
  | Crash => on_crash X
  | OutOfFuel => on_oof X
  end.

(** The binary node built for an operator token (lines 302-325). *)
Definition bin_node (t : TokenType) (l r : Node.Expr) : option Node.BinExpr :=
  match t with
  | PLUS => Some (Node.BinExprAdd l r)
  | MINUS => Some (Node.BinExprSub l r)
  | STAR => Some (Node.BinExprMulti l r)
  | SLASH => Some (Node.BinExprDiv l r)
  | _ => None
  end.

(** The expression that [expr] becomes when folded with [rside]. *)
Definition folded (expr : Node.Expr) (b : Node.BinExpr) : Node.Expr :=
  Node.mkExpr (Node.OfBinExpr b) (Node.Expr_type expr).

(** Any exit message, no crash, and no shortage of fuel when [need] units
    were supplied. *)
Definition total (n need : nat) : Exc :=
  mkExc (fun _ => True) False (n < need).

(** [m2] ends as [m1] does wherever [m1] had enough fuel. *)
Definition refines {A} (m1 m2 : M A) : Prop :=
  forall i, m1 i = OutOfFuel \/ m1 i = m2 i.

(** The tags the parser produces. *)
Definition tag_ok (t : VarType) : Prop := t = NONE \/ t = INT.

(** [err] is a diagnostic of the type check of [parse_expr]. *)
Definition is_type_error (err : string) : Prop :=
  exists msg l, err = parse_error "wrong operation :" msg l.

(** Exits are not type errors; crashes and fuel are not constrained. *)
Definition no_type_error : Exc :=
  mkExc (fun err => ~ is_type_error err) True True.

(** The result, if any, carries a tag the parser produces. *)
Definition tagged {A} (tag : A -> VarType) (r : option A) : Prop :=
  match r with
  | Some a => tag_ok (tag a)
  | None => True
  end.

(** No constraint on the outcomes other than a return. *)
Definition anything : Exc := mkExc (fun _ => True) True True.

(** What [exit_with] is called with when something is missing. *)
Definition expected : list string :=
  ["expression"; "return value"; "scope"; "statement"; "("; ")"; "}"].

(** [err] reports something missing on the line of a token of [tokens]. *)
Definition is_diagnostic (tokens : list Token) (err : string) : Prop :=
  exists what tok,
    In what expected /\ In tok tokens /\
    err = parse_error missing what (line tok).

(** Exits are diagnostics of [tokens] or type errors. *)
Definition reported (tokens : list Token) : Exc :=
  mkExc (fun err => is_diagnostic tokens err \/ is_type_error err) True True.

(** Nothing but a return. *)
Definition only_returns : Exc := mkExc (fun _ => False) False False.

(** Nothing but an exit with the message [msg]. *)
Definition exits (msg : string) : Exc := mkExc (fun err => err = msg) False False.

(** The tag of [e] is the tag of its leftmost term. *)
Definition tag_of_leftmost (e : Node.Expr) : Prop :=
  Node.Expr_type e = Node.Term_type (Shape.leftmost e).

Section WithTokens.

Variable _tokens : list Token.

(** The line [exit_with] reports with the cursor at [i]. *)
Definition error_line (i : nat) : option Z :=
  match peek_at _tokens i 0 with
  | Some tok => Some (line tok)
  | None => option_map line (peek_at _tokens i (-1))
  end.

(** There is a token of kind [t] at position [k]. *)
Definition has_kind (k : nat) (t : TokenType) : bool :=
  match nth_error _tokens k with
  | Some tok => TokenType_eqb (type tok) t
  | None => false
  end.

(** The token at [i] starts a term: the tests of [parse_term]. *)
Definition starts_term (i : nat) : bool :=
  has_kind i INTEGER_LITERAL || has_kind i IDENTIFIER
  || has_kind i LEFT_PARENTHESIS.

(** The tokens from [i] on start a statement: the tests of [parse_stmt]. *)
Definition starts_stmt (i : nat) : bool :=
  has_kind i RETURN
  || (has_kind i VAR && has_kind (i + 1) IDENTIFIER && has_kind (i + 2) EQUAL)
  || (has_kind i IDENTIFIER && has_kind (i + 1) EQUAL)
  || has_kind i LEFT_CURLY_BACKET
  || has_kind i IF'.

(** The cursor did not move, or it moved forward within the tokens. *)
Definition adv (i j : nat) : Prop := j = i \/ (i < j /\ j <= List.length _tokens).

(** A result was produced and the cursor moved forward, or the result is
    absent and the cursor did not move. *)
Definition adv_opt {A} (i : nat) (r : option A) (j : nat) : Prop :=
  match r with
  | Some _ => i < j /\ j <= List.length _tokens
  | None => j = i
  end.

(** What the loop does after it consumed the operator [op] and parsed
    the right operand. *)
Definition after_rside (n : nat) (min_prec : Z) (expr : Node.Expr)
           (op : Token) (expr_rside : option Node.Expr) : M Node.Expr :=
  match expr_rside with
  | None => exit_with _tokens "expression" missing
  | Some rside =>
      if type_mismatch (Node.Expr_type expr) (Node.Expr_type rside) then
        exit_with _tokens
          (VarType_to_string (Node.Expr_type expr)
             ++ TokenType_to_string (type op)
             ++ VarType_to_string (Node.Expr_type rside))
          "wrong operation :"
      else
        bind (fold expr op rside) (parse_expr_loop _tokens n min_prec)
  end.

(** Where an expression parsed with minimum [min_prec] ends: at the end
    of the tokens, at a token that is no operator, or at an operator
    that binds less than [min_prec]. *)
Definition stops_below (min_prec : Z) (j : nat) : Prop :=
  forall tok prec,
    nth_error _tokens j = Some tok -> bin_prec (type tok) = Some prec ->
    (prec < min_prec)%Z.

End WithTokens.

(** *** Parsing a segment of a longer token sequence *)

Section Window.

(** The tokens [tokens] with [before] in front of them and [after] behind. *)
Variables before tokens after : list Token.

Definition window : list Token := (before ++ tokens ++ after)%list.

(** [tr m m' i a j]: if [m], reading [tokens] from cursor [i], returns [a]
    with the cursor at [j], then [m'], reading [window] from the
    corresponding cursor, returns [a] at the corresponding cursor. *)
Definition tr {A} (m m' : M A) (i : nat) (a : A) (j : nat) : Prop :=
  m i = Ret a j ->
  m' (List.length before + i) = Ret a (List.length before + j).

(** The first token of [after], if any, does not continue an expression or
    an [if] statement that ends where [tokens] ends. *)
Definition quiet_after : Prop :=
  forall h, nth_error after 0 = Some h ->
            bin_prec (type h) = None /\ type h <> ELIF /\ type h <> ELSE.

End Window.

(** The token kinds a statement starts with. *)
Definition stmt_start (t : TokenType) : Prop :=
  t = RETURN \/ t = VAR \/ t = IDENTIFIER \/ t = LEFT_CURLY_BACKET \/ t = IF'.

(** [segment] alone is a program of exactly the one statement [s]. *)
Definition single_stmt (segment : list Token) (s : Node.Stmt) : Prop :=
  parse_prog segment = Ret (Node.mkProg [s]) (List.length segment).

End ParserLogic.

(** ** The tokens an AST stands for *)

Module Unparse.

Import Node.

(** What the parser can see of a token besides its line: its kind, and its
    text for the kinds that carry one. *)
Definition Key : Set := (TokenType * option string)%type.

Definition has_text (t : TokenType) : bool :=
  match t with
  | IDENTIFIER | INTEGER_LITERAL | CHAR_LITERAL => true
  | _ => false
  end.

Definition key (tok : Token) : Key :=
  (type tok, if has_text (type tok) then val tok else None).

(** A keyword, operator or punctuation token. *)
Definition kw (t : TokenType) : Key := (t, None).

(** The tokens a term and an expression are written with, left to right. *)
Fixpoint unparse_term (t : Term) : list Key :=
  match t with
  | mkTerm v _ => unparse_term_var v
  end
with unparse_term_var (v : TermVar) : list Key :=
  match v with
  | TermIntegerLiteral int_lit => [(INTEGER_LITERAL, val int_lit)]
  | TermIdentifier ident => [(IDENTIFIER, val ident)]
  | TermParen e =>
      kw LEFT_PARENTHESIS :: unparse_expr e ++ [kw RIGHT_PARENTHESIS]
  end
with unparse_expr (e : Expr) : list Key :=
  match e with
  | mkExpr v _ => unparse_expr_var v
  end
with unparse_expr_var (v : ExprVar) : list Key :=
  match v with
  | OfTerm t => unparse_term t
  | OfBinExpr b => unparse_bin b
  end
with unparse_bin (b : BinExpr) : list Key :=
  match b with
  | BinExprAdd l r => unparse_expr l ++ kw PLUS :: unparse_expr r
  | BinExprSub l r => unparse_expr l ++ kw MINUS :: unparse_expr r
  | BinExprMulti l r => unparse_expr l ++ kw STAR :: unparse_expr r
  | BinExprDiv l r => unparse_expr l ++ kw SLASH :: unparse_expr r
  end.

(** The tokens a statement, a scope and a predicate chain are written with. *)
Fixpoint unparse_stmt (s : Stmt) : list Key :=
  match s with
  | StmtReturn e => kw RETURN :: unparse_expr e
  | StmtVar identifier e =>
      kw VAR :: (IDENTIFIER, val identifier) :: kw EQUAL :: unparse_expr e
  | StmtVarAssign ident e =>
      (IDENTIFIER, val ident) :: kw EQUAL :: unparse_expr e
  | StmtScope sc => unparse_scope sc
  | StmtIf e sc pred =>
      kw IF' :: kw LEFT_PARENTHESIS :: unparse_expr e
        ++ kw RIGHT_PARENTHESIS :: unparse_scope sc
        ++ match pred with
           | Some p => unparse_pred p
           | None => []
           end
  end
with unparse_scope (sc : Scope) : list Key :=
  match sc with
  | mkScope stmts =>
      kw LEFT_CURLY_BACKET :: flat_map unparse_stmt stmts
        ++ [kw RIGHT_CURLY_BRACKET]
  end
with unparse_pred (p : IfPred) : list Key :=
  match p with
  | IfPredElif e sc next =>
      kw ELIF :: kw LEFT_PARENTHESIS :: unparse_expr e
        ++ kw RIGHT_PARENTHESIS :: unparse_scope sc
        ++ match next with
           | Some q => unparse_pred q
           | None => []
           end
  | IfPredElse sc => kw ELSE :: unparse_scope sc
  end.

Definition unparse_prog (prog : Prog) : list Key :=
  flat_map unparse_stmt (stmts prog).

(** The token kinds the parser has a use for. *)
Definition parsed_kind (t : TokenType) : bool :=
  match t with
  | RETURN | VAR | IDENTIFIER | INTEGER_LITERAL | IF' | ELIF | ELSE | EQUAL
  | LEFT_PARENTHESIS | RIGHT_PARENTHESIS
  | LEFT_CURLY_BACKET | RIGHT_CURLY_BRACKET
  | PLUS | MINUS | STAR | SLASH => true
  | _ => false
  end.

Definition parsed_keys (ks : list Key) : bool :=
  forallb (fun k => parsed_kind (fst k)) ks.

(** The tokens from cursor [i] up to cursor [j]. *)
Definition slice (tokens : list Token) (i j : nat) : list Token :=
  firstn (j - i) (skipn i tokens).

(** [spans tokens i ks j]: the tokens from cursor [i] up to cursor [j] are
    those of [ks]. *)
Inductive spans (tokens : list Token) : nat -> list Key -> nat -> Prop :=
| spans_nil i : spans tokens i [] i
| spans_cons i tok ks j :
    nth_error tokens i = Some tok ->
    spans tokens (S i) ks j ->
    spans tokens i (key tok :: ks) j.

End Unparse.

(** ** Notions used in the statements about the tokenizer *)

Module Lexeme.

(** The words of the keyword table (lines 127-145). *)
Definition is_keyword (buf : string) : bool :=
  String.eqb buf "int" || String.eqb buf "char" || String.eqb buf "var"
  || String.eqb buf "func" || String.eqb buf "return" || String.eqb buf "if"
  || String.eqb buf "elif" || String.eqb buf "else".

(** The characters a word goes on with (line 122). *)
Definition word_char (d : ascii) : bool := isalnum d || Ascii.eqb d "_".

Fixpoint all_chars (p : ascii -> bool) (s : string) : bool :=
  match s with
  | EmptyString => true
  | String c rest => p c && all_chars p rest
  end.

(** A letter followed by letters, digits and underscores. *)
Definition is_word (s : string) : bool :=
  match s with
  | String c more => isalpha c && all_chars word_char more
  | EmptyString => false
  end.

(** One digit or more. *)
Definition is_number (s : string) : bool :=
  match s with
  | String c more => isdigit c && all_chars isdigit more
  | EmptyString => false
  end.

(** One letter or digit. *)
Definition is_char (s : string) : bool :=
  match s with
  | String d EmptyString => isalnum d
  | _ => false
  end.

(** The tokens the tokenizer builds: an identifier holds a word that is no
    keyword, an integer literal a number, a character literal one letter or
    digit, and a token of any other kind holds no text. *)
Definition token_ok (tok : Token) : bool :=
  match type tok, val tok with
  | IDENTIFIER, Some s => is_word s && negb (is_keyword s)
  | INTEGER_LITERAL, Some s => is_number s
  | CHAR_LITERAL, Some s => is_char s
  | IDENTIFIER, None | INTEGER_LITERAL, None | CHAR_LITERAL, None => false
  | _, None => true
  | _, Some _ => false
  end.

(** The line numbers do not decrease along [tokens], and none is below [l]. *)
Fixpoint lines_from (l : Z) (tokens : list Token) : bool :=
  match tokens with
  | [] => true
  | tok :: rest => (l <=? line tok)%Z && lines_from (line tok) rest
  end.

(** The text a token is written with. *)
Definition lexeme (tok : Token) : string :=
  let text := match val tok with Some s => s | None => EmptyString end in
  match type tok with
  | IDENTIFIER | INTEGER_LITERAL => text
  | CHAR_LITERAL => String quote (text ++ String quote EmptyString)
  | RETURN => "return"
  | VAR => "var"
  | FUNC => "func"
  | TYPE_INT => "int"
  | TYPE_CHAR => "char"
  | IF' => "if"
  | ELIF => "elif"
  | ELSE => "else"
  | EQUAL => "="
  | COLON => ":"
  | COMMA => ","
  | LEFT_PARENTHESIS => "("
  | RIGHT_PARENTHESIS => ")"
  | LEFT_CURLY_BACKET => "{"
  | RIGHT_CURLY_BRACKET => "}"
  | PLUS => "+"
  | MINUS => "-"
  | STAR => "*"
  | SLASH => "/"
  end.

(** A source text for [tokens], written from line [l] on: each token on its
    line, followed by a space. *)
Fixpoint render (l : Z) (tokens : list Token) : string :=
  match tokens with
  | [] => EmptyString
  | tok :: rest =>
      Shape.newlines (Z.to_nat (line tok - l))
        ++ lexeme tok ++ String " " (render (line tok) rest)
  end.

(** The text holds the two characters that close a block comment. *)
Fixpoint closes_comment (s : string) : bool :=
  match s with
  | EmptyString => false
  | String c rest =>
      (Ascii.eqb c "*" && Tokenizer.peek_is rest 0 "/") || closes_comment rest
  end.

(** The character is no newline. *)
Definition on_the_line (c : ascii) : bool := negb (Ascii.eqb c newline).

(** The characters no branch of the tokenizer's loop accepts. *)
Definition stray (c : ascii) : bool :=
  negb (isalpha c) && negb (isdigit c)
  && match Tokenizer.punctuation c with Some _ => false | None => true end
  && negb (Ascii.eqb c quote) && negb (isspace c).

(** What holds of the tokens built so far when the line counter is at most
    [B]: each is well formed, the line numbers start at 1 or more and do not
    decrease, and none exceeds [B]. *)
Definition tokens_ok (B : Z) (tokens : list Token) : Prop :=
  forallb token_ok tokens = true /\
  lines_from 1 tokens = true /\
  Forall (fun tok => (line tok <= B)%Z) tokens.

(** The largest value of an [int], the type of [line_count] (line 92). *)
Definition INT_MAX : Z := 2147483647.

(** [line_count] stays an [int] while [src] is tokenized: it starts at 1
    and [line_count++] (line 244) runs at most once per newline character
    of [src], so it never runs at [INT_MAX]. *)
Definition lines_fit (src : string) : bool :=
  (1 + Shape.count_newlines src <=? INT_MAX)%Z.

(** [err] is one of the three messages of the tokenizer, for a line between
    1 and [B]. *)
Definition lexical_error (B : Z) (err : string) : Prop :=
  exists l,
    (1 <= l <= B)%Z /\
    (err = Tokenizer.err_valid_char l \/
     err = Tokenizer.err_closing_quote l \/
     exists c, stray c = true /\ err = Tokenizer.err_invalid_token c l).

(** One iteration of the loop of [tokenize] on a text that is not empty,
    [continue] being what the following iterations do. *)
Definition iteration (continue : string -> Z -> list Token -> Tokenizer.Outcome)
           (c : ascii) (rest : string) (line_count : Z) (tokens : list Token)
  : Tokenizer.Outcome :=
  let src := String c rest in
  if Ascii.eqb c "/" && Tokenizer.peek_is src 1 "/" then
    continue (Tokenizer.skip_line_comment src) line_count tokens
  else if Ascii.eqb c "/" && Tokenizer.peek_is src 1 "*" then
    let body := Tokenizer.consume_if_any rest in
    let at_close := Tokenizer.skip_block_comment body in
    continue (Tokenizer.consume_if_any (Tokenizer.consume_if_any at_close))
             line_count tokens
  else if isalpha c then
    let (more, rest') :=
      Tokenizer.take_while (fun d => isalnum d || Ascii.eqb d "_") rest in
    continue rest' line_count
             (tokens ++ [Tokenizer.word_token (String c more) line_count])%list
  else if isdigit c then
    let (more, rest') := Tokenizer.take_while isdigit rest in
    continue rest' line_count
      (tokens ++ [mkToken INTEGER_LITERAL line_count (Some (String c more))])%list
  else
    match Tokenizer.punctuation c with
    | Some k =>
        continue rest line_count (tokens ++ [mkToken k line_count None])%list
    | None =>
        if Ascii.eqb c quote then
          match rest with
          | String d rest' =>
              if isalnum d then
                if Tokenizer.peek_is rest' 0 quote then
                  continue (Tokenizer.consume_if_any rest') line_count
                    (tokens ++ [mkToken CHAR_LITERAL line_count
                                        (Some (String d EmptyString))])%list
                else Tokenizer.Exit (Tokenizer.err_closing_quote line_count)
              else Tokenizer.Exit (Tokenizer.err_valid_char line_count)
          | EmptyString => Tokenizer.Exit (Tokenizer.err_valid_char line_count)
          end
        else if Ascii.eqb c newline then
          continue rest (line_count + 1)%Z tokens
        else if isspace c then
          continue rest line_count tokens
        else Tokenizer.Exit (Tokenizer.err_invalid_token c line_count)
    end.

(** The loop of [tokenize] from the state [src], [line_count], [tokens]. *)
Definition resume (src : string) (line_count : Z) (tokens : list Token)
  : Tokenizer.Outcome :=
  Tokenizer.tokenize_loop (S (String.length src)) src line_count tokens.

End Lexeme.

(** ** The programs the parser returns, and their writing as tokens *)

Module Grammar.

Import Node.

(** A keyword, operator or punctuation token on line [l]. *)
Definition kwt (l : Z) (t : TokenType) : Token := mkToken t l None.

(** The tokens of a term and of an expression, in infix form.  A literal
    and an identifier are written with the token the node holds; the other
    tokens are put on line [l]. *)
Fixpoint write_term (l : Z) (t : Term) : list Token :=
  match t with
  | mkTerm v _ => write_term_var l v
  end
with write_term_var (l : Z) (v : TermVar) : list Token :=
  match v with
  | TermIntegerLiteral int_lit => [int_lit]
  | TermIdentifier ident => [ident]
  | TermParen e =>
      kwt l LEFT_PARENTHESIS :: write_expr l e ++ [kwt l RIGHT_PARENTHESIS]
  end
with write_expr (l : Z) (e : Expr) : list Token :=
  match e with
  | mkExpr v _ => write_expr_var l v
  end
with write_expr_var (l : Z) (v : ExprVar) : list Token :=
  match v with
  | OfTerm t => write_term l t
  | OfBinExpr b => write_bin l b
  end
with write_bin (l : Z) (b : BinExpr) : list Token :=
  match b with
  | BinExprAdd x y => write_expr l x ++ kwt l PLUS :: write_expr l y
  | BinExprSub x y => write_expr l x ++ kwt l MINUS :: write_expr l y
  | BinExprMulti x y => write_expr l x ++ kwt l STAR :: write_expr l y
  | BinExprDiv x y => write_expr l x ++ kwt l SLASH :: write_expr l y
  end.

(** The tokens of a statement, of a scope and of a predicate chain. *)
Fixpoint write_stmt (l : Z) (s : Stmt) : list Token :=
  match s with
  | StmtReturn e => kwt l RETURN :: write_expr l e
  | StmtVar identifier e =>
      kwt l VAR :: identifier :: kwt l EQUAL :: write_expr l e
  | StmtVarAssign ident e => ident :: kwt l EQUAL :: write_expr l e
  | StmtScope sc => write_scope l sc
  | StmtIf e sc pred =>
      kwt l IF' :: kwt l LEFT_PARENTHESIS :: write_expr l e
        ++ kwt l RIGHT_PARENTHESIS :: write_scope l sc
        ++ match pred with
           | Some p => write_pred l p
           | None => []
           end
  end
with write_scope (l : Z) (sc : Scope) : list Token :=
  match sc with
  | mkScope stmts =>
      kwt l LEFT_CURLY_BACKET :: flat_map (write_stmt l) stmts
        ++ [kwt l RIGHT_CURLY_BRACKET]
  end
with write_pred (l : Z) (p : IfPred) : list Token :=
  match p with
  | IfPredElif e sc next =>
      kwt l ELIF :: kwt l LEFT_PARENTHESIS :: write_expr l e
        ++ kwt l RIGHT_PARENTHESIS :: write_scope l sc
        ++ match next with
           | Some q => write_pred l q
           | None => []
           end
  | IfPredElse sc => kwt l ELSE :: write_scope l sc
  end.

Definition write_prog (l : Z) (prog : Prog) : list Token :=
  flat_map (write_stmt l) (stmts prog).

(** The terms and expressions [parse_term] and [parse_expr] build.  An
    integer literal holds a token of that kind and is tagged [INT]; an
    identifier holds a token of that kind and is tagged [NONE]; a term in
    parentheses has the tag of the expression inside.  An expression that is
    a term has the tag of the term.  A binary node built while the tag of
    the expression was [ty] keeps the tag [ty]; its left operand is what the
    expression was before, retagged [NONE], and its right operand is an
    expression of its own.  The shape is that of [Shape.climbed]. *)
Fixpoint built_term (t : Term) : bool :=
  match t with
  | mkTerm v ty => built_term_var v ty
  end
with built_term_var (v : TermVar) (ty : VarType) : bool :=
  match v with
  | TermIntegerLiteral int_lit =>
      TokenType_eqb (type int_lit) INTEGER_LITERAL && (ty =? INT)%Z
  | TermIdentifier ident =>
      TokenType_eqb (type ident) IDENTIFIER && (ty =? NONE)%Z
  | TermParen e =>
      built_expr e && Shape.climbed 0 e && (ty =? Expr_type e)%Z
  end
with built_expr (e : Expr) : bool :=
  match e with
  | mkExpr v ty => built_var v ty
  end
with built_var (v : ExprVar) (ty : VarType) : bool :=
  match v with
  | OfTerm t => built_term t && (ty =? Term_type t)%Z
  | OfBinExpr b => built_bin b ty
  end
with built_bin (b : BinExpr) (ty : VarType) : bool :=
  match b with
  | BinExprAdd x y | BinExprSub x y | BinExprMulti x y | BinExprDiv x y =>
      match x with
      | mkExpr xv xty => (xty =? NONE)%Z && built_var xv ty
      end
      && built_expr y
  end.

(** An expression [parse_expr] returns when called with minimal precedence
    0, as every statement calls it. *)
Definition built_top (e : Expr) : bool := built_expr e && Shape.climbed 0 e.

(** The statements, scopes and predicate chains the parser builds. *)
Fixpoint built_stmt (s : Stmt) : bool :=
  match s with
  | StmtReturn e => built_top e
  | StmtVar identifier e =>
      TokenType_eqb (type identifier) IDENTIFIER && built_top e
  | StmtVarAssign ident e =>
      TokenType_eqb (type ident) IDENTIFIER && built_top e
  | StmtScope sc => built_scope sc
  | StmtIf e sc pred =>
      built_top e && built_scope sc
      && match pred with
         | Some p => built_pred p
         | None => true
         end
  end
with built_scope (sc : Scope) : bool :=
  match sc with
  | mkScope stmts => forallb built_stmt stmts
  end
with built_pred (p : IfPred) : bool :=
  match p with
  | IfPredElif e sc next =>
      built_top e && built_scope sc
      && match next with
         | Some q => built_pred q
         | None => true
         end
  | IfPredElse sc => built_scope sc
  end.

Definition built_prog (prog : Prog) : bool := forallb built_stmt (stmts prog).

(** Induction over terms and expressions together. *)
Scheme Term_mut := Induction for Term Sort Prop
  with TermVar_mut := Induction for TermVar Sort Prop
  with Expr_mut := Induction for Expr Sort Prop
  with ExprVar_mut := Induction for ExprVar Sort Prop
  with BinExpr_mut := Induction for BinExpr Sort Prop.

(** [like tok w]: the token [tok] can stand where [w] was written.  A
    literal or an identifier is the very token written; of any other token,
    only the kind matters. *)
Definition like (tok w : Token) : Prop :=
  if Unparse.has_text (type w) then tok = w else type tok = type w.

(** [reads tokens i ts j]: the tokens from cursor [i] up to cursor [j] are
    like those of [ts], one by one. *)
Inductive reads (tokens : list Token) : nat -> list Token -> nat -> Prop :=
| reads_nil i : reads tokens i [] i
| reads_cons i tok w ts j :
    nth_error tokens i = Some tok ->
    like tok w ->
    reads tokens (S i) ts j ->
    reads tokens i (w :: ts) j.

End Grammar.

(** ** Induction over statements *)

Module NodeFacts.

Import Node.

(** Statements, scopes and predicate chains are defined through lists and
    options of each other; this is their induction principle. *)
Lemma Stmt_nested_ind (P : Stmt -> Prop) (Q : Scope -> Prop) (R : IfPred -> Prop) :
  (forall e, P (StmtReturn e)) ->
  (forall identifier e, P (StmtVar identifier e)) ->
  (forall ident e, P (StmtVarAssign ident e)) ->
  (forall sc, Q sc -> P (StmtScope sc)) ->
  (forall e sc pred,
      Q sc -> (forall p, pred = Some p -> R p) -> P (StmtIf e sc pred)) ->
  (forall stmts, Forall P stmts -> Q (mkScope stmts)) ->
  (forall e sc next,
      Q sc -> (forall q, next = Some q -> R q) -> R (IfPredElif e sc next)) ->
  (forall sc, Q sc -> R (IfPredElse sc)) ->
  (forall s, P s) /\ (forall sc, Q sc) /\ (forall p, R p).
Proof.
  intros Hret Hvar Hassign Hscope Hif Hmk Helif Helse.
  assert (HP : forall s, P s).
  { fix FS 1 with (FSc (sc : Scope) {struct sc} : Q sc)
                  (FP (p : IfPred) {struct p} : R p).
    - intros [e|identifier e|ident e|sc|e sc pred].
      + apply Hret.
      + apply Hvar.
      + apply Hassign.
      + apply Hscope, FSc.
      + apply Hif; [apply FSc|].
        destruct pred as [p|]; intros q E; [|discriminate E].
        injection E as <-. apply FP.
    - intros [stmts]. apply Hmk.
      induction stmts as [|s stmts IH]; constructor; [apply FS|exact IH].
    - intros [e sc next|sc].
      + apply Helif; [apply FSc|].
        destruct next as [p|]; intros q E; [|discriminate E].
        injection E as <-. apply FP.
      + apply Helse, FSc. }
  assert (HQ : forall sc, Q sc).
  { intros [stmts]. apply Hmk. apply Forall_forall. intros s _. apply HP. }
  split; [exact HP|split; [exact HQ|]].
  fix FP 1. intros [e sc next|sc].
  - apply Helif; [apply HQ|].
    destruct next as [p|]; intros q E; [|discriminate E].
    injection E as <-. apply FP.
  - apply Helse, HQ.
Qed.

End NodeFacts.

(** ** Reasoning about parser computations *)

Module ParserFacts.

Import Parser ParserLogic.
Local Open Scope parser_scope.

Lemma TokenType_eqb_eq (a b : TokenType) : TokenType_eqb a b = true <-> a = b.
Proof.
  split.
  - destruct a, b; simpl; intro H; try reflexivity; discriminate H.
  - intros ->. destruct b; reflexivity.
Qed.

Lemma string_append_assoc (a b c : string) : (a ++ b) ++ c = a ++ b ++ c.
Proof. induction a as [|x a IH]; simpl; [reflexivity|now rewrite IH]. Qed.

Lemma wp_ret {A} X (a : A) i (Q : A -> nat -> Prop) :
  Q a i -> wp X (ret a) i Q.
Proof. exact (fun H => H). Qed.

Lemma wp_bind {A B} X (m : M A) (f : A -> M B) i (Q : B -> nat -> Prop) :
  wp X m i (fun a j => wp X (f a) j Q) -> wp X (bind m f) i Q.
Proof. unfold wp, bind. destruct (m i); auto. Qed.

Lemma wp_weaken {A} (X X' : Exc) (m : M A) i (Q Q' : A -> nat -> Prop) :
  wp X m i Q ->
  (forall a j, Q a j -> Q' a j) ->
  (forall err, on_exit X err -> on_exit X' err) ->
  (on_crash X -> on_crash X') ->
  (on_oof X -> on_oof X') ->
  wp X' m i Q'.
Proof. unfold wp. destruct (m i); auto. Qed.

Lemma wp_and_then X (a b : M bool) i (Q : bool -> nat -> Prop) :
  wp X a i (fun x j => if x then wp X b j Q else Q false j) ->
  wp X (and_then a b) i Q.
Proof.
  intros H. unfold and_then. apply wp_bind.
  eapply wp_weaken; [exact H| |trivial..].
  intros [|] j Hx; [exact Hx|exact Hx].
Qed.

Lemma wp_out_of_fuel {A} X i (Q : A -> nat -> Prop) :
  on_oof X -> wp X out_of_fuel i Q.
Proof. exact (fun H => H). Qed.

Lemma wp_crash {A} X i (Q : A -> nat -> Prop) :
  on_crash X -> wp X crash i Q.
Proof. exact (fun H => H). Qed.

Section WithTokens.

Variable _tokens : list Token.

Abbreviation len := (List.length _tokens).

Lemma peek_at_nat i (k : nat) :
  peek_at _tokens i (Z.of_nat k) = nth_error _tokens (i + k).
Proof.
  unfold peek_at.
  replace (Z.of_nat i + Z.of_nat k)%Z with (Z.of_nat (i + k)) by lia.
  destruct (Z.ltb_spec (Z.of_nat (i + k)) 0); [lia|].
  now rewrite Nat2Z.id.
Qed.

Lemma peek_at_0 i : peek_at _tokens i 0 = nth_error _tokens i.
Proof.
  change (peek_at _tokens i (Z.of_nat 0) = nth_error _tokens i).
  rewrite peek_at_nat. f_equal. lia.
Qed.

Lemma peek_at_back i : peek_at _tokens (S i) (-1) = nth_error _tokens i.
Proof.
  unfold peek_at.
  replace (Z.of_nat (S i) + -1)%Z with (Z.of_nat i) by lia.
  destruct (Z.ltb_spec (Z.of_nat i) 0); [lia|].
  now rewrite Nat2Z.id.
Qed.

Lemma exit_with_eq {A} err_msg template_msg i :
  @exit_with _tokens A err_msg template_msg i =
  match error_line _tokens i with
  | Some l => Exit (parse_error template_msg err_msg l)
  | None => Crash
  end.
Proof.
  unfold exit_with, error_line.
  destruct (peek_at _tokens i 0); [reflexivity|].
  destruct (peek_at _tokens i (-1)); reflexivity.
Qed.

(** With the cursor on a token or just behind the last one, there is a
    line to report. *)
Lemma error_line_defined i :
  0 < len -> i <= len -> exists l, error_line _tokens i = Some l.
Proof.
  intros H1 H2. unfold error_line.
  destruct (peek_at _tokens i 0) as [tok|] eqn:E0; [eauto|].
  rewrite peek_at_0 in E0. apply nth_error_None in E0.
  destruct i as [|i]; [lia|]. rewrite peek_at_back.
  destruct (nth_error _tokens i) as [tok|] eqn:E; [simpl; eauto|].
  apply nth_error_None in E. lia.
Qed.

Lemma nth_error_Some_lt i (tok : Token) :
  nth_error _tokens i = Some tok -> i < len.
Proof. intros H. apply nth_error_Some. congruence. Qed.

Lemma error_line_at_token i tok :
  nth_error _tokens i = Some tok -> error_line _tokens i = Some (line tok).
Proof. intros H. unfold error_line. now rewrite peek_at_0, H. Qed.

Lemma wp_peek X (offset : Z) i (Q : option Token -> nat -> Prop) :
  Q (peek_at _tokens i offset) i -> wp X (peek _tokens offset) i Q.
Proof. exact (fun H => H). Qed.

Lemma wp_peek0 X i (Q : option Token -> nat -> Prop) :
  Q (nth_error _tokens i) i -> wp X (peek _tokens 0) i Q.
Proof. intros H. apply wp_peek. now rewrite peek_at_0. Qed.

Lemma wp_peek_type X t (k : nat) i (Q : bool -> nat -> Prop) :
  (forall tok, nth_error _tokens (i + k) = Some tok -> type tok = t ->
               i + k < len -> Q true i) ->
  Q false i ->
  wp X (peek_type _tokens t (Z.of_nat k)) i Q.
Proof.
  intros Ht Hf. unfold peek_type. apply wp_bind, wp_peek, wp_ret.
  rewrite peek_at_nat.
  destruct (nth_error _tokens (i + k)) as [tok|] eqn:E; [|exact Hf].
  destruct (TokenType_eqb (type tok) t) eqn:Eq; [|exact Hf].
  apply (Ht tok eq_refl).
  - now apply TokenType_eqb_eq.
  - apply nth_error_Some. congruence.
Qed.

Lemma wp_consume X i (Q : Token -> nat -> Prop) :
  (forall tok, nth_error _tokens i = Some tok -> i < len -> Q tok (S i)) ->
  (len <= i -> on_crash X) ->
  wp X (consume _tokens) i Q.
Proof.
  intros Hs Hn. unfold wp, consume.
  destruct (nth_error _tokens i) as [tok|] eqn:E.
  - apply Hs; [reflexivity|]. apply nth_error_Some. congruence.
  - apply Hn. now apply nth_error_None.
Qed.

Lemma wp_exit_with {A} X err_msg template_msg i (Q : A -> nat -> Prop) :
  (forall l, error_line _tokens i = Some l ->
             on_exit X (parse_error template_msg err_msg l)) ->
  (error_line _tokens i = None -> on_crash X) ->
  wp X (exit_with _tokens err_msg template_msg) i Q.
Proof.
  intros He Hc. unfold wp. rewrite exit_with_eq.
  destruct (error_line _tokens i); auto.
Qed.

Lemma wp_try_consume X t i (Q : option Token -> nat -> Prop) :
  (forall tok, nth_error _tokens i = Some tok -> type tok = t -> i < len ->
               Q (Some tok) (S i)) ->
  Q None i ->
  wp X (try_consume _tokens t) i Q.
Proof.
  intros Hs Hn. unfold try_consume. apply wp_bind.
  apply (wp_peek_type X t 0).
  - intros tok E Ety Hlt. rewrite Nat.add_0_r in E, Hlt.
    apply wp_bind, wp_consume.
    + intros tok' E' _. apply wp_ret.
      assert (tok' = tok) as -> by congruence. now apply Hs.
    + lia.
  - now apply wp_ret.
Qed.

Lemma wp_try_consume_err X t i (Q : Token -> nat -> Prop) :
  (forall tok, nth_error _tokens i = Some tok -> type tok = t -> i < len ->
               Q tok (S i)) ->
  (forall l, error_line _tokens i = Some l ->
             on_exit X (parse_error missing (TokenType_to_string t) l)) ->
  (error_line _tokens i = None -> on_crash X) ->
  wp X (try_consume_err _tokens t) i Q.
Proof.
  intros Hs He Hc. unfold try_consume_err. apply wp_bind.
  apply (wp_peek_type X t 0).
  - intros tok E Ety Hlt. rewrite Nat.add_0_r in E, Hlt.
    apply wp_consume.
    + intros tok' E' _. assert (tok' = tok) as -> by congruence. now apply Hs.
    + lia.
  - now apply wp_exit_with.
Qed.

Lemma fold_eq expr op rside :
  fold expr op rside =
  match bin_node (type op) (Node.mkExpr (Node.Expr_var expr) NONE) rside with
  | Some b => ret (folded expr b)
  | None => crash
  end.
Proof. unfold fold. destruct (type op); reflexivity. Qed.

Lemma bin_node_defined t prec l r :
  bin_prec t = Some prec -> exists b, bin_node t l r = Some b.
Proof. destruct t; simpl; intro H; try discriminate H; eauto. Qed.

Lemma wp_fold X expr op rside prec i (Q : Node.Expr -> nat -> Prop) :
  bin_prec (type op) = Some prec ->
  (forall b,
      bin_node (type op) (Node.mkExpr (Node.Expr_var expr) NONE) rside = Some b ->
      Q (folded expr b) i) ->
  wp X (fold expr op rside) i Q.
Proof.
  intros Hp HQ. rewrite fold_eq.
  destruct (bin_node_defined _ _ (Node.mkExpr (Node.Expr_var expr) NONE) rside Hp)
    as [b Hb].
  rewrite Hb. apply wp_ret, HQ, Hb.
Qed.

(** *** Progress of the cursor and sufficiency of the fuel *)

Ltac fin :=
  unfold adv, adv_opt, total in *;
  cbn [on_oof on_exit on_crash] in *; cbv beta iota in *;
  repeat match goal with
         | H : match ?x with Some _ => _ | None => _ end |- _ => destruct x
         | H : nth_error _ _ = Some _ |- _ =>
             apply nth_error_Some_lt in H
         | H : nth_error _ _ = None |- _ => apply nth_error_None in H
         end;
  try exact I;
  try lia;
  try match goal with
      | H : error_line _ ?j = None |- _ =>
          destruct (error_line_defined j) as [? ?]; [lia | lia | congruence]
      end.

Ltac same_token :=
  match goal with
  | H1 : nth_error _ ?i = Some ?t, H2 : nth_error _ ?i = Some ?tok,
    H3 : bin_prec (type ?t) = Some _ |- bin_prec (type ?tok) = _ =>
      replace tok with t by congruence; exact H3
  end.

Ltac wp_call IH :=
  eapply wp_weaken;
  [ apply IH
  | cbv beta; intros ? ? ?
  | trivial
  | trivial
  | fin ].

Ltac wp_prim :=
  match goal with
  | |- wp _ (bind _ _) _ _ => apply wp_bind
  | |- wp _ (ret _) _ _ => apply wp_ret
  | |- wp _ (peek _ 0) _ _ => apply wp_peek0
  | |- wp _ (fold _ _ _) _ _ => eapply wp_fold; [same_token|intros ? ?]
  | |- wp _ (try_consume _ _) _ _ => apply wp_try_consume; [intros ? ? ? ?|]
  | |- wp _ (try_consume_err _ _) _ _ =>
      apply wp_try_consume_err; [intros ? ? ? ?|intros ? ?|intros ?]
  | |- wp _ (consume _) _ _ => apply wp_consume; [intros ? ? ?|intros ?]
  | |- wp _ (exit_with _ _ _) _ _ => apply wp_exit_with; [intros ? ?|intros ?]
  | |- wp _ (peek_type _ _ 0) _ _ =>
      apply (wp_peek_type _ _ 0); [intros ? ? ? ?|]
  | |- wp _ (peek_type _ _ 1) _ _ =>
      apply (wp_peek_type _ _ 1); [intros ? ? ? ?|]
  | |- wp _ (peek_type _ _ 2) _ _ =>
      apply (wp_peek_type _ _ 2); [intros ? ? ? ?|]
  | |- wp _ (and_then _ _) _ _ => apply wp_and_then
  | |- (if true then _ else _) => cbv iota
  | |- (if false then _ else _) => cbv iota
  | |- wp _ (match ?x with _ => _ end) _ _ => destruct x eqn:?
  | |- wp _ (if ?b then _ else _) _ _ => destruct b eqn:?
  end.

Lemma expr_progress n :
  (forall i, wp (total n (2 * (len - i) + 1))
                (parse_term _tokens n) i (adv_opt _tokens i)) /\
  (forall min_prec i, wp (total n (2 * (len - i) + 2))
                (parse_expr _tokens n min_prec) i (adv_opt _tokens i)) /\
  (forall min_prec e i, wp (total n (2 * (len - i) + 1))
                (parse_expr_loop _tokens n min_prec e) i (fun _ => adv _tokens i)).
Proof.
  induction n as [|n [IHt [IHe IHl]]].
  - repeat split; intros; apply wp_out_of_fuel; simpl; lia.
  - repeat split; intros.
    + cbn [parse_term].
      repeat first [ wp_prim | wp_call IHe ]; fin.
    + cbn [parse_expr].
      repeat first [ wp_prim | wp_call IHt | wp_call IHl ]; fin.
    + cbn [parse_expr_loop].
      repeat first [ wp_prim | wp_call IHe | wp_call IHl ]; fin.
Qed.

Lemma stmt_progress n :
  (forall i, wp (total n (3 * (len - i) + 1))
                (parse_scope _tokens n) i (adv_opt _tokens i)) /\
  (forall stmts i, wp (total n (3 * (len - i) + 3))
                (parse_scope_loop _tokens n stmts) i (fun _ => adv _tokens i)) /\
  (forall i, wp (total n (3 * (len - i) + 1))
                (parse_if_pred _tokens n) i (adv_opt _tokens i)) /\
  (forall i, wp (total n (3 * (len - i) + 2))
                (parse_stmt _tokens n) i (adv_opt _tokens i)).
Proof.
  induction n as [|n [IHsc [IHsl [IHp IHst]]]].
  - repeat split; intros; apply wp_out_of_fuel; simpl; lia.
  - pose proof (expr_progress n) as [_ [IHe _]].
    repeat split; intros.
    + cbn [parse_scope].
      repeat first [ wp_prim | wp_call IHsl ]; fin.
    + cbn [parse_scope_loop].
      repeat first [ wp_prim | wp_call IHst | wp_call IHsl ]; fin.
    + cbn [parse_if_pred].
      repeat first [ wp_prim | wp_call IHe | wp_call IHsc | wp_call IHp ]; fin.
    + cbn [parse_stmt].
      repeat first [ wp_prim | wp_call IHe | wp_call IHsc | wp_call IHp ]; fin.
Qed.

Lemma prog_progress n stmts i :
  wp (total n (3 * (len - i) + 3)) (parse_prog_loop _tokens n stmts) i
     (fun _ j => adv _tokens i j /\ len <= j).
Proof.
  revert stmts i. induction n as [|n IH]; intros.
  - apply wp_out_of_fuel; simpl; lia.
  - pose proof (stmt_progress n) as [_ [_ [_ IHst]]].
    cbn [parse_prog_loop].
    repeat first [ wp_prim | wp_call IHst | wp_call IH ]; fin.
Qed.

(** *** More fuel does not change an outcome *)

Lemma refines_refl {A} (m : M A) : refines m m.
Proof. intro i. now right. Qed.

Lemma refines_out_of_fuel {A} (m : M A) : refines out_of_fuel m.
Proof. intro i. now left. Qed.

Lemma refines_bind {A B} (m1 m2 : M A) (f1 f2 : A -> M B) :
  refines m1 m2 -> (forall a, refines (f1 a) (f2 a)) ->
  refines (bind m1 f1) (bind m2 f2).
Proof.
  intros Hm Hf i. unfold bind.
  destruct (Hm i) as [E|E]; rewrite E; [now left|].
  destruct (m2 i); try now right. apply Hf.
Qed.

Ltac ref_step call :=
  first
    [ apply refines_refl
    | call
    | apply refines_bind; [|intros ?]
    | match goal with
      | |- refines (match ?x with _ => _ end) _ => destruct x
      | |- refines (if ?b then _ else _) _ => destruct b
      end ].

Lemma expr_fuel_mono n :
  forall m, n <= m ->
  refines (parse_term _tokens n) (parse_term _tokens m) /\
  (forall min_prec,
      refines (parse_expr _tokens n min_prec) (parse_expr _tokens m min_prec)) /\
  (forall min_prec e,
      refines (parse_expr_loop _tokens n min_prec e)
              (parse_expr_loop _tokens m min_prec e)).
Proof.
  induction n as [|n IH]; intros m Hle.
  - repeat split; intros; apply refines_out_of_fuel.
  - destruct m as [|m]; [lia|].
    destruct (IH m ltac:(lia)) as [IHt [IHe IHl]].
    repeat split; intros.
    + cbn [parse_term].
      repeat ref_step ltac:(apply IHe).
    + cbn [parse_expr].
      repeat ref_step ltac:(first [apply IHt | apply IHl]).
    + cbn [parse_expr_loop].
      repeat ref_step ltac:(first [apply IHe | apply IHl]).
Qed.

Lemma stmt_fuel_mono n :
  forall m, n <= m ->
  refines (parse_scope _tokens n) (parse_scope _tokens m) /\
  (forall stmts,
      refines (parse_scope_loop _tokens n stmts)
              (parse_scope_loop _tokens m stmts)) /\
  refines (parse_if_pred _tokens n) (parse_if_pred _tokens m) /\
  refines (parse_stmt _tokens n) (parse_stmt _tokens m).
Proof.
  induction n as [|n IH]; intros m Hle.
  - repeat split; intros; apply refines_out_of_fuel.
  - destruct m as [|m]; [lia|].
    destruct (IH m ltac:(lia)) as [IHsc [IHsl [IHp IHst]]].
    destruct (expr_fuel_mono n m ltac:(lia)) as [_ [IHe _]].
    repeat split; intros.
    + cbn [parse_scope].
      repeat ref_step ltac:(apply IHsl).
    + cbn [parse_scope_loop].
      repeat ref_step ltac:(first [apply IHst | apply IHsl]).
    + cbn [parse_if_pred].
      repeat ref_step ltac:(first [apply IHe | apply IHsc | apply IHp]).
    + cbn [parse_stmt].
      repeat ref_step ltac:(first [apply IHe | apply IHsc | apply IHp]).
Qed.

Lemma prog_fuel_mono n :
  forall m stmts, n <= m ->
  refines (parse_prog_loop _tokens n stmts) (parse_prog_loop _tokens m stmts).
Proof.
  induction n as [|n IH]; intros m stmts Hle.
  - apply refines_out_of_fuel.
  - destruct m as [|m]; [lia|].
    destruct (stmt_fuel_mono n m ltac:(lia)) as [_ [_ [_ IHst]]].
    cbn [parse_prog_loop].
    repeat ref_step ltac:(first [apply IHst | apply IH; lia]).
Qed.

(** *** The type tags the parser produces *)

Lemma missing_is_not_type_error err_msg l :
  ~ is_type_error (parse_error missing err_msg l).
Proof. intros [msg [l' H]]. unfold parse_error in H. simpl in H. discriminate H. Qed.

Lemma tags_never_mismatch l r :
  tag_ok l -> tag_ok r -> type_mismatch l r = false.
Proof. intros [-> | ->] [-> | ->]; reflexivity. Qed.

Lemma to_variable_type_ok t : tag_ok (to_variable_type t).
Proof. destruct t; simpl; unfold tag_ok; auto. Qed.

Lemma tag_ok_INT : tag_ok INT.
Proof. now right. Qed.

Ltac tag_fin :=
  unfold no_type_error in *;
  cbn [on_oof on_exit on_crash Node.Expr_type Node.Term_type folded] in *;
  cbv beta iota in *;
  try exact I;
  try apply missing_is_not_type_error;
  try match goal with
      | H : type_mismatch ?l ?r = true |- _ =>
          rewrite (tags_never_mismatch l r) in H by assumption;
          discriminate H
      end;
  auto using to_variable_type_ok, tag_ok_INT.

Ltac tag_call IH :=
  eapply wp_weaken;
  [ apply IH; tag_fin | cbv beta; intros ? ? ? | trivial | trivial | trivial ].

Lemma expr_tags n :
  (forall i, wp no_type_error (parse_term _tokens n) i
                (fun r _ => tagged Node.Term_type r)) /\
  (forall min_prec i, wp no_type_error (parse_expr _tokens n min_prec) i
                (fun r _ => tagged Node.Expr_type r)) /\
  (forall min_prec e i, tag_ok (Node.Expr_type e) ->
                wp no_type_error (parse_expr_loop _tokens n min_prec e) i
                   (fun e' _ => tag_ok (Node.Expr_type e'))).
Proof.
  unfold tagged.
  induction n as [|n [IHt [IHe IHl]]].
  - repeat split; intros; exact I.
  - repeat split; intros.
    + cbn [parse_term].
      repeat first [ wp_prim | tag_call IHe ]; tag_fin.
    + cbn [parse_expr].
      repeat first [ wp_prim | tag_call IHt | tag_call IHl ]; tag_fin.
    + cbn [parse_expr_loop].
      repeat first [ wp_prim | tag_call IHe | tag_call IHl ]; tag_fin.
Qed.

Lemma stmt_tags n :
  (forall i, wp no_type_error (parse_scope _tokens n) i (fun _ _ => True)) /\
  (forall stmts i,
      wp no_type_error (parse_scope_loop _tokens n stmts) i (fun _ _ => True)) /\
  (forall i, wp no_type_error (parse_if_pred _tokens n) i (fun _ _ => True)) /\
  (forall i, wp no_type_error (parse_stmt _tokens n) i (fun _ _ => True)).
Proof.
  induction n as [|n [IHsc [IHsl [IHp IHst]]]].
  - repeat split; intros; exact I.
  - pose proof (expr_tags n) as [_ [IHe _]].
    repeat split; intros.
    + cbn [parse_scope].
      repeat first [ wp_prim | tag_call IHsl ]; tag_fin.
    + cbn [parse_scope_loop].
      repeat first [ wp_prim | tag_call IHst | tag_call IHsl ]; tag_fin.
    + cbn [parse_if_pred].
      repeat first [ wp_prim | tag_call IHe | tag_call IHsc | tag_call IHp ];
        tag_fin.
    + cbn [parse_stmt].
      repeat first [ wp_prim | tag_call IHe | tag_call IHsc | tag_call IHp ];
        tag_fin.
Qed.

Lemma prog_tags n stmts i :
  wp no_type_error (parse_prog_loop _tokens n stmts) i (fun _ _ => True).
Proof.
  revert stmts i. induction n as [|n IH]; intros.
  - exact I.
  - pose proof (stmt_tags n) as [_ [_ [_ IHst]]].
    cbn [parse_prog_loop].
    repeat first [ wp_prim | tag_call IHst | tag_call IH ]; tag_fin.
Qed.

(** *** The tag of an expression is the tag of its leftmost term *)

Lemma wp_returned {A} X (m : M A) i (Q : A -> nat -> Prop) a j :
  wp X m i Q -> m i = Ret a j -> Q a j.
Proof. unfold wp. intros H E. now rewrite E in H. Qed.

Lemma wp_anything {A} (m : M A) i : wp anything m i (fun _ _ => True).
Proof. unfold wp. destruct (m i); exact I. Qed.

Lemma term_tagging n i :
  wp anything (parse_term _tokens n) i
     (fun r _ => match r with
                 | Some t => Shape.term_tag_rule t
                 | None => True
                 end).
Proof.
  destruct n as [|n]; [exact I|].
  cbn [parse_term].
  repeat first
    [ wp_prim
    | eapply wp_weaken;
      [apply wp_anything|cbv beta; intros ? ? ?|trivial|trivial|trivial] ];
    try exact I; try reflexivity.
  cbn. match goal with H : type _ = IDENTIFIER |- _ => now rewrite H end.
Qed.

(** A statement starts with one of five token kinds. *)
Lemma stmt_starts n i :
  wp anything (parse_stmt _tokens n) i
     (fun r _ => match r with
                 | Some _ => exists tok, nth_error _tokens i = Some tok /\
                                         stmt_start (type tok)
                 | None => True
                 end).
Proof.
  destruct n as [|n]; [exact I|].
  cbn [parse_stmt].
  repeat first
    [ wp_prim
    | eapply wp_weaken;
      [apply wp_anything|cbv beta; intros ? ? ?|trivial|trivial|trivial] ];
    try exact I;
    rewrite ?Nat.add_0_r in *;
    match goal with
    | Ht : nth_error _ i = Some ?t, Htok : nth_error _ i = Some ?tok,
      Hty : type ?tok = _ |- exists _, Some ?t = _ /\ _ =>
        exists tok; split; [congruence|];
        rewrite Hty; unfold stmt_start; tauto
    end.
Qed.

Lemma leftmost_folded expr op rside b :
  bin_node (type op) (Node.mkExpr (Node.Expr_var expr) NONE) rside = Some b ->
  Shape.leftmost (folded expr b) = Shape.leftmost expr.
Proof.
  destruct expr as [v ty]. unfold bin_node.
  destruct (type op); intros H; inversion H; reflexivity.
Qed.

Ltac left_fin :=
  unfold tag_of_leftmost, anything in *;
  cbn [on_oof on_exit on_crash] in *; cbv beta iota in *;
  try exact I;
  try match goal with
      | H : bin_node _ _ _ = Some ?b |- context [folded ?e ?b] =>
          rewrite (leftmost_folded _ _ _ _ H)
      end;
  cbn [Node.Expr_type folded] in *;
  try (intuition congruence).

Ltac left_call IH :=
  eapply wp_weaken;
  [ apply IH; left_fin | cbv beta; intros ? ? ? | trivial | trivial | trivial ].

Lemma expr_leftmost n :
  (forall min_prec i, wp anything (parse_expr _tokens n min_prec) i
      (fun r _ => match r with
                  | Some e => tag_of_leftmost e
                  | None => True
                  end)) /\
  (forall min_prec e i, tag_of_leftmost e ->
      wp anything (parse_expr_loop _tokens n min_prec e) i
         (fun e' _ => tag_of_leftmost e' /\
                      Node.Expr_type e' = Node.Expr_type e)).
Proof.
  induction n as [|n [IHe IHl]].
  - repeat split; intros; exact I.
  - repeat split; intros.
    + cbn [parse_expr].
      eapply wp_bind, wp_weaken with (X := anything) (Q := fun _ _ => True);
        [ unfold wp; now destruct (parse_term _tokens n i) | | trivial..].
      intros [t|] j _; [|now apply wp_ret].
      repeat first [ wp_prim | left_call IHl ]; left_fin.
    + cbn [parse_expr_loop].
      repeat first [ wp_prim | left_call IHe | left_call IHl ]; left_fin.
Qed.

(** *** One iteration of the folding loop *)

Lemma loop_step n min_prec expr i op prec :
  nth_error _tokens i = Some op ->
  bin_prec (type op) = Some prec ->
  (min_prec <= prec)%Z ->
  parse_expr_loop _tokens (S n) min_prec expr i =
  bind (parse_expr _tokens n (prec + 1)%Z)
       (after_rside _tokens n min_prec expr op) (S i).
Proof.
  intros Hop Hprec Hle. cbn [parse_expr_loop].
  unfold bind at 1, peek. rewrite peek_at_0, Hop, Hprec.
  destruct (Z.ltb_spec prec min_prec); [lia|].
  unfold bind at 1, consume. rewrite Hop. reflexivity.
Qed.

Lemma loop_stop n min_prec expr i :
  match nth_error _tokens i with
  | Some tok =>
      match bin_prec (type tok) with
      | Some prec => (prec < min_prec)%Z
      | None => True
      end
  | None => True
  end ->
  parse_expr_loop _tokens (S n) min_prec expr i = Ret expr i.
Proof.
  intros H. cbn [parse_expr_loop]. unfold bind, peek. rewrite peek_at_0.
  destruct (nth_error _tokens i) as [tok|]; [|reflexivity].
  destruct (bin_prec (type tok)) as [prec|]; [|reflexivity].
  destruct (Z.ltb_spec prec min_prec); [reflexivity|lia].
Qed.

Lemma expr_stops n :
  (forall min_prec i, wp anything (parse_expr _tokens n min_prec) i
      (fun r j => match r with
                  | Some _ => stops_below _tokens min_prec j
                  | None => True
                  end)) /\
  (forall min_prec e i, wp anything (parse_expr_loop _tokens n min_prec e) i
      (fun _ j => stops_below _tokens min_prec j)).
Proof.
  induction n as [|n [IHe IHl]].
  - repeat split; intros; exact I.
  - repeat split; intros.
    + cbn [parse_expr].
      eapply wp_bind, wp_weaken with (X := anything) (Q := fun _ _ => True);
        [ unfold wp; now destruct (parse_term _tokens n i) | | trivial..].
      intros [t|] j _; [|now apply wp_ret].
      apply wp_bind. eapply wp_weaken; [apply IHl| |trivial..].
      intros e j' H. now apply wp_ret.
    + cbn [parse_expr_loop]. apply wp_bind, wp_peek0.
      destruct (nth_error _tokens i) as [tok|] eqn:Etok.
      2:{ apply wp_ret. intros tok prec E. congruence. }
      destruct (bin_prec (type tok)) as [prec|] eqn:Eprec.
      2:{ apply wp_ret. intros tok' prec E1 E2. congruence. }
      destruct (Z.ltb_spec prec min_prec).
      { apply wp_ret. intros tok' prec' E1 E2.
        assert (prec' = prec) by congruence. lia. }
      repeat first [ wp_prim | left_call IHe | left_call IHl ];
        try exact I; auto.
Qed.

(** *** Where the cursor is after a call returned *)

Lemma term_adv n i r j :
  parse_term _tokens n i = Ret r j -> adv_opt _tokens i r j.
Proof.
  destruct (expr_progress n) as [H _]. exact (wp_returned _ _ _ _ _ _ (H i)).
Qed.

Lemma expr_adv n min_prec i r j :
  parse_expr _tokens n min_prec i = Ret r j -> adv_opt _tokens i r j.
Proof.
  destruct (expr_progress n) as [_ [H _]].
  exact (wp_returned _ _ _ _ _ _ (H min_prec i)).
Qed.

Lemma expr_loop_adv n min_prec e i r j :
  parse_expr_loop _tokens n min_prec e i = Ret r j -> adv _tokens i j.
Proof.
  destruct (expr_progress n) as [_ [_ H]].
  exact (wp_returned _ _ _ _ _ _ (H min_prec e i)).
Qed.

Lemma scope_adv n i r j :
  parse_scope _tokens n i = Ret r j -> adv_opt _tokens i r j.
Proof.
  destruct (stmt_progress n) as [H _]. exact (wp_returned _ _ _ _ _ _ (H i)).
Qed.

Lemma scope_loop_adv n stmts i r j :
  parse_scope_loop _tokens n stmts i = Ret r j -> adv _tokens i j.
Proof.
  destruct (stmt_progress n) as [_ [H _]].
  exact (wp_returned _ _ _ _ _ _ (H stmts i)).
Qed.

Lemma if_pred_adv n i r j :
  parse_if_pred _tokens n i = Ret r j -> adv_opt _tokens i r j.
Proof.
  destruct (stmt_progress n) as [_ [_ [H _]]].
  exact (wp_returned _ _ _ _ _ _ (H i)).
Qed.

Lemma stmt_adv n i r j :
  parse_stmt _tokens n i = Ret r j -> adv_opt _tokens i r j.
Proof.
  destruct (stmt_progress n) as [_ [_ [_ H]]].
  exact (wp_returned _ _ _ _ _ _ (H i)).
Qed.

Lemma consume_adv i a j :
  consume _tokens i = Ret a j -> j = S i /\ i < len.
Proof.
  apply (wp_returned anything _ i (fun _ j => j = S i /\ i < len)).
  apply wp_consume; [intros; split; [reflexivity|assumption]|intros; exact I].
Qed.

Lemma try_consume_adv t i a j :
  try_consume _tokens t i = Ret a j -> adv_opt _tokens i a j.
Proof.
  apply (wp_returned anything _ i (adv_opt _tokens i)).
  apply wp_try_consume; [intros; simpl; lia|reflexivity].
Qed.

Lemma try_consume_err_adv t i a j :
  try_consume_err _tokens t i = Ret a j -> j = S i /\ i < len.
Proof.
  apply (wp_returned anything _ i (fun _ j => j = S i /\ i < len)).
  apply wp_try_consume_err; [intros; split; [reflexivity|assumption]|intros; exact I..].
Qed.

Lemma fold_adv expr op rside i a j :
  fold expr op rside i = Ret a j -> j = i.
Proof.
  rewrite fold_eq. destruct (bin_node _ _ _); [|discriminate].
  unfold ret. intros H. now inversion H.
Qed.

Lemma peek_adv (offset : Z) i a j :
  peek _tokens offset i = Ret a j -> j = i.
Proof. unfold peek. intros H. now inversion H. Qed.

Lemma peek0_inv i a j :
  peek _tokens 0 i = Ret a j -> a = nth_error _tokens i.
Proof. unfold peek. rewrite peek_at_0. intros H. now inversion H. Qed.

Lemma refines_ret {A} (m1 m2 : M A) i a j :
  refines m1 m2 -> m1 i = Ret a j -> m2 i = Ret a j.
Proof. intros H E. destruct (H i) as [E'|E']; congruence. Qed.

(** *** The tokens a parsed node was read from *)

Lemma spans_app i a j b k :
  Unparse.spans _tokens i a j -> Unparse.spans _tokens j b k ->
  Unparse.spans _tokens i (a ++ b) k.
Proof.
  induction 1 as [i|i tok ks j Htok Hs IH]; intros Hb; [exact Hb|].
  simpl. apply Unparse.spans_cons; [exact Htok|exact (IH Hb)].
Qed.

Lemma spans_kw i tok t ks j :
  nth_error _tokens i = Some tok -> type tok = t -> Unparse.has_text t = false ->
  Unparse.spans _tokens (S i) ks j ->
  Unparse.spans _tokens i (Unparse.kw t :: ks) j.
Proof.
  intros Htok Hty Ht Hs.
  replace (Unparse.kw t) with (Unparse.key tok);
    [now apply Unparse.spans_cons|].
  unfold Unparse.key, Unparse.kw. now rewrite Hty, Ht.
Qed.

Lemma spans_text i tok t ks j :
  nth_error _tokens i = Some tok -> type tok = t -> Unparse.has_text t = true ->
  Unparse.spans _tokens (S i) ks j ->
  Unparse.spans _tokens i ((t, val tok) :: ks) j.
Proof.
  intros Htok Hty Ht Hs.
  replace (t, val tok) with (Unparse.key tok);
    [now apply Unparse.spans_cons|].
  unfold Unparse.key. now rewrite Hty, Ht.
Qed.

Lemma spans_snoc i a j tok t :
  Unparse.spans _tokens i a j ->
  nth_error _tokens j = Some tok -> type tok = t -> Unparse.has_text t = false ->
  Unparse.spans _tokens i (a ++ [Unparse.kw t]) (S j).
Proof.
  intros Ha Htok Hty Ht. apply (spans_app _ _ j); [exact Ha|].
  apply (spans_kw _ tok); auto. apply Unparse.spans_nil.
Qed.

Lemma spans_slice i ks j :
  Unparse.spans _tokens i ks j ->
  i <= j /\ map Unparse.key (Unparse.slice _tokens i j) = ks.
Proof.
  unfold Unparse.slice.
  induction 1 as [i|i tok ks j Htok Hs [Hle IH]].
  - split; [lia|]. now rewrite Nat.sub_diag.
  - split; [lia|].
    replace (j - i) with (S (j - S i)) by lia.
    assert (Hskip : skipn i _tokens = tok :: skipn (S i) _tokens).
    { clear -Htok. revert i Htok.
      induction _tokens as [|x l IHl]; intros [|i] H; try discriminate H.
      - now inversion H.
      - simpl in H. exact (IHl i H). }
    rewrite Hskip. cbn [firstn map]. now rewrite IH.
Qed.

Lemma unparse_folded expr op rside prec b :
  bin_prec (type op) = Some prec ->
  bin_node (type op) (Node.mkExpr (Node.Expr_var expr) NONE) rside = Some b ->
  Unparse.unparse_expr (folded expr b) =
  (Unparse.unparse_expr expr
     ++ Unparse.kw (type op) :: Unparse.unparse_expr rside)%list /\
  Unparse.has_text (type op) = false.
Proof.
  destruct expr as [v ty]. unfold bin_node, folded.
  destruct (type op); intros Hp H; try discriminate Hp;
    inversion H; split; reflexivity.
Qed.

(** Two names of the token at one position are one token. *)
Ltac same_tokens :=
  rewrite ?Nat.add_0_r in *;
  repeat match goal with
    | H : context [?i + 1] |- _ => replace (i + 1) with (S i) in H by lia
    | H : context [?i + 2] |- _ => replace (i + 2) with (S (S i)) in H by lia
    end;
  repeat match goal with
    | H1 : nth_error ?l ?p = Some ?a, H2 : nth_error ?l ?p = Some ?b |- _ =>
        assert (b = a) by congruence; subst b; clear H2
    end.

Ltac spans_fin :=
  same_tokens; cbv beta iota in *;
  cbn [Unparse.unparse_term Unparse.unparse_term_var Unparse.unparse_expr
       Unparse.unparse_expr_var Unparse.unparse_stmt Unparse.unparse_scope
       Unparse.unparse_pred app];
  repeat match goal with
    | H : match ?a with Some _ => _ | None => _ end |- _ => destruct a
    end;
  try exact I; try reflexivity; subst;
  repeat first
    [ apply Unparse.spans_nil
    | eassumption
    | eapply spans_kw; [eassumption|eassumption|reflexivity|]
    | eapply spans_text; [eassumption|eassumption|reflexivity|]
    | eapply spans_app; [eassumption|]
    | eapply spans_snoc; [|eassumption|eassumption|reflexivity] ].

Ltac spans_folded :=
  match goal with
  | Hp : bin_prec (type ?op) = Some _,
    Hb : bin_node (type ?op) _ _ = Some _ |- _ =>
      let Hu := fresh "Hu" in
      let Ht := fresh "Ht" in
      destruct (unparse_folded _ _ _ _ _ Hp Hb) as [Hu Ht]; rewrite Hu;
      eapply spans_app; [eassumption|];
      eapply spans_kw; [eassumption|reflexivity|exact Ht|eassumption]
  end.

Ltac spans_call IH :=
  eapply wp_weaken;
  [ apply IH | cbv beta; intros ? ? ? | trivial | trivial | trivial ].

Lemma expr_spans n :
  (forall i, wp anything (parse_term _tokens n) i
      (fun r j => match r with
                  | Some t => Unparse.spans _tokens i (Unparse.unparse_term t) j
                  | None => True
                  end)) /\
  (forall min_prec i, wp anything (parse_expr _tokens n min_prec) i
      (fun r j => match r with
                  | Some e => Unparse.spans _tokens i (Unparse.unparse_expr e) j
                  | None => True
                  end)) /\
  (forall min_prec e i0 i,
      Unparse.spans _tokens i0 (Unparse.unparse_expr e) i ->
      wp anything (parse_expr_loop _tokens n min_prec e) i
         (fun e' j => Unparse.spans _tokens i0 (Unparse.unparse_expr e') j)).
Proof.
  induction n as [|n [IHt [IHe IHl]]].
  - repeat split; intros; exact I.
  - repeat split; intros.
    + cbn [parse_term].
      repeat first [ wp_prim | spans_call IHe ]; spans_fin.
    + cbn [parse_expr].
      repeat first
        [ wp_prim | spans_call IHt
        | eapply wp_weaken;
          [eapply IHl; spans_fin|cbv beta; intros ? ? ?|trivial..] ];
        spans_fin.
    + cbn [parse_expr_loop].
      repeat first
        [ wp_prim | spans_call IHe
        | eapply wp_weaken;
          [eapply IHl; spans_fin; spans_folded
          |cbv beta; intros ? ? ?|trivial..] ];
        spans_fin.
Qed.

(** *** The shape precedence climbing gives *)

Lemma wp_both {A} (m : M A) i (Q1 Q2 : A -> nat -> Prop) :
  wp anything m i Q1 -> wp anything m i Q2 ->
  wp anything m i (fun a j => Q1 a j /\ Q2 a j).
Proof. unfold wp. destruct (m i); auto. Qed.

Lemma climbed_lower lo hi e :
  (lo <= hi)%Z -> Shape.climbed hi e = true -> Shape.climbed lo e = true.
Proof.
  destruct e as [[t|b] ty]; cbn [Shape.climbed Shape.climbed_var]; [auto|].
  intros Hle.
  destruct b; cbn [Shape.climbed_bin]; intros H;
    apply andb_prop in H as [H Hr]; apply andb_prop in H as [Hlo Hl];
    rewrite Hl, Hr, andb_true_r, andb_true_r;
    apply Z.leb_le; apply Z.leb_le in Hlo; lia.
Qed.

Lemma climbed_folded expr op rside prec lo b :
  bin_prec (type op) = Some prec ->
  (lo <= prec)%Z ->
  bin_node (type op) (Node.mkExpr (Node.Expr_var expr) NONE) rside = Some b ->
  Shape.climbed prec expr = true ->
  Shape.climbed (prec + 1) rside = true ->
  Shape.climbed lo (folded expr b) = true.
Proof.
  destruct expr as [v ty]. unfold bin_node, folded. cbn [Node.Expr_var].
  intros Hp Hlt Hb Hl Hr.
  destruct (type op); try discriminate Hp;
    injection Hp as <-; injection Hb as <-;
    change (0 + 1)%Z with 1%Z in Hr; change (1 + 1)%Z with 2%Z in Hr;
    cbn [Shape.climbed Shape.climbed_var Shape.climbed_bin] in *;
    rewrite Hl, Hr, andb_true_r, andb_true_r; now apply Z.leb_le.
Qed.

(** [expr] can be the left operand of the operator at cursor [i], if there
    is one. *)
Abbreviation joins expr i :=
  (forall tok prec,
      nth_error _tokens i = Some tok -> bin_prec (type tok) = Some prec ->
      Shape.climbed prec expr = true).

Ltac climbed_fin :=
  same_tokens; cbv beta iota in *;
  cbn [Shape.climbed Shape.climbed_var Shape.climbed_term
       Shape.climbed_term_var];
  try exact I; try reflexivity; try eassumption.

Lemma expr_climbed n :
  (forall i, wp anything (parse_term _tokens n) i
      (fun r j => match r with
                  | Some t => Shape.climbed_term t = true
                  | None => True
                  end)) /\
  (forall min_prec i, wp anything (parse_expr _tokens n min_prec) i
      (fun r j => match r with
                  | Some e => Shape.climbed min_prec e = true
                  | None => True
                  end)) /\
  (forall min_prec e i,
      Shape.climbed min_prec e = true -> joins e i ->
      wp anything (parse_expr_loop _tokens n min_prec e) i
         (fun e' j => Shape.climbed min_prec e' = true)).
Proof.
  induction n as [|n [IHt [IHe IHl]]].
  - repeat split; intros; exact I.
  - repeat split; intros.
    + cbn [parse_term].
      repeat first [ wp_prim | spans_call IHe ]; climbed_fin.
    + cbn [parse_expr].
      repeat first
        [ wp_prim | spans_call IHt
        | eapply wp_weaken;
          [eapply IHl; [|intros ? ? _ _]; climbed_fin
          |cbv beta; intros ? ? ?|trivial..] ];
        climbed_fin.
    + cbn [parse_expr_loop]. rename H into Hlo, H0 into Hjoin.
      apply wp_bind, wp_peek0.
      destruct (nth_error _tokens i) as [tok|] eqn:Etok; [|now apply wp_ret].
      destruct (bin_prec (type tok)) as [prec|] eqn:Eprec; [|now apply wp_ret].
      destruct (Z.ltb_spec prec min_prec); [now apply wp_ret|].
      apply wp_bind, wp_consume; [intros op Eop Hlt|intros E; exact I].
      assert (op = tok) as -> by congruence.
      apply wp_bind.
      eapply wp_weaken;
        [ apply (wp_both _ _ _ _ (IHe (prec + 1)%Z (S i))
                   (proj1 (expr_stops n) (prec + 1)%Z (S i)))
        | cbv beta | trivial.. ].
      intros [rside|] j [Hr Hstop]; [|apply wp_exit_with; intros; exact I].
      destruct (type_mismatch _ _); [apply wp_exit_with; intros; exact I|].
      apply wp_bind. eapply wp_fold; [exact Eprec|intros b Hb].
      pose proof (Hjoin tok prec eq_refl Eprec) as Hl.
      apply IHl.
      * exact (climbed_folded _ _ _ _ _ _ Eprec H Hb Hl Hr).
      * intros tok' prec' Etok' Eprec'.
        assert (Hle : (prec' <= prec)%Z)
          by (pose proof (Hstop tok' prec' Etok' Eprec'); lia).
        exact (climbed_folded _ _ _ _ _ _ Eprec Hle Hb Hl Hr).
Qed.

Lemma spans_push i0 stmts i s j :
  Unparse.spans _tokens i0 (flat_map Unparse.unparse_stmt stmts) i ->
  Unparse.spans _tokens i (Unparse.unparse_stmt s) j ->
  Unparse.spans _tokens i0
    (flat_map Unparse.unparse_stmt (stmts ++ [s])) j.
Proof.
  intros Ha Hs. rewrite flat_map_app. cbn [flat_map]. rewrite app_nil_r.
  exact (spans_app _ _ _ _ _ Ha Hs).
Qed.

Lemma stmt_spans n :
  (forall i, wp anything (parse_scope _tokens n) i
      (fun r j => match r with
                  | Some sc =>
                      Unparse.spans _tokens i (Unparse.unparse_scope sc) j
                  | None => j = i
                  end)) /\
  (forall stmts i0 i,
      Unparse.spans _tokens i0 (flat_map Unparse.unparse_stmt stmts) i ->
      wp anything (parse_scope_loop _tokens n stmts) i
         (fun stmts' j =>
            Unparse.spans _tokens i0
              (flat_map Unparse.unparse_stmt stmts') j)) /\
  (forall i, wp anything (parse_if_pred _tokens n) i
      (fun r j => match r with
                  | Some p =>
                      Unparse.spans _tokens i (Unparse.unparse_pred p) j
                  | None => j = i
                  end)) /\
  (forall i, wp anything (parse_stmt _tokens n) i
      (fun r j => match r with
                  | Some s =>
                      Unparse.spans _tokens i (Unparse.unparse_stmt s) j
                  | None => j = i
                  end)).
Proof.
  induction n as [|n [IHs [IHl [IHp IHst]]]].
  - repeat split; intros; exact I.
  - pose proof (expr_spans n) as [_ [IHe _]].
    repeat split; intros.
    + cbn [parse_scope].
      repeat first
        [ wp_prim
        | eapply wp_weaken;
          [eapply (IHl [] (S i)); apply Unparse.spans_nil
          |cbv beta; intros ? ? ?|trivial..] ];
        spans_fin.
    + cbn [parse_scope_loop].
      repeat first
        [ wp_prim | spans_call IHst
        | eapply wp_weaken;
          [eapply IHl; eapply spans_push; eassumption
          |cbv beta; intros ? ? ?|trivial..] ];
        spans_fin.
    + cbn [parse_if_pred].
      repeat first
        [ wp_prim | spans_call IHe | spans_call IHs | spans_call IHp ];
        spans_fin.
    + cbn [parse_stmt].
      repeat first
        [ wp_prim | spans_call IHe | spans_call IHs | spans_call IHp ];
        spans_fin.
Qed.

Lemma prog_spans n stmts i :
  Unparse.spans _tokens 0 (flat_map Unparse.unparse_stmt stmts) i ->
  wp anything (parse_prog_loop _tokens n stmts) i
     (fun prog j =>
        Unparse.spans _tokens 0 (Unparse.unparse_prog prog) j /\
        nth_error _tokens j = None).
Proof.
  revert stmts i. induction n as [|n IH]; intros stmts i Hs; [exact I|].
  pose proof (stmt_spans n) as [_ [_ [_ IHst]]].
  cbn [parse_prog_loop].
  repeat first
    [ wp_prim | spans_call IHst
    | eapply wp_weaken;
      [eapply IH; eapply spans_push; eassumption
      |cbv beta; intros ? ? ?|trivial..] ];
    try (split; [exact Hs|assumption]); spans_fin.
Qed.

Lemma spans_all ks j :
  Unparse.spans _tokens 0 ks j -> nth_error _tokens j = None ->
  j = len /\ map Unparse.key _tokens = ks.
Proof.
  intros Hs Hend. assert (Hj : j = len).
  { apply nth_error_None in Hend.
    assert (forall i ks j, Unparse.spans _tokens i ks j -> i <= len -> j <= len)
      as Hle.
    { clear. induction 1 as [i|i tok ks j Htok _ IH]; intros Hi; [exact Hi|].
      apply IH. apply Nat.le_succ_l. apply nth_error_Some. congruence. }
    specialize (Hle _ _ _ Hs ltac:(lia)). lia. }
  split; [exact Hj|]. subst j.
  destruct (spans_slice _ _ _ Hs) as [_ <-]. unfold Unparse.slice.
  now rewrite Nat.sub_0_r, skipn_O, firstn_all.
Qed.

(** *** What a term and a statement start with *)

Lemma wp_has_kind X t (k : nat) i (Q : bool -> nat -> Prop) :
  Q (has_kind _tokens (i + k) t) i ->
  wp X (peek_type _tokens t (Z.of_nat k)) i Q.
Proof.
  intros H. unfold peek_type. apply wp_bind, wp_peek, wp_ret.
  rewrite peek_at_nat. exact H.
Qed.

Lemma wp_try_consume_kind X t i (Q : option Token -> nat -> Prop) :
  (forall tok, nth_error _tokens i = Some tok -> has_kind _tokens i t = true ->
               Q (Some tok) (S i)) ->
  (has_kind _tokens i t = false -> Q None i) ->
  wp X (try_consume _tokens t) i Q.
Proof.
  intros Hs Hn. unfold try_consume. apply wp_bind.
  apply (wp_has_kind X t 0). rewrite Nat.add_0_r.
  destruct (has_kind _tokens i t) eqn:E; [|now apply wp_ret, Hn].
  pose proof E as E'. unfold has_kind in E'. unfold wp, bind, consume, ret.
  destruct (nth_error _tokens i) as [tok|]; [|discriminate E'].
  now apply Hs.
Qed.

Lemma has_kind_end i t : nth_error _tokens i = None -> has_kind _tokens i t = false.
Proof. unfold has_kind. now intros ->. Qed.

(** The tests of the dispatch, with their outcomes kept. *)
Ltac kind_prim :=
  match goal with
  | |- wp _ (bind _ _) _ _ => apply wp_bind
  | |- wp _ (ret _) _ _ => apply wp_ret
  | |- wp _ (peek _ 0) _ _ => apply wp_peek0
  | |- wp _ (try_consume _ _) _ _ =>
      apply wp_try_consume_kind; [intros ? ? ?|intros ?]
  | |- wp _ (peek_type _ _ 0) _ _ => apply (wp_has_kind _ _ 0)
  | |- wp _ (peek_type _ _ 1) _ _ => apply (wp_has_kind _ _ 1)
  | |- wp _ (peek_type _ _ 2) _ _ => apply (wp_has_kind _ _ 2)
  | |- wp _ (and_then _ _) _ _ => apply wp_and_then
  | |- (if true then _ else _) => cbv iota
  | |- (if false then _ else _) => cbv iota
  | |- wp _ (match ?x with _ => _ end) _ _ => destruct x eqn:?
  | |- wp _ (if ?b then _ else _) _ _ => destruct b eqn:?
  | |- (if ?b then _ else _) => destruct b eqn:?
  end.

Ltac kinds_known :=
  rewrite ?Nat.add_0_r in *;
  unfold starts_term, starts_stmt in *;
  repeat match goal with
    | H : nth_error _ ?i = None |- _ =>
        repeat rewrite (has_kind_end i _ H) in *; clear H
    | H : has_kind _ _ _ = _ |- _ => try rewrite !H in *; clear H
    end;
  cbn [orb andb] in *.

Ltac kinds_clash := exfalso; kinds_known; discriminate.

(** A call whose result the dispatch does not depend on. *)
Ltac any_call :=
  match goal with
  | |- wp anything (parse_expr _ _ _) _ _ => idtac
  | |- wp anything (parse_scope _ _) _ _ => idtac
  | |- wp anything (parse_if_pred _ _) _ _ => idtac
  | |- wp anything (parse_term _ _) _ _ => idtac
  | |- wp anything (parse_expr_loop _ _ _ _) _ _ => idtac
  end;
  eapply wp_weaken; [apply wp_anything|cbv beta; intros ? ? _|trivial..].

Ltac any_exit :=
  match goal with
  | |- wp anything (exit_with _ _ _) _ _ => apply wp_exit_with; intros; exact I
  | |- wp anything (try_consume_err _ _) _ _ =>
      apply wp_try_consume_err; [intros ? ? ? ?|intros; exact I..]
  | |- wp anything (consume _) _ _ =>
      apply wp_consume; [intros ? ? ?|intros; exact I]
  end.

Lemma term_absent n i :
  wp anything (parse_term _tokens n) i
     (fun r j => r = None -> starts_term _tokens i = false).
Proof.
  destruct n as [|n]; [exact I|]. cbn [parse_term].
  repeat first [ any_call | any_exit | kind_prim ]; try discriminate.
  intros _. kinds_known. reflexivity.
Qed.

Lemma term_none n i :
  starts_term _tokens i = false ->
  wp only_returns (parse_term _tokens (S n)) i (fun r j => r = None /\ j = i).
Proof.
  intros H. cbn [parse_term].
  repeat first [ kinds_clash | kind_prim ]. now split.
Qed.

Lemma expr_absent n min_prec i :
  wp anything (parse_expr _tokens n min_prec) i
     (fun r j => r = None -> starts_term _tokens i = false).
Proof.
  destruct n as [|n]; [exact I|]. cbn [parse_expr].
  apply wp_bind. eapply wp_weaken; [apply term_absent|cbv beta|trivial..].
  intros [t|] j H; [|apply wp_ret; intros _; exact (H eq_refl)].
  repeat first [ any_call | kind_prim ]. discriminate.
Qed.

Lemma expr_none n min_prec i :
  starts_term _tokens i = false ->
  wp only_returns (parse_expr _tokens (S (S n)) min_prec) i
     (fun r j => r = None /\ j = i).
Proof.
  intros H. cbn [parse_expr].
  apply wp_bind. eapply wp_weaken; [apply (term_none n i H)|cbv beta|trivial..].
  intros r j [-> ->]. now apply wp_ret.
Qed.

Lemma stmt_absent n i :
  wp anything (parse_stmt _tokens n) i
     (fun r j => r = None -> starts_stmt _tokens i = false).
Proof.
  destruct n as [|n]; [exact I|]. cbn [parse_stmt].
  repeat first [ any_call | any_exit | kind_prim ]; try discriminate;
    intros _; kinds_known; reflexivity.
Qed.

Lemma stmt_none n i :
  starts_stmt _tokens i = false ->
  wp only_returns (parse_stmt _tokens (S n)) i (fun r j => r = None /\ j = i).
Proof.
  intros H. cbn [parse_stmt].
  repeat first [ kinds_clash | kind_prim ]; now split.
Qed.

Lemma wp_exits {A} (m : M A) i msg :
  wp (exits msg) m i (fun _ _ => False) -> m i = Exit msg.
Proof.
  unfold wp. destruct (m i) as [a j|err| |]; try contradiction.
  cbn [on_exit exits]. now intros ->.
Qed.

Lemma error_line_here i tok :
  nth_error _tokens i = Some tok -> error_line _tokens i = Some (line tok).
Proof. unfold error_line. rewrite peek_at_0. now intros ->. Qed.

Lemma error_line_next i tok0 :
  nth_error _tokens i = Some tok0 ->
  exists tok,
    (nth_error _tokens (S i) = Some tok \/
     nth_error _tokens (S i) = None /\ nth_error _tokens i = Some tok) /\
    error_line _tokens (S i) = Some (line tok).
Proof.
  intros H. unfold error_line. rewrite peek_at_0, peek_at_back, H.
  destruct (nth_error _tokens (S i)) as [tok|] eqn:E.
  - exists tok. split; [now left|reflexivity].
  - exists tok0. split; [right; now split|reflexivity].
Qed.

(** A call that returns "absent" without moving, inside a run that exits. *)
Ltac absent_call L :=
  eapply wp_weaken;
  [ apply L; assumption
  | cbv beta; intros ? ? [-> ->]
  | intros ? []
  | intros []
  | intros [] ].

Ltac exits_prim :=
  match goal with
  | |- wp _ (consume _) _ _ =>
      apply wp_consume;
      [ intros ? ? ?
      | let H := fresh in intros H; apply nth_error_None in H ]
  | |- wp (exits _) (exit_with _ _ _) _ _ =>
      apply wp_exit_with; cbn [on_exit on_crash exits]; intros; congruence
  end.

Lemma return_without_value n i l :
  has_kind _tokens i RETURN = true ->
  starts_term _tokens (S i) = false ->
  error_line _tokens (S i) = Some l ->
  wp (exits (parse_error missing "return value" l))
     (parse_stmt _tokens (S (S (S n)))) i (fun _ _ => False).
Proof.
  intros Hret Hstart Hline. cbn [parse_stmt].
  repeat first
    [ kinds_clash | exits_prim | absent_call (expr_none n 0%Z) | kind_prim ].
Qed.

Lemma operator_without_operand n min_prec e i op prec l :
  nth_error _tokens i = Some op ->
  bin_prec (type op) = Some prec ->
  (min_prec <= prec)%Z ->
  starts_term _tokens (S i) = false ->
  error_line _tokens (S i) = Some l ->
  wp (exits (parse_error missing "expression" l))
     (parse_expr_loop _tokens (S (S (S n))) min_prec e) i (fun _ _ => False).
Proof.
  intros Hop Hprec Hle Hstart Hline. cbn [parse_expr_loop].
  apply wp_bind, wp_peek0. rewrite Hop, Hprec.
  destruct (Z.ltb_spec prec min_prec); [lia|].
  apply wp_bind, wp_consume; [intros tok Etok _|intros Hlen].
  2:{ apply nth_error_None in Hlen. congruence. }
  apply wp_bind. absent_call (expr_none n (prec + 1)%Z).
  exits_prim.
Qed.

Lemma statement_missing n stmts i tok :
  nth_error _tokens i = Some tok ->
  starts_stmt _tokens i = false ->
  wp (exits (parse_error missing "statement" (line tok)))
     (parse_prog_loop _tokens (S (S n)) stmts) i (fun _ _ => False).
Proof.
  intros Htok Hstart. cbn [parse_prog_loop].
  apply wp_bind, wp_peek0. rewrite Htok.
  apply wp_bind. absent_call (stmt_none n).
  pose proof (error_line_here _ _ Htok). exits_prim.
Qed.

Lemma wp_only_returns {A} (m : M A) i (Q : A -> nat -> Prop) :
  wp only_returns m i Q -> exists a j, m i = Ret a j /\ Q a j.
Proof.
  unfold wp. destruct (m i) as [a j|err| |]; try contradiction.
  intros H. now exists a, j.
Qed.

(** *** The diagnostics *)

Lemma error_line_In i l :
  error_line _tokens i = Some l ->
  exists tok, In tok _tokens /\ line tok = l.
Proof.
  unfold error_line, peek_at.
  destruct (Z.of_nat i + 0 <? 0)%Z.
  - destruct (Z.of_nat i + -1 <? 0)%Z; [discriminate|].
    destruct (nth_error _tokens (Z.to_nat (Z.of_nat i + -1))) as [tok|] eqn:E;
      [|discriminate].
    intros [= <-]. exists tok. split; [exact (nth_error_In _ _ E)|reflexivity].
  - destruct (nth_error _tokens (Z.to_nat (Z.of_nat i + 0))) as [tok|] eqn:E.
    + intros [= <-]. exists tok. split; [exact (nth_error_In _ _ E)|reflexivity].
    + destruct (Z.of_nat i + -1 <? 0)%Z; [discriminate|].
      destruct (nth_error _tokens (Z.to_nat (Z.of_nat i + -1))) as [tok|] eqn:E';
        [|discriminate].
      intros [= <-]. exists tok.
      split; [exact (nth_error_In _ _ E')|reflexivity].
Qed.

Ltac reported_fin :=
  try exact I;
  cbn [on_exit on_crash on_oof reported];
  try match goal with
    | H : error_line _ _ = Some ?l |- _ \/ is_type_error (parse_error missing _ ?l) =>
        let tok := fresh "tok" in
        let Hin := fresh "Hin" in
        left; destruct (error_line_In _ _ H) as [tok [Hin <-]];
        refine (ex_intro _ _ (ex_intro _ tok (conj _ (conj Hin eq_refl))));
        cbn [TokenType_to_string];
        repeat first [ left; reflexivity | right ]
    | |- _ \/ is_type_error (parse_error "wrong operation :" ?msg ?l) =>
        right; exists msg, l; reflexivity
    end.

Lemma expr_reported n :
  (forall i, wp (reported _tokens) (parse_term _tokens n) i (fun _ _ => True)) /\
  (forall min_prec i,
      wp (reported _tokens) (parse_expr _tokens n min_prec) i (fun _ _ => True)) /\
  (forall min_prec e i,
      wp (reported _tokens) (parse_expr_loop _tokens n min_prec e) i
         (fun _ _ => True)).
Proof.
  induction n as [|n [IHt [IHe IHl]]].
  - repeat split; intros; exact I.
  - repeat split; intros.
    + cbn [parse_term].
      repeat first [ wp_prim | spans_call IHe ]; reported_fin.
    + cbn [parse_expr].
      repeat first [ wp_prim | spans_call IHt | spans_call IHl ]; reported_fin.
    + cbn [parse_expr_loop].
      repeat first [ wp_prim | spans_call IHe | spans_call IHl ]; reported_fin.
Qed.

Lemma stmt_reported n :
  (forall i, wp (reported _tokens) (parse_scope _tokens n) i (fun _ _ => True)) /\
  (forall stmts i,
      wp (reported _tokens) (parse_scope_loop _tokens n stmts) i
         (fun _ _ => True)) /\
  (forall i,
      wp (reported _tokens) (parse_if_pred _tokens n) i (fun _ _ => True)) /\
  (forall i, wp (reported _tokens) (parse_stmt _tokens n) i (fun _ _ => True)).
Proof.
  induction n as [|n [IHsc [IHsl [IHp IHst]]]].
  - repeat split; intros; exact I.
  - pose proof (expr_reported n) as [_ [IHe _]].
    repeat split; intros.
    + cbn [parse_scope].
      repeat first [ wp_prim | spans_call IHsl ]; reported_fin.
    + cbn [parse_scope_loop].
      repeat first [ wp_prim | spans_call IHst | spans_call IHsl ];
        reported_fin.
    + cbn [parse_if_pred].
      repeat first
        [ wp_prim | spans_call IHe | spans_call IHsc | spans_call IHp ];
        reported_fin.
    + cbn [parse_stmt].
      repeat first
        [ wp_prim | spans_call IHe | spans_call IHsc | spans_call IHp ];
        reported_fin.
Qed.

Lemma prog_reported n stmts i :
  wp (reported _tokens) (parse_prog_loop _tokens n stmts) i (fun _ _ => True).
Proof.
  revert stmts i. induction n as [|n IH]; intros; [exact I|].
  pose proof (stmt_reported n) as [_ [_ [_ IHst]]].
  cbn [parse_prog_loop].
  repeat first [ wp_prim | spans_call IHst | spans_call IH ]; reported_fin.
Qed.

(** An exit that is reported and is no type error is a diagnostic. *)
Lemma wp_diagnosed {A} (m : M A) i (Q Q' : A -> nat -> Prop) err :
  wp (reported _tokens) m i Q -> wp no_type_error m i Q' ->
  m i = Exit err -> is_diagnostic _tokens err.
Proof.
  unfold wp. intros Hr Hn E. rewrite E in Hr, Hn.
  destruct Hr as [Hd|Ht]; [exact Hd|]. contradiction (Hn Ht).
Qed.

(** *** What the parser builds *)

Lemma built_folded expr op rside prec b :
  bin_prec (type op) = Some prec ->
  bin_node (type op) (Node.mkExpr (Node.Expr_var expr) NONE) rside = Some b ->
  Grammar.built_expr expr = true ->
  Grammar.built_expr rside = true ->
  Grammar.built_expr (folded expr b) = true.
Proof.
  destruct expr as [v ty]. unfold bin_node, folded. cbn [Node.Expr_var].
  intros Hp Hb Hl Hr.
  destruct (type op); try discriminate Hp; injection Hb as <-;
    cbn [Grammar.built_expr Grammar.built_var Grammar.built_bin Node.Expr_type] in *;
    now rewrite Hl, Hr.
Qed.

Ltac built_fin :=
  same_tokens; cbv beta iota in *;
  repeat match goal with
    | H : _ /\ _ |- _ => destruct H
    | H : match ?a with Some _ => _ | None => _ end |- _ => destruct a
    end;
  cbn [Grammar.built_term Grammar.built_term_var Grammar.built_expr
       Grammar.built_var Grammar.built_stmt Grammar.built_scope
       Grammar.built_pred Grammar.built_top Node.Term_type Node.Expr_type
       to_variable_type];
  try exact I;
  repeat match goal with
    | H : type ?tok = _ |- context [type ?tok] => rewrite H
    | H : ?a = true |- context [?a] => rewrite H
    end;
  cbn [TokenType_eqb andb];
  rewrite ?Z.eqb_refl; try reflexivity; try eassumption.

Lemma expr_built n :
  (forall i, wp anything (parse_term _tokens n) i
      (fun r j => match r with
                  | Some t => Grammar.built_term t = true
                  | None => True
                  end)) /\
  (forall min_prec i, wp anything (parse_expr _tokens n min_prec) i
      (fun r j => match r with
                  | Some e => Grammar.built_expr e = true
                  | None => True
                  end)) /\
  (forall min_prec e i,
      Grammar.built_expr e = true ->
      wp anything (parse_expr_loop _tokens n min_prec e) i
         (fun e' j => Grammar.built_expr e' = true)).
Proof.
  induction n as [|n [IHt [IHe IHl]]].
  - repeat split; intros; exact I.
  - pose proof (expr_climbed n) as [_ [Hc _]].
    repeat split; intros.
    + cbn [parse_term].
      repeat first
        [ wp_prim
        | eapply wp_weaken;
          [apply (wp_both _ _ _ _ (IHe 0%Z (S i)) (Hc 0%Z (S i)))
          |cbv beta; intros ? ? ?|trivial..] ];
        built_fin.
    + cbn [parse_expr].
      repeat first
        [ wp_prim | spans_call IHt
        | eapply wp_weaken;
          [eapply IHl; built_fin|cbv beta; intros ? ? ?|trivial..] ];
        built_fin.
    + cbn [parse_expr_loop].
      repeat first
        [ wp_prim | spans_call IHe
        | eapply wp_weaken;
          [eapply IHl; same_tokens; cbv beta iota in *;
           eapply built_folded; eassumption
          |cbv beta; intros ? ? ?|trivial..] ];
        built_fin.
Qed.

Lemma top_built n i :
  wp anything (parse_expr _tokens n 0%Z) i
     (fun r j => match r with
                 | Some e => Grammar.built_top e = true
                 | None => True
                 end).
Proof.
  eapply wp_weaken;
    [ apply (wp_both _ _ _ _ (proj1 (proj2 (expr_built n)) 0%Z i)
               (proj1 (proj2 (expr_climbed n)) 0%Z i))
    | cbv beta | trivial.. ].
  intros [e|] j [Hb Hc]; [|exact I].
  unfold Grammar.built_top. now rewrite Hb, Hc.
Qed.

Lemma stmt_built n :
  (forall i, wp anything (parse_scope _tokens n) i
      (fun r j => match r with
                  | Some sc => Grammar.built_scope sc = true
                  | None => True
                  end)) /\
  (forall stmts i,
      forallb Grammar.built_stmt stmts = true ->
      wp anything (parse_scope_loop _tokens n stmts) i
         (fun stmts' j => forallb Grammar.built_stmt stmts' = true)) /\
  (forall i, wp anything (parse_if_pred _tokens n) i
      (fun r j => match r with
                  | Some p => Grammar.built_pred p = true
                  | None => True
                  end)) /\
  (forall i, wp anything (parse_stmt _tokens n) i
      (fun r j => match r with
                  | Some s => Grammar.built_stmt s = true
                  | None => True
                  end)).
Proof.
  induction n as [|n [IHs [IHl [IHp IHst]]]].
  - repeat split; intros; exact I.
  - pose proof (top_built n) as IHe.
    repeat split; intros.
    + cbn [parse_scope].
      repeat first
        [ wp_prim
        | eapply wp_weaken;
          [eapply (IHl [] (S i)); reflexivity
          |cbv beta; intros ? ? ?|trivial..] ];
        built_fin.
    + cbn [parse_scope_loop].
      repeat first
        [ wp_prim | spans_call IHst
        | eapply wp_weaken;
          [eapply IHl; rewrite forallb_app; cbn [forallb]; built_fin
          |cbv beta; intros ? ? ?|trivial..] ];
        built_fin.
    + cbn [parse_if_pred].
      repeat first
        [ wp_prim | spans_call IHe | spans_call IHs | spans_call IHp ];
        built_fin.
    + cbn [parse_stmt].
      repeat first
        [ wp_prim | spans_call IHe | spans_call IHs | spans_call IHp ];
        built_fin.
Qed.

Lemma prog_built n stmts i :
  forallb Grammar.built_stmt stmts = true ->
  wp anything (parse_prog_loop _tokens n stmts) i
     (fun prog j => Grammar.built_prog prog = true).
Proof.
  revert stmts i. induction n as [|n IH]; intros stmts i Hs; [exact I|].
  pose proof (stmt_built n) as [_ [_ [_ IHst]]].
  cbn [parse_prog_loop].
  repeat first
    [ wp_prim | spans_call IHst
    | eapply wp_weaken;
      [eapply IH; rewrite forallb_app; cbn [forallb]; built_fin
      |cbv beta; intros ? ? ?|trivial..] ];
    built_fin.
Qed.

(** *** Parsing what was written: fuel *)

Abbreviation full := (3 * len + 3).

Lemma canon {A} (f : nat -> M A) i a j n0 n :
  (forall x y, x <= y -> refines (f x) (f y)) ->
  f n i <> OutOfFuel -> f n0 i = Ret a j -> f n i = Ret a j.
Proof.
  intros Hmono Hn E. destruct (Nat.le_ge_cases n0 n) as [Hle|Hge].
  - exact (refines_ret _ _ _ _ _ (Hmono _ _ Hle) E).
  - destruct (Hmono _ _ Hge i) as [E'|E']; [contradiction|]. congruence.
Qed.

Lemma not_out_of_fuel {A} need n (m : M A) i (Q : A -> nat -> Prop) :
  wp (total n need) m i Q -> need <= n -> m i <> OutOfFuel.
Proof.
  intros Hwp Hn E. unfold wp in Hwp. rewrite E in Hwp. simpl in Hwp. lia.
Qed.

Lemma term_full n0 i a j :
  parse_term _tokens n0 i = Ret a j -> parse_term _tokens full i = Ret a j.
Proof.
  apply (canon (parse_term _tokens)).
  - intros x y Hle. exact (proj1 (expr_fuel_mono x y Hle)).
  - apply (not_out_of_fuel _ _ _ _ _ (proj1 (expr_progress full) i)). lia.
Qed.

Lemma expr_full n0 min_prec i a j :
  parse_expr _tokens n0 min_prec i = Ret a j ->
  parse_expr _tokens full min_prec i = Ret a j.
Proof.
  apply (canon (fun n => parse_expr _tokens n min_prec)).
  - intros x y Hle. exact (proj1 (proj2 (expr_fuel_mono x y Hle)) min_prec).
  - apply (not_out_of_fuel _ _ _ _ _
             (proj1 (proj2 (expr_progress full)) min_prec i)). lia.
Qed.

Lemma loop_full n0 min_prec e i a j :
  parse_expr_loop _tokens n0 min_prec e i = Ret a j ->
  parse_expr_loop _tokens full min_prec e i = Ret a j.
Proof.
  apply (canon (fun n => parse_expr_loop _tokens n min_prec e)).
  - intros x y Hle. exact (proj2 (proj2 (expr_fuel_mono x y Hle)) min_prec e).
  - apply (not_out_of_fuel _ _ _ _ _
             (proj2 (proj2 (expr_progress full)) min_prec e i)). lia.
Qed.

Lemma scope_full n0 i a j :
  parse_scope _tokens n0 i = Ret a j -> parse_scope _tokens full i = Ret a j.
Proof.
  apply (canon (parse_scope _tokens)).
  - intros x y Hle. exact (proj1 (stmt_fuel_mono x y Hle)).
  - apply (not_out_of_fuel _ _ _ _ _ (proj1 (stmt_progress full) i)). lia.
Qed.

Lemma scope_loop_full n0 stmts i a j :
  parse_scope_loop _tokens n0 stmts i = Ret a j ->
  parse_scope_loop _tokens full stmts i = Ret a j.
Proof.
  apply (canon (fun n => parse_scope_loop _tokens n stmts)).
  - intros x y Hle. exact (proj1 (proj2 (stmt_fuel_mono x y Hle)) stmts).
  - apply (not_out_of_fuel _ _ _ _ _
             (proj1 (proj2 (stmt_progress full)) stmts i)). lia.
Qed.

Lemma if_pred_full n0 i a j :
  parse_if_pred _tokens n0 i = Ret a j -> parse_if_pred _tokens full i = Ret a j.
Proof.
  apply (canon (parse_if_pred _tokens)).
  - intros x y Hle. exact (proj1 (proj2 (proj2 (stmt_fuel_mono x y Hle)))).
  - apply (not_out_of_fuel _ _ _ _ _
             (proj1 (proj2 (proj2 (stmt_progress full))) i)). lia.
Qed.

Lemma stmt_full n0 i a j :
  parse_stmt _tokens n0 i = Ret a j -> parse_stmt _tokens full i = Ret a j.
Proof.
  apply (canon (parse_stmt _tokens)).
  - intros x y Hle. exact (proj2 (proj2 (proj2 (stmt_fuel_mono x y Hle)))).
  - apply (not_out_of_fuel _ _ _ _ _
             (proj2 (proj2 (proj2 (stmt_progress full))) i)). lia.
Qed.

Lemma prog_loop_full n0 n stmts i a j :
  full <= n ->
  parse_prog_loop _tokens n0 stmts i = Ret a j ->
  parse_prog_loop _tokens n stmts i = Ret a j.
Proof.
  intros Hn. apply (canon (fun n => parse_prog_loop _tokens n stmts)).
  - intros x y Hle. exact (prog_fuel_mono x y stmts Hle).
  - apply (not_out_of_fuel _ _ _ _ _ (prog_progress n stmts i)). lia.
Qed.

(** *** Parsing what was written: the tokens read *)

Lemma like_type tok w : Grammar.like tok w -> type tok = type w.
Proof.
  unfold Grammar.like. destruct (Unparse.has_text (type w)); [now intros ->|auto].
Qed.

Lemma like_refl w : Grammar.like w w.
Proof. unfold Grammar.like. now destruct (Unparse.has_text (type w)). Qed.

Lemma has_kind_true i t :
  has_kind _tokens i t = true <->
  exists tok, nth_error _tokens i = Some tok /\ type tok = t.
Proof.
  unfold has_kind. split.
  - destruct (nth_error _tokens i) as [tok|]; [|discriminate].
    intros H. apply TokenType_eqb_eq in H. now exists tok.
  - intros [tok [-> <-]]. now apply TokenType_eqb_eq.
Qed.

Lemma reads_cons_inv i w ts j :
  Grammar.reads _tokens i (w :: ts) j ->
  has_kind _tokens i (type w) = true /\ Grammar.reads _tokens (S i) ts j.
Proof.
  intros H. inversion H as [|? tok ? ? ? Htok Hlike Hrest]; subst.
  split; [|exact Hrest].
  apply has_kind_true. exists tok. split; [exact Htok|now apply like_type].
Qed.

Lemma reads_text_inv i w ts j :
  Grammar.reads _tokens i (w :: ts) j ->
  Unparse.has_text (type w) = true ->
  nth_error _tokens i = Some w /\ Grammar.reads _tokens (S i) ts j.
Proof.
  intros H Ht. inversion H as [|? tok ? ? ? Htok Hlike Hrest]; subst.
  unfold Grammar.like in Hlike. rewrite Ht in Hlike. subst tok. now split.
Qed.

Lemma reads_nil_inv i j : Grammar.reads _tokens i [] j -> j = i.
Proof. intros H. now inversion H. Qed.

Lemma reads_app_inv a : forall i b j,
  Grammar.reads _tokens i (a ++ b) j ->
  exists k, Grammar.reads _tokens i a k /\ Grammar.reads _tokens k b j.
Proof.
  induction a as [|w a IH]; intros i b j H.
  - exists i. split; [constructor|exact H].
  - cbn [app] in H. inversion H as [|? tok ? ? ? Htok Hlike Hrest]; subst.
    destruct (IH _ _ _ Hrest) as [k [Ha Hb]].
    exists k. split; [now apply (Grammar.reads_cons _ _ tok)|exact Hb].
Qed.

Lemma reads_app i a j b k :
  Grammar.reads _tokens i a j -> Grammar.reads _tokens j b k ->
  Grammar.reads _tokens i (a ++ b) k.
Proof.
  induction 1 as [i|i tok w ts j Htok Hlike Hs IH]; intros Hb; [exact Hb|].
  cbn [app]. apply (Grammar.reads_cons _ _ tok); [exact Htok|exact Hlike|exact (IH Hb)].
Qed.

Lemma reads_kw i tok l t ts j :
  nth_error _tokens i = Some tok -> type tok = t -> Unparse.has_text t = false ->
  Grammar.reads _tokens (S i) ts j ->
  Grammar.reads _tokens i (Grammar.kwt l t :: ts) j.
Proof.
  intros Htok Hty Ht Hs. apply (Grammar.reads_cons _ _ tok); [exact Htok| |exact Hs].
  unfold Grammar.like. cbn [type Grammar.kwt]. now rewrite Ht.
Qed.

Lemma reads_text i tok ts j :
  nth_error _tokens i = Some tok ->
  Grammar.reads _tokens (S i) ts j ->
  Grammar.reads _tokens i (tok :: ts) j.
Proof.
  intros Htok Hs.
  apply (Grammar.reads_cons _ _ tok); [exact Htok|apply like_refl|exact Hs].
Qed.

Lemma reads_snoc i a j tok l t :
  Grammar.reads _tokens i a j ->
  nth_error _tokens j = Some tok -> type tok = t -> Unparse.has_text t = false ->
  Grammar.reads _tokens i (a ++ [Grammar.kwt l t]) (S j).
Proof.
  intros Ha Htok Hty Ht. apply (reads_app _ _ j); [exact Ha|].
  apply (reads_kw _ tok); auto. apply Grammar.reads_nil.
Qed.

Lemma reads_all ts j :
  Grammar.reads _tokens 0 ts j -> nth_error _tokens j = None ->
  j = len /\ Forall2 Grammar.like _tokens ts.
Proof.
  intros Hs Hend.
  assert (Hgen : forall i ts j,
             Grammar.reads _tokens i ts j -> i <= len ->
             nth_error _tokens j = None ->
             j = len /\ Forall2 Grammar.like (skipn i _tokens) ts).
  { clear. induction 1 as [i|i tok w ts j Htok Hlike _ IH]; intros Hle Hend.
    - apply nth_error_None in Hend.
      assert (i = len) as -> by lia.
      split; [reflexivity|]. rewrite skipn_all. constructor.
    - assert (Hlt : i < len) by (apply nth_error_Some; congruence).
      destruct (IH Hlt Hend) as [Hj Hrest]. split; [exact Hj|].
      assert (Hskip : skipn i _tokens = tok :: skipn (S i) _tokens).
      { clear -Htok. revert i Htok.
        induction _tokens as [|x l IHl]; intros [|i] H; try discriminate H.
        - now inversion H.
        - simpl in H. exact (IHl i H). }
      rewrite Hskip. now constructor. }
  exact (Hgen 0 ts j Hs (Nat.le_0_l _) Hend).
Qed.

Lemma write_folded l expr op rside prec b :
  bin_prec (type op) = Some prec ->
  bin_node (type op) (Node.mkExpr (Node.Expr_var expr) NONE) rside = Some b ->
  Grammar.write_expr l (folded expr b) =
  (Grammar.write_expr l expr
     ++ Grammar.kwt l (type op) :: Grammar.write_expr l rside)%list /\
  Unparse.has_text (type op) = false.
Proof.
  destruct expr as [v ty]. unfold bin_node, folded.
  destruct (type op); intros Hp H; try discriminate Hp;
    inversion H; split; reflexivity.
Qed.

Ltac reads_fin :=
  same_tokens; cbv beta iota in *;
  cbn [Grammar.write_term Grammar.write_term_var Grammar.write_expr
       Grammar.write_expr_var Grammar.write_stmt Grammar.write_scope
       Grammar.write_pred app];
  repeat match goal with
    | H : match ?a with Some _ => _ | None => _ end |- _ => destruct a
    end;
  try exact I; try reflexivity; subst;
  repeat first
    [ apply Grammar.reads_nil
    | eassumption
    | eapply reads_kw; [eassumption|eassumption|reflexivity|]
    | eapply reads_text; [eassumption|]
    | eapply reads_app; [eassumption|]
    | eapply reads_snoc; [|eassumption|eassumption|reflexivity] ].

Ltac reads_folded l :=
  match goal with
  | Hp : bin_prec (type ?op) = Some _,
    Hb : bin_node (type ?op) _ _ = Some _ |- _ =>
      let Hu := fresh "Hu" in
      let Ht := fresh "Ht" in
      destruct (write_folded l _ _ _ _ _ Hp Hb) as [Hu Ht]; rewrite Hu;
      eapply reads_app; [eassumption|];
      eapply reads_kw; [eassumption|reflexivity|exact Ht|eassumption]
  end.

Lemma expr_reads l n :
  (forall i, wp anything (parse_term _tokens n) i
      (fun r j => match r with
                  | Some t => Grammar.reads _tokens i (Grammar.write_term l t) j
                  | None => True
                  end)) /\
  (forall min_prec i, wp anything (parse_expr _tokens n min_prec) i
      (fun r j => match r with
                  | Some e => Grammar.reads _tokens i (Grammar.write_expr l e) j
                  | None => True
                  end)) /\
  (forall min_prec e i0 i,
      Grammar.reads _tokens i0 (Grammar.write_expr l e) i ->
      wp anything (parse_expr_loop _tokens n min_prec e) i
         (fun e' j => Grammar.reads _tokens i0 (Grammar.write_expr l e') j)).
Proof.
  induction n as [|n [IHt [IHe IHl]]].
  - repeat split; intros; exact I.
  - repeat split; intros.
    + cbn [parse_term].
      repeat first [ wp_prim | spans_call IHe ]; reads_fin.
    + cbn [parse_expr].
      repeat first
        [ wp_prim | spans_call IHt
        | eapply wp_weaken;
          [eapply IHl; reads_fin|cbv beta; intros ? ? ?|trivial..] ];
        reads_fin.
    + cbn [parse_expr_loop].
      repeat first
        [ wp_prim | spans_call IHe
        | eapply wp_weaken;
          [eapply IHl; reads_fin; reads_folded l
          |cbv beta; intros ? ? ?|trivial..] ];
        reads_fin.
Qed.

Lemma reads_push l i0 stmts i s j :
  Grammar.reads _tokens i0 (flat_map (Grammar.write_stmt l) stmts) i ->
  Grammar.reads _tokens i (Grammar.write_stmt l s) j ->
  Grammar.reads _tokens i0
    (flat_map (Grammar.write_stmt l) (stmts ++ [s])) j.
Proof.
  intros Ha Hs. rewrite flat_map_app. cbn [flat_map]. rewrite app_nil_r.
  exact (reads_app _ _ _ _ _ Ha Hs).
Qed.

Lemma stmt_reads l n :
  (forall i, wp anything (parse_scope _tokens n) i
      (fun r j => match r with
                  | Some sc =>
                      Grammar.reads _tokens i (Grammar.write_scope l sc) j
                  | None => j = i
                  end)) /\
  (forall stmts i0 i,
      Grammar.reads _tokens i0 (flat_map (Grammar.write_stmt l) stmts) i ->
      wp anything (parse_scope_loop _tokens n stmts) i
         (fun stmts' j =>
            Grammar.reads _tokens i0
              (flat_map (Grammar.write_stmt l) stmts') j)) /\
  (forall i, wp anything (parse_if_pred _tokens n) i
      (fun r j => match r with
                  | Some p =>
                      Grammar.reads _tokens i (Grammar.write_pred l p) j
                  | None => j = i
                  end)) /\
  (forall i, wp anything (parse_stmt _tokens n) i
      (fun r j => match r with
                  | Some s =>
                      Grammar.reads _tokens i (Grammar.write_stmt l s) j
                  | None => j = i
                  end)).
Proof.
  induction n as [|n [IHs [IHl [IHp IHst]]]].
  - repeat split; intros; exact I.
  - pose proof (expr_reads l n) as [_ [IHe _]].
    repeat split; intros.
    + cbn [parse_scope].
      repeat first
        [ wp_prim
        | eapply wp_weaken;
          [eapply (IHl [] (S i)); apply Grammar.reads_nil
          |cbv beta; intros ? ? ?|trivial..] ];
        reads_fin.
    + cbn [parse_scope_loop].
      repeat first
        [ wp_prim | spans_call IHst
        | eapply wp_weaken;
          [eapply IHl; eapply reads_push; eassumption
          |cbv beta; intros ? ? ?|trivial..] ];
        reads_fin.
    + cbn [parse_if_pred].
      repeat first
        [ wp_prim | spans_call IHe | spans_call IHs | spans_call IHp ];
        reads_fin.
    + cbn [parse_stmt].
      repeat first
        [ wp_prim | spans_call IHe | spans_call IHs | spans_call IHp ];
        reads_fin.
Qed.

Lemma prog_reads l n stmts i :
  Grammar.reads _tokens 0 (flat_map (Grammar.write_stmt l) stmts) i ->
  wp anything (parse_prog_loop _tokens n stmts) i
     (fun prog j =>
        Grammar.reads _tokens 0 (Grammar.write_prog l prog) j /\
        nth_error _tokens j = None).
Proof.
  revert stmts i. induction n as [|n IH]; intros stmts i Hs; [exact I|].
  pose proof (stmt_reads l n) as [_ [_ [_ IHst]]].
  cbn [parse_prog_loop].
  repeat first
    [ wp_prim | spans_call IHst
    | eapply wp_weaken;
      [eapply IH; eapply reads_push; eassumption
      |cbv beta; intros ? ? ?|trivial..] ];
    try (split; [exact Hs|assumption]); reads_fin.
Qed.

Lemma wp_of_eq {A} X (m : M A) i a j (Q : A -> nat -> Prop) :
  m i = Ret a j -> Q a j -> wp X m i Q.
Proof. unfold wp. now intros ->. Qed.

Lemma run_eq {A} (m : M A) i a j :
  wp only_returns m i (fun r j' => r = a /\ j' = j) -> m i = Ret a j.
Proof.
  intros H. destruct (wp_only_returns _ _ _ H) as [r [j' [E [-> ->]]]]. exact E.
Qed.

Lemma wp_try_consume_err_kind X t i (Q : Token -> nat -> Prop) :
  (forall tok, nth_error _tokens i = Some tok -> has_kind _tokens i t = true ->
               Q tok (S i)) ->
  (has_kind _tokens i t = false ->
   wp X (exit_with _tokens (TokenType_to_string t) missing) i Q) ->
  wp X (try_consume_err _tokens t) i Q.
Proof.
  intros Hs Hn. unfold try_consume_err. apply wp_bind.
  apply (wp_has_kind X t 0). rewrite Nat.add_0_r.
  destruct (has_kind _tokens i t) eqn:E; [|now apply Hn].
  pose proof E as E'. unfold has_kind in E'. unfold wp, consume.
  destruct (nth_error _tokens i) as [tok|]; [|discriminate E'].
  now apply Hs.
Qed.

(** The kind of a token that is known decides the tests on it. *)
Ltac kinds_decide :=
  repeat match goal with
    | H : Some ?a = Some _ |- _ => injection H as H; try subst a
    | H : None = Some _ |- _ => discriminate H
    end;
  same_tokens;
  repeat match goal with
    | E : has_kind _ ?k _ = _, H : nth_error _ ?k = Some ?tok |- _ =>
        unfold has_kind in E; rewrite H in E; cbn [type Grammar.kwt] in E;
        try match goal with Ht : type tok = _ |- _ => rewrite Ht in E end;
        cbn [TokenType_eqb] in E;
        first [ discriminate E
              | match type of E with ?x = ?x => clear E end
              | idtac ]
    end.

Ltac run_prim :=
  match goal with
  | E : ?m ?i = Ret _ _ |- wp _ ?m ?i _ => apply (wp_of_eq _ _ _ _ _ _ E)
  | |- wp _ (consume _) _ _ =>
      apply wp_consume;
      [ intros ? ? ?
      | let H := fresh in intros H; apply nth_error_None in H; congruence ]
  | |- wp _ (try_consume_err _ _) _ _ =>
      apply wp_try_consume_err_kind; [intros ? ? ?|intros ?]
  | _ => kind_prim
  end.

Ltac run := repeat (run_prim; try solve [exfalso; kinds_decide]; kinds_decide).

Ltac run_fin :=
  same_tokens; subst;
  repeat match goal with
    | H : TokenType_eqb _ _ = true |- _ => apply TokenType_eqb_eq in H
    | H : (_ =? _)%Z = true |- _ => apply Z.eqb_eq in H
    end;
  subst;
  repeat match goal with
    | H : type ?tok = _ |- context [type ?tok] => rewrite H
    end;
  cbn [to_variable_type];
  try (split; reflexivity).

(** What is known of a position: its token, and the kind of the token. *)
Ltac known_kinds :=
  repeat match goal with
    | H : has_kind _ _ _ = true |- _ =>
        let tok := fresh "tok" in
        let Hty := fresh "Hty" in
        apply has_kind_true in H as [tok [H Hty]]
    end.

Lemma written_integer_literal i tok ty :
  Grammar.built_term_var (Node.TermIntegerLiteral tok) ty = true ->
  nth_error _tokens i = Some tok ->
  parse_term _tokens 1 i
  = Ret (Some (Node.mkTerm (Node.TermIntegerLiteral tok) ty)) (S i).
Proof.
  cbn [Grammar.built_term_var]. intros Hb Htok.
  apply andb_prop in Hb as [Hk Hty]. apply TokenType_eqb_eq in Hk.
  apply run_eq. cbn [parse_term]. run. run_fin.
Qed.

Lemma written_identifier i tok ty :
  Grammar.built_term_var (Node.TermIdentifier tok) ty = true ->
  nth_error _tokens i = Some tok ->
  parse_term _tokens 1 i
  = Ret (Some (Node.mkTerm (Node.TermIdentifier tok) ty)) (S i).
Proof.
  cbn [Grammar.built_term_var]. intros Hb Htok.
  apply andb_prop in Hb as [Hk Hty]. apply TokenType_eqb_eq in Hk.
  apply run_eq. cbn [parse_term]. run. run_fin.
Qed.

Lemma written_paren n i e j ty :
  (ty =? Node.Expr_type e)%Z = true ->
  has_kind _tokens i LEFT_PARENTHESIS = true ->
  parse_expr _tokens n 0%Z (S i) = Ret (Some e) j ->
  has_kind _tokens j RIGHT_PARENTHESIS = true ->
  parse_term _tokens (S n) i
  = Ret (Some (Node.mkTerm (Node.TermParen e) ty)) (S j).
Proof.
  intros Hty Hopen He Hclose. known_kinds.
  apply run_eq. cbn [parse_term]. run. run_fin.
Qed.

(** *** Parsing what was written: expressions *)

Lemma written_operator n lo acc i op prec r j b e' j' :
  nth_error _tokens i = Some op ->
  bin_prec (type op) = Some prec ->
  (lo <= prec)%Z ->
  parse_expr _tokens n (prec + 1)%Z (S i) = Ret (Some r) j ->
  type_mismatch (Node.Expr_type acc) (Node.Expr_type r) = false ->
  bin_node (type op) (Node.mkExpr (Node.Expr_var acc) NONE) r = Some b ->
  parse_expr_loop _tokens n lo (folded acc b) j = Ret e' j' ->
  parse_expr_loop _tokens (S n) lo acc i = Ret e' j'.
Proof.
  intros Hop Hprec Hle Hr Hmm Hb Hloop.
  rewrite (loop_step n lo acc i op prec Hop Hprec Hle).
  unfold bind at 1. rewrite Hr. unfold after_rside. rewrite Hmm.
  rewrite fold_eq, Hb. exact Hloop.
Qed.

Lemma written_first_term n lo i t j e' j' :
  parse_term _tokens n i = Ret (Some t) j ->
  parse_expr_loop _tokens n lo
    (Node.mkExpr (Node.OfTerm t) (Node.Term_type t)) j = Ret e' j' ->
  parse_expr _tokens (S n) lo i = Ret (Some e') j'.
Proof.
  intros Ht Hloop. cbn [parse_expr]. unfold bind at 1. rewrite Ht.
  unfold bind. now rewrite Hloop.
Qed.

Lemma built_var_tag :
  forall e ty, Grammar.built_var (Node.Expr_var e) ty = true -> tag_ok ty.
Proof.
  apply (Grammar.Expr_mut
           (fun t => Grammar.built_term t = true -> tag_ok (Node.Term_type t))
           (fun v => forall ty, Grammar.built_term_var v ty = true -> tag_ok ty)
           (fun e => forall ty,
                Grammar.built_var (Node.Expr_var e) ty = true -> tag_ok ty)
           (fun v => forall ty, Grammar.built_var v ty = true -> tag_ok ty)
           (fun b => forall ty, Grammar.built_bin b ty = true -> tag_ok ty)).
  - intros v IH ty. exact (IH ty).
  - intros tok ty Hb. cbn in Hb. apply andb_prop in Hb as [_ Hty].
    apply Z.eqb_eq in Hty. subst. now right.
  - intros tok ty Hb. cbn in Hb. apply andb_prop in Hb as [_ Hty].
    apply Z.eqb_eq in Hty. subst. now left.
  - intros [v ty'] IH ty Hb. cbn [Grammar.built_term_var] in Hb.
    apply andb_prop in Hb as [Hb Hty]. apply andb_prop in Hb as [Hb _].
    apply Z.eqb_eq in Hty. subst. exact (IH _ Hb).
  - intros v IH ty' ty. exact (IH ty).
  - intros t IH ty Hb. cbn [Grammar.built_var] in Hb.
    apply andb_prop in Hb as [Hb Hty]. apply Z.eqb_eq in Hty. subst.
    exact (IH Hb).
  - intros b IH ty. exact (IH ty).
  - intros [xv xty] IHx y IHy ty Hb. cbn [Grammar.built_bin] in Hb.
    apply andb_prop in Hb as [Hb _]. apply andb_prop in Hb as [_ Hb].
    exact (IHx ty Hb).
  - intros [xv xty] IHx y IHy ty Hb. cbn [Grammar.built_bin] in Hb.
    apply andb_prop in Hb as [Hb _]. apply andb_prop in Hb as [_ Hb].
    exact (IHx ty Hb).
  - intros [xv xty] IHx y IHy ty Hb. cbn [Grammar.built_bin] in Hb.
    apply andb_prop in Hb as [Hb _]. apply andb_prop in Hb as [_ Hb].
    exact (IHx ty Hb).
  - intros [xv xty] IHx y IHy ty Hb. cbn [Grammar.built_bin] in Hb.
    apply andb_prop in Hb as [Hb _]. apply andb_prop in Hb as [_ Hb].
    exact (IHx ty Hb).
Qed.

Lemma built_expr_tag e :
  Grammar.built_expr e = true -> tag_ok (Node.Expr_type e).
Proof. destruct e as [v ty]. exact (built_var_tag (Node.mkExpr v ty) ty). Qed.

(** The operator at cursor [j], if there is one, can take [v] as its left
    operand. *)
Abbreviation joins_var v j :=
  (forall tok prec,
      nth_error _tokens j = Some tok -> bin_prec (type tok) = Some prec ->
      Shape.climbed_var prec v = true).

(** A call of [parse_expr] from where the writing of [v] starts gets to the
    state its loop has after reading that writing, and so returns what the
    loop returns from that state. *)
Abbreviation catches_up v :=
  (forall l ty lo i j n e' j',
      Grammar.built_var v ty = true ->
      Shape.climbed_var lo v = true ->
      Grammar.reads _tokens i (Grammar.write_expr_var l v) j ->
      joins_var v j ->
      parse_expr_loop _tokens n lo (Node.mkExpr v ty) j = Ret e' j' ->
      exists n', parse_expr _tokens n' lo i = Ret (Some e') j').

Lemma climbed_var_lower lo hi v :
  (lo <= hi)%Z -> Shape.climbed_var hi v = true -> Shape.climbed_var lo v = true.
Proof. exact (climbed_lower lo hi (Node.mkExpr v NONE)). Qed.

Lemma written_expr v l ty lo i j :
  catches_up v ->
  Grammar.built_var v ty = true ->
  Shape.climbed_var lo v = true ->
  Grammar.reads _tokens i (Grammar.write_expr_var l v) j ->
  stops_below _tokens lo j ->
  exists n, parse_expr _tokens n lo i = Ret (Some (Node.mkExpr v ty)) j.
Proof.
  intros Hq Hb Hc Hr Hstop.
  apply (Hq l ty lo i j 1 _ _ Hb Hc Hr).
  - intros tok prec Htok Hprec.
    apply (climbed_var_lower prec lo); [|exact Hc].
    pose proof (Hstop tok prec Htok Hprec). lia.
  - apply loop_stop. unfold stops_below in Hstop.
    destruct (nth_error _tokens j) as [tok|]; [|exact I].
    destruct (bin_prec (type tok)) as [prec|] eqn:Eprec; [|exact I].
    exact (Hstop tok prec eq_refl Eprec).
Qed.

Lemma catches_up_bin x y op prec b :
  bin_prec op = Some prec ->
  (forall l, Grammar.write_bin l b
             = (Grammar.write_expr l x
                  ++ Grammar.kwt l op :: Grammar.write_expr l y)%list) ->
  (forall ty, Grammar.built_bin b ty
              = match x with
                | Node.mkExpr xv xty => (xty =? NONE)%Z && Grammar.built_var xv ty
                end && Grammar.built_expr y) ->
  (forall lo, Shape.climbed_bin lo b
              = (lo <=? prec)%Z && Shape.climbed prec x
                && Shape.climbed (prec + 1) y) ->
  (forall xv, bin_node op (Node.mkExpr xv NONE) y
              = Some match b with
                     | Node.BinExprAdd _ _ => Node.BinExprAdd (Node.mkExpr xv NONE) y
                     | Node.BinExprSub _ _ => Node.BinExprSub (Node.mkExpr xv NONE) y
                     | Node.BinExprMulti _ _ =>
                         Node.BinExprMulti (Node.mkExpr xv NONE) y
                     | Node.BinExprDiv _ _ => Node.BinExprDiv (Node.mkExpr xv NONE) y
                     end) ->
  (forall xv, Node.mkExpr xv NONE = x ->
              match b with
              | Node.BinExprAdd _ _ => Node.BinExprAdd (Node.mkExpr xv NONE) y
              | Node.BinExprSub _ _ => Node.BinExprSub (Node.mkExpr xv NONE) y
              | Node.BinExprMulti _ _ => Node.BinExprMulti (Node.mkExpr xv NONE) y
              | Node.BinExprDiv _ _ => Node.BinExprDiv (Node.mkExpr xv NONE) y
              end = b) ->
  catches_up (Node.Expr_var x) -> catches_up (Node.Expr_var y) ->
  catches_up (Node.OfBinExpr b).
Proof.
  intros Hprec Hwrite Hbuilt Hclimbed Hnode Hsame IHx IHy.
  intros l ty lo i j n e' j' Hb Hc Hr Hjoin Hloop.
  cbn [Grammar.built_var Grammar.write_expr_var Shape.climbed_var] in Hb, Hc, Hr.
  rewrite Hbuilt in Hb. rewrite Hclimbed in Hc. rewrite Hwrite in Hr.
  destruct x as [xv xty]. cbn [Node.Expr_var] in IHx.
  apply andb_prop in Hb as [Hb Hy]. apply andb_prop in Hb as [Hxty Hx].
  apply Z.eqb_eq in Hxty. subst xty.
  apply andb_prop in Hc as [Hc Hcy]. apply andb_prop in Hc as [Hlo Hcx].
  apply Z.leb_le in Hlo.
  apply reads_app_inv in Hr as [k [Hrx Hr]].
  apply reads_cons_inv in Hr as [Hop Hry]. cbn [type Grammar.kwt] in Hop.
  apply has_kind_true in Hop as [tok [Hop Htype]].
  (* the right operand *)
  assert (Hstop : stops_below _tokens (prec + 1) j).
  { intros tok' p Htok Hp. specialize (Hjoin tok' p Htok Hp).
    cbn [Shape.climbed_var] in Hjoin. rewrite Hclimbed in Hjoin.
    apply andb_prop in Hjoin as [Hjoin _]. apply andb_prop in Hjoin as [Hjoin _].
    apply Z.leb_le in Hjoin. lia. }
  destruct y as [yv yty].
  destruct (written_expr yv l yty (prec + 1)%Z (S k) j IHy Hy Hcy Hry Hstop)
    as [n1 Hright].
  (* one more iteration of the loop *)
  assert (Hstep : parse_expr_loop _tokens (S full) lo (Node.mkExpr xv ty) k
                  = Ret e' j').
  { eapply (written_operator full lo (Node.mkExpr xv ty) k tok prec
              (Node.mkExpr yv yty) j _ e' j' Hop).
    - now rewrite Htype.
    - exact Hlo.
    - exact (expr_full _ _ _ _ _ Hright).
    - apply tags_never_mismatch.
      + exact (built_var_tag (Node.mkExpr xv ty) ty Hx).
      + exact (built_expr_tag (Node.mkExpr yv yty) Hy).
    - rewrite Htype. exact (Hnode xv).
    - unfold folded. cbn [Node.Expr_type]. rewrite (Hsame xv eq_refl).
      exact (loop_full _ _ _ _ _ _ Hloop). }
  (* the left operand *)
  apply (IHx l ty lo i k (S full) e' j' Hx).
  - exact (climbed_var_lower lo prec xv Hlo Hcx).
  - exact Hrx.
  - intros tok' p Htok Hp.
    assert (tok' = tok) as -> by congruence.
    rewrite Htype in Hp. assert (p = prec) as -> by congruence.
    exact Hcx.
  - exact Hstep.
Qed.

Lemma written_ast :
  forall e, catches_up (Node.Expr_var e).
Proof.
  apply (Grammar.Expr_mut
           (fun t => forall l i j,
                Grammar.built_term t = true -> Shape.climbed_term t = true ->
                Grammar.reads _tokens i (Grammar.write_term l t) j ->
                exists n, parse_term _tokens n i = Ret (Some t) j)
           (fun v => forall l ty i j,
                Grammar.built_term_var v ty = true ->
                Shape.climbed_term_var v = true ->
                Grammar.reads _tokens i (Grammar.write_term_var l v) j ->
                exists n, parse_term _tokens n i = Ret (Some (Node.mkTerm v ty)) j)
           (fun e => catches_up (Node.Expr_var e))
           (fun v => catches_up v)
           (fun b => catches_up (Node.OfBinExpr b))).
  - (* a term *)
    intros v IH ty l i j Hb Hc Hr. exact (IH l ty i j Hb Hc Hr).
  - (* an integer literal *)
    intros tok l ty i j Hb _ Hr. pose proof Hb as Hk.
    cbn [Grammar.built_term_var] in Hk. apply andb_prop in Hk as [Hk _].
    apply TokenType_eqb_eq in Hk.
    apply reads_text_inv in Hr as [Htok Hr]; [|now rewrite Hk].
    apply reads_nil_inv in Hr. subst j.
    exists 1. now apply written_integer_literal.
  - (* an identifier *)
    intros tok l ty i j Hb _ Hr. pose proof Hb as Hk.
    cbn [Grammar.built_term_var] in Hk. apply andb_prop in Hk as [Hk _].
    apply TokenType_eqb_eq in Hk.
    apply reads_text_inv in Hr as [Htok Hr]; [|now rewrite Hk].
    apply reads_nil_inv in Hr. subst j.
    exists 1. now apply written_identifier.
  - (* parentheses *)
    intros [v ty'] IH l ty i j Hb Hc Hr.
    cbn [Grammar.built_term_var Grammar.write_term_var Shape.climbed_term_var
         Grammar.built_expr Shape.climbed Grammar.write_expr Node.Expr_var] in *.
    apply andb_prop in Hb as [Hb Hty]. apply andb_prop in Hb as [Hb _].
    apply reads_cons_inv in Hr as [Hopen Hr].
    apply reads_app_inv in Hr as [k [Hr Hclose]].
    apply reads_cons_inv in Hclose as [Hclose Hend].
    apply reads_nil_inv in Hend. subst j.
    cbn [type Grammar.kwt] in Hopen, Hclose.
    destruct (written_expr v l ty' 0%Z (S i) k IH Hb Hc Hr) as [n He].
    { intros tok prec Htok Hprec.
      apply has_kind_true in Hclose as [tok' [Htok' Hty']].
      assert (tok = tok') as -> by congruence.
      rewrite Hty' in Hprec. discriminate Hprec. }
    exists (S n). now apply (written_paren n).
  - (* an expression *)
    intros v IH ty. exact IH.
  - (* the expression of a term *)
    intros t IH l ty lo i j n e' j' Hb Hc Hr _ Hloop.
    cbn [Grammar.built_var Shape.climbed_var Grammar.write_expr_var] in *.
    apply andb_prop in Hb as [Hb Hty]. apply Z.eqb_eq in Hty. subst ty.
    destruct (IH l i j Hb Hc Hr) as [n1 Ht].
    exists (S full). apply (written_first_term full lo i t j).
    + exact (term_full _ _ _ _ Ht).
    + exact (loop_full _ _ _ _ _ _ Hloop).
  - (* the expression of a binary node *)
    intros b IH. exact IH.
  - intros x IHx y IHy.
    apply (catches_up_bin x y PLUS 0%Z); try reflexivity; try assumption.
    now intros xv <-.
  - intros x IHx y IHy.
    apply (catches_up_bin x y MINUS 0%Z); try reflexivity; try assumption.
    now intros xv <-.
  - intros x IHx y IHy.
    apply (catches_up_bin x y STAR 1%Z); try reflexivity; try assumption.
    now intros xv <-.
  - intros x IHx y IHy.
    apply (catches_up_bin x y SLASH 1%Z); try reflexivity; try assumption.
    now intros xv <-.
Qed.

(** An expression the parser builds is parsed from its writing, when no
    operator that it would take follows. *)
Lemma written_top l e i j :
  Grammar.built_top e = true ->
  Grammar.reads _tokens i (Grammar.write_expr l e) j ->
  stops_below _tokens 0 j ->
  parse_expr _tokens full 0%Z i = Ret (Some e) j.
Proof.
  unfold Grammar.built_top. intros Hb Hr Hstop.
  apply andb_prop in Hb as [Hb Hc]. destruct e as [v ty].
  destruct (written_expr v l ty 0%Z i j (written_ast (Node.mkExpr v ty))
              Hb Hc Hr Hstop) as [n He].
  exact (expr_full _ _ _ _ _ He).
Qed.

(** *** Parsing what was written: statements *)

(** The token at cursor [j], if there is one, continues neither an
    expression nor an [if] statement. *)
Abbreviation quiet j :=
  (forall tok, nth_error _tokens j = Some tok ->
               bin_prec (type tok) = None /\ type tok <> ELIF /\ type tok <> ELSE).

Ltac run_stmt :=
  repeat (run_prim; try congruence; try solve [exfalso; kinds_decide];
          kinds_decide).

Lemma quiet_stops j : quiet j -> stops_below _tokens 0 j.
Proof.
  intros Hq tok prec Htok Hprec. destruct (Hq tok Htok) as [Hnone _]. congruence.
Qed.

Lemma written_return i e j :
  has_kind _tokens i RETURN = true ->
  parse_expr _tokens full 0%Z (S i) = Ret (Some e) j ->
  parse_stmt _tokens (S full) i = Ret (Some (Node.StmtReturn e)) j.
Proof.
  intros Hkw He. known_kinds.
  apply run_eq. cbn [parse_stmt]. run_stmt. run_fin.
Qed.

Lemma written_var i identifier e j :
  has_kind _tokens i VAR = true ->
  nth_error _tokens (S i) = Some identifier ->
  type identifier = IDENTIFIER ->
  has_kind _tokens (S (S i)) EQUAL = true ->
  parse_expr _tokens full 0%Z (S (S (S i))) = Ret (Some e) j ->
  parse_stmt _tokens (S full) i = Ret (Some (Node.StmtVar identifier e)) j.
Proof.
  intros Hkw Hid Hty Heq He. known_kinds.
  apply run_eq. cbn [parse_stmt]. run_stmt. run_fin.
Qed.

Lemma written_assign i ident e j :
  nth_error _tokens i = Some ident ->
  type ident = IDENTIFIER ->
  has_kind _tokens (S i) EQUAL = true ->
  parse_expr _tokens full 0%Z (S (S i)) = Ret (Some e) j ->
  parse_stmt _tokens (S full) i = Ret (Some (Node.StmtVarAssign ident e)) j.
Proof.
  intros Hid Hty Heq He. known_kinds.
  apply run_eq. cbn [parse_stmt]. run_stmt. run_fin.
Qed.

Lemma written_scope_stmt i sc j :
  has_kind _tokens i LEFT_CURLY_BACKET = true ->
  parse_scope _tokens full i = Ret (Some sc) j ->
  parse_stmt _tokens (S full) i = Ret (Some (Node.StmtScope sc)) j.
Proof.
  intros Hkw Hsc. known_kinds.
  apply run_eq. cbn [parse_stmt]. run_stmt. run_fin.
Qed.

Lemma written_if i e k sc m pred j :
  has_kind _tokens i IF' = true ->
  has_kind _tokens (S i) LEFT_PARENTHESIS = true ->
  parse_expr _tokens full 0%Z (S (S i)) = Ret (Some e) k ->
  has_kind _tokens k RIGHT_PARENTHESIS = true ->
  parse_scope _tokens full (S k) = Ret (Some sc) m ->
  parse_if_pred _tokens full m = Ret pred j ->
  parse_stmt _tokens (S full) i = Ret (Some (Node.StmtIf e sc pred)) j.
Proof.
  intros Hkw Hopen He Hclose Hsc Hpred. known_kinds.
  apply run_eq. cbn [parse_stmt]. run_stmt. run_fin.
Qed.

Lemma written_elif i e k sc m pred j :
  has_kind _tokens i ELIF = true ->
  has_kind _tokens (S i) LEFT_PARENTHESIS = true ->
  parse_expr _tokens full 0%Z (S (S i)) = Ret (Some e) k ->
  has_kind _tokens k RIGHT_PARENTHESIS = true ->
  parse_scope _tokens full (S k) = Ret (Some sc) m ->
  parse_if_pred _tokens full m = Ret pred j ->
  parse_if_pred _tokens (S full) i = Ret (Some (Node.IfPredElif e sc pred)) j.
Proof.
  intros Hkw Hopen He Hclose Hsc Hpred. known_kinds.
  apply run_eq. cbn [parse_if_pred]. run_stmt. run_fin.
Qed.

Lemma written_else i sc j :
  has_kind _tokens i ELSE = true ->
  parse_scope _tokens full (S i) = Ret (Some sc) j ->
  parse_if_pred _tokens (S full) i = Ret (Some (Node.IfPredElse sc)) j.
Proof.
  intros Hkw Hsc. known_kinds.
  apply run_eq. cbn [parse_if_pred]. run_stmt. run_fin.
Qed.

Lemma written_no_pred n i :
  quiet i -> parse_if_pred _tokens (S n) i = Ret None i.
Proof.
  intros Hq.
  assert (Hk : forall t, t = ELIF \/ t = ELSE -> has_kind _tokens i t = false).
  { intros t Ht. unfold has_kind.
    destruct (nth_error _tokens i) as [tok|]; [|reflexivity].
    destruct (Hq tok eq_refl) as [_ [Helif Helse]].
    destruct (TokenType_eqb (type tok) t) eqn:E; [|reflexivity].
    apply TokenType_eqb_eq in E. destruct Ht; congruence. }
  apply run_eq. cbn [parse_if_pred].
  apply wp_bind, wp_try_consume_kind;
    [intros tok _ E; rewrite Hk in E by auto; discriminate E|intros _].
  apply wp_bind, wp_try_consume_kind;
    [intros tok _ E; rewrite Hk in E by auto; discriminate E|intros _].
  apply wp_ret. now split.
Qed.

Lemma written_braces i stmts k :
  has_kind _tokens i LEFT_CURLY_BACKET = true ->
  parse_scope_loop _tokens full [] (S i) = Ret stmts k ->
  has_kind _tokens k RIGHT_CURLY_BRACKET = true ->
  parse_scope _tokens (S full) i = Ret (Some (Node.mkScope stmts)) (S k).
Proof.
  intros Hopen Hloop Hclose. known_kinds.
  apply run_eq. cbn [parse_scope]. run_stmt. run_fin.
Qed.

Ltac reads_split :=
  repeat match goal with
    | H : Grammar.reads _ _ (?w :: _) _, Hk : type ?w = _ |- _ =>
        let Htok := fresh "Htok" in
        apply reads_text_inv in H as [Htok H]; [|rewrite Hk; reflexivity]
    | H : Grammar.reads _ _ (_ :: _) _ |- _ =>
        let Htok := fresh "Htok" in
        apply reads_cons_inv in H as [Htok H]; cbn [type Grammar.kwt] in Htok
    | H : Grammar.reads _ _ (_ ++ _) _ |- _ =>
        let k := fresh "k" in
        let Hr := fresh "Hr" in
        apply reads_app_inv in H as [k [Hr H]]
    | H : Grammar.reads _ _ [] _ |- _ => apply reads_nil_inv in H; subst
    end.

(** A statement starts with a token that continues nothing. *)
Lemma stmt_first l s :
  Grammar.built_stmt s = true ->
  exists tok ts,
    Grammar.write_stmt l s = tok :: ts /\
    bin_prec (type tok) = None /\ type tok <> ELIF /\ type tok <> ELSE.
Proof.
  destruct s as [e|identifier e|ident e|[stmts]|e sc pred];
    cbn [Grammar.built_stmt Grammar.write_stmt Grammar.write_scope]; intros Hb;
    eexists; eexists; (split; [reflexivity|]);
    try (cbn; repeat split; discriminate).
  apply andb_prop in Hb as [Hk _]. apply TokenType_eqb_eq in Hk.
  rewrite Hk. repeat split; discriminate.
Qed.

Lemma quiet_before l stmts i k :
  forallb Grammar.built_stmt stmts = true ->
  Grammar.reads _tokens i (flat_map (Grammar.write_stmt l) stmts) k ->
  quiet k -> quiet i.
Proof.
  destruct stmts as [|s stmts]; intros Hb Hr Hq.
  - apply reads_nil_inv in Hr. now subst.
  - cbn [forallb flat_map] in Hb, Hr. apply andb_prop in Hb as [Hs _].
    destruct (stmt_first l s Hs) as [tok [ts [Hw Htok]]].
    rewrite Hw in Hr. cbn [app] in Hr. apply reads_cons_inv in Hr as [Hi _].
    apply has_kind_true in Hi as [tok0 [Hi Hty]].
    intros tok' Hi'. assert (tok' = tok0) as -> by congruence.
    rewrite Hty. exact Htok.
Qed.

(** What the statements of a list are parsed to, one by one. *)
Abbreviation each_written l stmts :=
  (Forall (fun s => forall i j,
               Grammar.built_stmt s = true ->
               Grammar.reads _tokens i (Grammar.write_stmt l s) j ->
               quiet j ->
               parse_stmt _tokens full i = Ret (Some s) j) stmts).

Lemma written_scope_loop l stmts :
  forall acc i k,
    each_written l stmts ->
    forallb Grammar.built_stmt stmts = true ->
    Grammar.reads _tokens i (flat_map (Grammar.write_stmt l) stmts) k ->
    has_kind _tokens k RIGHT_CURLY_BRACKET = true ->
    parse_scope_loop _tokens full acc i = Ret (acc ++ stmts)%list k.
Proof.
  induction stmts as [|s stmts IH]; intros acc i k Hall Hb Hr Hclose.
  - apply reads_nil_inv in Hr. subst k. rewrite app_nil_r.
    apply (scope_loop_full 2). cbn [parse_scope_loop]. unfold bind.
    assert (Hnone : parse_stmt _tokens 1 i = Ret None i).
    { apply run_eq. apply stmt_none.
      apply has_kind_true in Hclose as [tok [Htok Hty]].
      unfold starts_stmt, has_kind. now rewrite Htok, Hty. }
    now rewrite Hnone.
  - cbn [forallb flat_map] in Hb, Hr. apply andb_prop in Hb as [Hs Hb].
    apply reads_app_inv in Hr as [m [Hrs Hr]].
    inversion Hall as [|? ? Hhead Htail]; subst.
    assert (Hq : quiet m).
    { apply (quiet_before l stmts m k Hb Hr).
      intros tok Htok. pose proof Hclose as Hc.
      apply has_kind_true in Hc as [tok' [Htok' Hty']].
      assert (tok = tok') as -> by congruence.
      rewrite Hty'. repeat split; discriminate. }
    apply (scope_loop_full (S full)). cbn [parse_scope_loop]. unfold bind.
    rewrite (Hhead i m Hs Hrs Hq).
    rewrite (IH (acc ++ [s])%list m k Htail Hb Hr Hclose).
    now rewrite <- app_assoc.
Qed.

Lemma written_prog_loop l stmts :
  forall acc i k,
    each_written l stmts ->
    forallb Grammar.built_stmt stmts = true ->
    Grammar.reads _tokens i (flat_map (Grammar.write_stmt l) stmts) k ->
    nth_error _tokens k = None ->
    parse_prog_loop _tokens full acc i
    = Ret (Node.mkProg (acc ++ stmts)%list) k.
Proof.
  induction stmts as [|s stmts IH]; intros acc i k Hall Hb Hr Hend.
  - apply reads_nil_inv in Hr. subst k. rewrite app_nil_r.
    apply (prog_loop_full 1); [lia|]. cbn [parse_prog_loop]. unfold bind, peek.
    now rewrite peek_at_0, Hend.
  - cbn [forallb flat_map] in Hb, Hr. apply andb_prop in Hb as [Hs Hb].
    destruct (stmt_first l s Hs) as [tok [ts [Hw _]]].
    pose proof Hr as Hfirst. rewrite Hw in Hfirst. cbn [app] in Hfirst.
    apply reads_cons_inv in Hfirst as [Hi _].
    apply has_kind_true in Hi as [tok0 [Hi _]].
    apply reads_app_inv in Hr as [m [Hrs Hr]].
    inversion Hall as [|? ? Hhead Htail]; subst.
    assert (Hq : quiet m).
    { apply (quiet_before l stmts m k Hb Hr).
      intros tok' Htok'. congruence. }
    apply (prog_loop_full (S full)); [lia|].
    cbn [parse_prog_loop]. unfold bind, peek.
    rewrite peek_at_0, Hi.
    rewrite (Hhead i m Hs Hrs Hq).
    rewrite (IH (acc ++ [s])%list m k Htail Hb Hr Hend).
    now rewrite <- app_assoc.
Qed.

Lemma written_stmt :
  forall s l i j,
    Grammar.built_stmt s = true ->
    Grammar.reads _tokens i (Grammar.write_stmt l s) j ->
    quiet j ->
    parse_stmt _tokens full i = Ret (Some s) j.
Proof.
  apply (NodeFacts.Stmt_nested_ind
           (fun s => forall l i j,
                Grammar.built_stmt s = true ->
                Grammar.reads _tokens i (Grammar.write_stmt l s) j ->
                quiet j ->
                parse_stmt _tokens full i = Ret (Some s) j)
           (fun sc => forall l i j,
                Grammar.built_scope sc = true ->
                Grammar.reads _tokens i (Grammar.write_scope l sc) j ->
                parse_scope _tokens full i = Ret (Some sc) j)
           (fun p => forall l i j,
                Grammar.built_pred p = true ->
                Grammar.reads _tokens i (Grammar.write_pred l p) j ->
                quiet j ->
                parse_if_pred _tokens full i = Ret (Some p) j)).
  - (* return *)
    intros e l i j Hb Hr Hq. cbn [Grammar.built_stmt Grammar.write_stmt] in Hb, Hr.
    reads_split. apply (stmt_full (S full)).
    apply written_return; [assumption|].
    exact (written_top l e _ _ Hb Hr (quiet_stops j Hq)).
  - (* a declaration *)
    intros identifier e l i j Hb Hr Hq.
    cbn [Grammar.built_stmt Grammar.write_stmt] in Hb, Hr.
    apply andb_prop in Hb as [Hk Hb]. apply TokenType_eqb_eq in Hk.
    reads_split. apply (stmt_full (S full)).
    apply written_var; try assumption.
    exact (written_top l e _ _ Hb Hr (quiet_stops j Hq)).
  - (* an assignment *)
    intros ident e l i j Hb Hr Hq.
    cbn [Grammar.built_stmt Grammar.write_stmt] in Hb, Hr.
    apply andb_prop in Hb as [Hk Hb]. apply TokenType_eqb_eq in Hk.
    reads_split. apply (stmt_full (S full)).
    apply written_assign; try assumption.
    exact (written_top l e _ _ Hb Hr (quiet_stops j Hq)).
  - (* a scope as a statement *)
    intros sc IH l i j Hb Hr Hq.
    cbn [Grammar.built_stmt Grammar.write_stmt] in Hb, Hr.
    apply (stmt_full (S full)).
    apply written_scope_stmt; [|exact (IH l i j Hb Hr)].
    destruct sc as [stmts]. cbn [Grammar.write_scope] in Hr.
    now apply reads_cons_inv in Hr as [Hopen _].
  - (* if *)
    intros e sc pred IHsc IHp l i j Hb Hr Hq.
    cbn [Grammar.built_stmt Grammar.write_stmt] in Hb, Hr.
    apply andb_prop in Hb as [Hb Hpred]. apply andb_prop in Hb as [He Hsc].
    reads_split. apply (stmt_full (S full)).
    apply (written_if i e k sc k0 pred j); try assumption.
    + apply (written_top l e _ _ He Hr0).
      intros tok prec Htok' Hprec.
      apply has_kind_true in Htok1 as [tok' [Hclose Hty']].
      assert (tok = tok') as -> by congruence.
      rewrite Hty' in Hprec. discriminate Hprec.
    + exact (IHsc l _ _ Hsc Hr1).
    + destruct pred as [p|].
      * exact (IHp p eq_refl l _ _ Hpred Hr Hq).
      * apply reads_nil_inv in Hr. subst k0.
        apply (if_pred_full 1). now apply written_no_pred.
  - (* a scope *)
    intros stmts IH l i j Hb Hr.
    cbn [Grammar.built_scope Grammar.write_scope] in Hb, Hr.
    reads_split. apply (scope_full (S full)).
    apply written_braces; [assumption| |assumption].
    apply (written_scope_loop l stmts [] (S i) k); try assumption.
    eapply Forall_impl; [|exact IH]. cbv beta. intros s Hs i' j'. exact (Hs l i' j').
  - (* elif *)
    intros e sc next IHsc IHp l i j Hb Hr Hq.
    cbn [Grammar.built_pred Grammar.write_pred] in Hb, Hr.
    apply andb_prop in Hb as [Hb Hnext]. apply andb_prop in Hb as [He Hsc].
    reads_split. apply (if_pred_full (S full)).
    apply (written_elif i e k sc k0 next j); try assumption.
    + apply (written_top l e _ _ He Hr0).
      intros tok prec Htok' Hprec.
      apply has_kind_true in Htok1 as [tok' [Hclose Hty']].
      assert (tok = tok') as -> by congruence.
      rewrite Hty' in Hprec. discriminate Hprec.
    + exact (IHsc l _ _ Hsc Hr1).
    + destruct next as [q|].
      * exact (IHp q eq_refl l _ _ Hnext Hr Hq).
      * apply reads_nil_inv in Hr. subst k0.
        apply (if_pred_full 1). now apply written_no_pred.
  - (* else *)
    intros sc IH l i j Hb Hr Hq.
    cbn [Grammar.built_pred Grammar.write_pred] in Hb, Hr.
    reads_split. apply (if_pred_full (S full)).
    apply written_else; [assumption|].
    exact (IH l _ _ Hb Hr).
Qed.

Lemma written_prog l stmts k :
  forallb Grammar.built_stmt stmts = true ->
  Grammar.reads _tokens 0 (flat_map (Grammar.write_stmt l) stmts) k ->
  nth_error _tokens k = None ->
  parse_prog _tokens = Ret (Node.mkProg stmts) k.
Proof.
  intros Hb Hr Hend. unfold parse_prog.
  apply (prog_loop_full full); [unfold fuel_for; lia|].
  apply (written_prog_loop l stmts [] 0 k); try assumption.
  apply Forall_forall. intros s _ i j. exact (written_stmt s l i j).
Qed.

End WithTokens.

Lemma reads_like tokens ts :
  Forall2 Grammar.like tokens ts ->
  forall before after,
    Grammar.reads (before ++ tokens ++ after) (List.length before) ts
                  (List.length before + List.length tokens).
Proof.
  induction 1 as [|tok w tokens ts Hlike _ IH]; intros before after.
  - rewrite Nat.add_0_r. constructor.
  - apply (Grammar.reads_cons _ _ tok).
    + rewrite nth_error_app2 by lia. rewrite Nat.sub_diag. reflexivity.
    + exact Hlike.
    + specialize (IH (before ++ [tok])%list after).
      rewrite <- app_assoc, length_app in IH. cbn [app List.length] in IH.
      replace (List.length before + 1) with (S (List.length before)) in IH by lia.
      cbn [List.length app].
      replace (List.length before + S (List.length tokens))
        with (S (List.length before) + List.length tokens) by lia.
      exact IH.
Qed.

Lemma like_itself ts : Forall2 Grammar.like ts ts.
Proof.
  induction ts as [|w ts IH]; constructor; [|exact IH].
  unfold Grammar.like. now destruct (Unparse.has_text (type w)).
Qed.

(** A token sequence that is like a Program's writing parses to it. *)
Lemma parse_prog_like tokens l stmts :
  forallb Grammar.built_stmt stmts = true ->
  Forall2 Grammar.like tokens (flat_map (Grammar.write_stmt l) stmts) ->
  parse_prog tokens = Ret (Node.mkProg stmts) (List.length tokens).
Proof.
  intros Hb Hlike.
  apply (written_prog tokens l stmts); [exact Hb| |apply nth_error_None; lia].
  pose proof (reads_like _ _ Hlike [] []) as H.
  cbn [app List.length] in H. rewrite app_nil_r in H. exact H.
Qed.

(** The tokens [parse_prog] was given are like the writing of the Program
    it returns. *)
Lemma parse_prog_reads tokens l prog j :
  parse_prog tokens = Ret prog j ->
  j = List.length tokens /\ Forall2 Grammar.like tokens (Grammar.write_prog l prog).
Proof.
  intros H. unfold parse_prog in H.
  pose proof (wp_returned _ _ _ _ _ _
                (prog_reads tokens l (fuel_for (List.length tokens)) [] 0
                   (Grammar.reads_nil _ _)) H) as [Hr Hend].
  exact (reads_all tokens _ _ Hr Hend).
Qed.

End ParserFacts.

(** ** A statement parses the same inside a longer token sequence *)

Module Locality.

Import Parser ParserLogic ParserFacts.
Local Open Scope parser_scope.

Section Window.

Variables before tokens after : list Token.

Hypothesis quiet : quiet_after after.

Abbreviation k := (List.length before).
Abbreviation all := (window before tokens after).

Lemma nth_error_window p :
  p < List.length tokens -> nth_error all (k + p) = nth_error tokens p.
Proof.
  intros Hp. unfold window.
  rewrite nth_error_app2 by lia.
  replace (k + p - k) with p by lia.
  now rewrite nth_error_app1.
Qed.

Lemma nth_error_window_end :
  nth_error all (k + List.length tokens) = nth_error after 0.
Proof.
  unfold window. rewrite nth_error_app2 by lia.
  replace (k + List.length tokens - k) with (List.length tokens) by lia.
  rewrite nth_error_app2 by lia. f_equal. lia.
Qed.

Lemma tr_ret {A} (a b : A) i j : tr before (ret a) (ret a) i b j.
Proof. unfold tr, ret. intros H. now inversion H. Qed.

Lemma tr_exit {A} (m' : M A) err_msg template_msg i b j :
  tr before (exit_with tokens err_msg template_msg) m' i b j.
Proof.
  unfold tr. rewrite exit_with_eq. destruct (error_line tokens i); discriminate.
Qed.

Lemma tr_bind {A B} (m m' : M A) (f f' : A -> M B) i b j :
  (forall a i1, m i = Ret a i1 -> f a i1 = Ret b j ->
                tr before m m' i a i1 /\ tr before (f a) (f' a) i1 b j) ->
  tr before (bind m f) (bind m' f') i b j.
Proof.
  unfold tr, bind. intros H Hrun.
  destruct (m i) as [a i1| | |] eqn:Em; try discriminate Hrun.
  destruct (H a i1 eq_refl Hrun) as [Hm Hf].
  rewrite (Hm eq_refl). exact (Hf Hrun).
Qed.

Lemma tr_consume i a j : tr before (consume tokens) (consume all) i a j.
Proof.
  unfold tr, consume. intros H.
  destruct (nth_error tokens i) as [tok|] eqn:E; [|discriminate H].
  inversion H; subst. rewrite nth_error_window, E.
  - now rewrite Nat.add_succ_r.
  - apply nth_error_Some. congruence.
Qed.

Lemma peek_type_eq toks t (o : nat) i :
  peek_type toks t (Z.of_nat o) i =
  Ret (match nth_error toks (i + o) with
       | Some tok => TokenType_eqb (type tok) t
       | None => false
       end) i.
Proof. unfold peek_type, bind, peek, ret. now rewrite peek_at_nat. Qed.

(** A test that succeeds on [tokens] succeeds on the window. *)
Lemma tr_peek_type_true t (o : nat) i j :
  tr before (peek_type tokens t (Z.of_nat o)) (peek_type all t (Z.of_nat o)) i true j.
Proof.
  unfold tr. rewrite !peek_type_eq. intros H.
  injection H as Hb Hj. subst j.
  replace (k + i + o) with (k + (i + o)) by lia.
  destruct (nth_error tokens (i + o)) as [tok|] eqn:E; [|discriminate Hb].
  rewrite nth_error_window, E; [now rewrite Hb|].
  apply nth_error_Some. congruence.
Qed.

(** A test of a token of [tokens] has the same result on the window. *)
Lemma tr_peek_type_in t (o : nat) i b j :
  i + o < List.length tokens ->
  tr before (peek_type tokens t (Z.of_nat o)) (peek_type all t (Z.of_nat o)) i b j.
Proof.
  unfold tr. rewrite !peek_type_eq. intros Hin H.
  injection H as Hb Hj. subst j b.
  replace (k + i + o) with (k + (i + o)) by lia.
  now rewrite nth_error_window.
Qed.

(** A test for a kind that the first token of [after] does not have has
    the same result on the window, up to the end of [tokens]. *)
Lemma tr_peek_type_quiet t i b j :
  i <= List.length tokens ->
  (forall h, nth_error after 0 = Some h -> type h <> t) ->
  tr before (peek_type tokens t 0) (peek_type all t 0) i b j.
Proof.
  intros Hle Ht. destruct (Nat.eq_dec i (List.length tokens)) as [->|Hne].
  - unfold tr. rewrite !(peek_type_eq _ _ 0). intros H.
    injection H as Hb Hj. subst j b.
    rewrite !Nat.add_0_r, nth_error_window_end.
    assert (nth_error tokens (List.length tokens) = None) as ->
        by (apply nth_error_None; lia).
    destruct (nth_error after 0) as [h|] eqn:E; [|reflexivity].
    destruct (TokenType_eqb (type h) t) eqn:Eq; [|reflexivity].
    apply TokenType_eqb_eq in Eq. now destruct (Ht h eq_refl).
  - apply (tr_peek_type_in t 0). lia.
Qed.

Lemma tr_try_consume_err t i a j :
  tr before (try_consume_err tokens t) (try_consume_err all t) i a j.
Proof.
  unfold try_consume_err. apply tr_bind. intros b i1 Hm Hf.
  destruct b.
  - split; [apply (tr_peek_type_true t 0)|apply tr_consume].
  - exfalso. rewrite exit_with_eq in Hf.
    destruct (error_line tokens i1); discriminate Hf.
Qed.

Lemma tr_try_consume_in t i a j :
  i < List.length tokens ->
  tr before (try_consume tokens t) (try_consume all t) i a j.
Proof.
  intros Hin. unfold try_consume. apply tr_bind. intros b i1 Hm Hf.
  split; [apply (tr_peek_type_in t 0); lia|].
  destruct b; [|apply tr_ret].
  apply tr_bind. intros tok i2 Hm' Hf'. split; [apply tr_consume|apply tr_ret].
Qed.

Lemma tr_try_consume_quiet t i a j :
  i <= List.length tokens ->
  (forall h, nth_error after 0 = Some h -> type h <> t) ->
  tr before (try_consume tokens t) (try_consume all t) i a j.
Proof.
  intros Hle Ht. unfold try_consume. apply tr_bind. intros b i1 Hm Hf.
  split; [now apply tr_peek_type_quiet|].
  destruct b; [|apply tr_ret].
  apply tr_bind. intros tok i2 Hm' Hf'. split; [apply tr_consume|apply tr_ret].
Qed.

Lemma tr_peek0_in i a j :
  i < List.length tokens -> tr before (peek tokens 0) (peek all 0) i a j.
Proof.
  unfold tr, peek. rewrite !peek_at_0. intros Hin H.
  injection H as Ha Hj. subst j a. now rewrite nth_error_window.
Qed.

Lemma tr_intro {A} (m m' : M A) i a j :
  (m i = Ret a j -> tr before m m' i a j) -> tr before m m' i a j.
Proof. unfold tr. intros H E. exact (H E E). Qed.

Lemma tr_and_then_true (a a' b b' : M bool) i j :
  (forall i1, a i = Ret true i1 ->
              tr before a a' i true i1 /\ tr before b b' i1 true j) ->
  tr before (and_then a b) (and_then a' b') i true j.
Proof.
  intros H. unfold and_then. apply tr_bind. intros x i1 Ha Hb.
  destruct x; [exact (H i1 Ha)|discriminate Hb].
Qed.

Lemma tr_fold expr op rside i b j :
  tr before (fold expr op rside) (fold expr op rside) i b j.
Proof.
  unfold tr. rewrite fold_eq.
  destruct (bin_node (type op) _ rside); [|discriminate].
  unfold ret. intros H. now inversion H.
Qed.

(** The two look-ahead tests of [parse_stmt] fail on the kind of the
    first token alone. *)
Lemma var_decl_test_false toks i tok :
  nth_error toks i = Some tok -> type tok <> VAR ->
  (peek_type toks VAR 0 &&& peek_type toks IDENTIFIER 1 &&& peek_type toks EQUAL 2) i
  = Ret false i.
Proof.
  intros Htok Hty. unfold and_then, bind.
  rewrite (peek_type_eq _ _ 0), Nat.add_0_r, Htok.
  destruct (TokenType_eqb (type tok) VAR) eqn:E; [|reflexivity].
  apply TokenType_eqb_eq in E. contradiction.
Qed.

Lemma assign_test_false toks i tok :
  nth_error toks i = Some tok -> type tok <> IDENTIFIER ->
  (peek_type toks IDENTIFIER 0 &&& peek_type toks EQUAL 1) i = Ret false i.
Proof.
  intros Htok Hty. unfold and_then, bind.
  rewrite (peek_type_eq _ _ 0), Nat.add_0_r, Htok.
  destruct (TokenType_eqb (type tok) IDENTIFIER) eqn:E; [|reflexivity].
  apply TokenType_eqb_eq in E. contradiction.
Qed.

Lemma test_adv toks t (o : nat) i b j :
  peek_type toks t (Z.of_nat o) i = Ret b j -> j = i.
Proof. rewrite peek_type_eq. intros H. now inversion H. Qed.

Lemma and_then_adv (a b : M bool) i x j :
  (forall i y j, a i = Ret y j -> j = i) ->
  (forall i y j, b i = Ret y j -> j = i) ->
  and_then a b i = Ret x j -> j = i.
Proof.
  intros Ha Hb. unfold and_then, bind.
  destruct (a i) as [y i1| | |] eqn:E; try discriminate.
  apply Ha in E. subst i1.
  destruct y; [apply Hb|]. unfold ret. intros H. now inversion H.
Qed.

Lemma var_decl_test_adv toks i x j :
  (peek_type toks VAR 0 &&& peek_type toks IDENTIFIER 1 &&& peek_type toks EQUAL 2) i
  = Ret x j -> j = i.
Proof.
  apply and_then_adv; [|apply (test_adv _ _ 2)].
  intros i0 y j0. apply and_then_adv; [apply (test_adv _ _ 0)|apply (test_adv _ _ 1)].
Qed.

Lemma assign_test_adv toks i x j :
  (peek_type toks IDENTIFIER 0 &&& peek_type toks EQUAL 1) i = Ret x j -> j = i.
Proof. apply and_then_adv; [apply (test_adv _ _ 0)|apply (test_adv _ _ 1)]. Qed.

(** When a look-ahead test fails although the first token is of its kind,
    there is no statement. *)
Lemma stmt_none_var toks n i tok :
  nth_error toks i = Some tok -> type tok = VAR ->
  (peek_type toks VAR 0 &&& peek_type toks IDENTIFIER 1 &&& peek_type toks EQUAL 2) i
  = Ret false i ->
  parse_stmt toks (S n) i = Ret None i.
Proof.
  intros Htok Hty Htest. cbn [parse_stmt].
  unfold bind at 1, peek. rewrite peek_at_0, Htok.
  unfold bind at 1. rewrite (peek_type_eq _ _ 0), Nat.add_0_r, Htok, Hty.
  cbn [TokenType_eqb]. cbv iota.
  unfold bind at 1. rewrite Htest. cbv iota.
  unfold bind at 1. rewrite (assign_test_false _ _ _ Htok) by (rewrite Hty; discriminate).
  cbv iota.
  unfold bind at 1. rewrite (peek_type_eq _ _ 0), Nat.add_0_r, Htok, Hty.
  cbn [TokenType_eqb]. cbv iota.
  unfold try_consume, bind. rewrite (peek_type_eq _ _ 0), Nat.add_0_r, Htok, Hty.
  reflexivity.
Qed.

Lemma stmt_none_ident toks n i tok :
  nth_error toks i = Some tok -> type tok = IDENTIFIER ->
  (peek_type toks IDENTIFIER 0 &&& peek_type toks EQUAL 1) i = Ret false i ->
  parse_stmt toks (S n) i = Ret None i.
Proof.
  intros Htok Hty Htest. cbn [parse_stmt].
  unfold bind at 1, peek. rewrite peek_at_0, Htok.
  unfold bind at 1. rewrite (peek_type_eq _ _ 0), Nat.add_0_r, Htok, Hty.
  cbn [TokenType_eqb]. cbv iota.
  unfold bind at 1.
  rewrite (var_decl_test_false _ _ _ Htok) by (rewrite Hty; discriminate).
  cbv iota.
  unfold bind at 1. rewrite Htest. cbv iota.
  unfold bind at 1. rewrite (peek_type_eq _ _ 0), Nat.add_0_r, Htok, Hty.
  cbn [TokenType_eqb]. cbv iota.
  unfold try_consume, bind. rewrite (peek_type_eq _ _ 0), Nat.add_0_r, Htok, Hty.
  reflexivity.
Qed.

Lemma TokenType_eq_dec (a b : TokenType) : {a = b} + {a <> b}.
Proof. decide equality. Qed.

(** At a closing brace there is no statement. *)
Lemma stmt_at_closing_brace toks n p tok :
  nth_error toks p = Some tok -> type tok = RIGHT_CURLY_BRACKET ->
  parse_stmt toks (S n) p = Ret None p.
Proof.
  intros Htok Hty. cbn [parse_stmt].
  unfold and_then, try_consume, bind, peek. rewrite peek_at_0, Htok.
  repeat (rewrite (peek_type_eq _ _ 0), ?Nat.add_0_r, Htok, Hty;
          cbn [TokenType_eqb]; cbv beta iota delta [ret]).
  reflexivity.
Qed.

Lemma closing_brace_next (f : Token -> M (option Node.Scope)) i b j :
  bind (try_consume_err tokens RIGHT_CURLY_BRACKET) f i = Ret b j ->
  exists tok, nth_error tokens i = Some tok /\ type tok = RIGHT_CURLY_BRACKET.
Proof.
  unfold bind. intros H.
  destruct (try_consume_err tokens RIGHT_CURLY_BRACKET i) as [tok i1| | |] eqn:E;
    try discriminate H.
  revert E.
  apply (wp_returned anything _ i
           (fun tok _ => exists tok, nth_error tokens i = Some tok /\
                                     type tok = RIGHT_CURLY_BRACKET)).
  apply wp_try_consume_err; [|intros; exact I..].
  intros tok' Htok Hty _. now exists tok'.
Qed.

(** The run on [tokens] cannot have returned from this continuation. *)
Ltac no_return H :=
  exfalso; cbv beta iota in H;
  first
    [ discriminate H
    | rewrite exit_with_eq in H;
      match type of H with
      | context [error_line ?t ?i] => destruct (error_line t i); discriminate H
      end ].

(** What is known of the cursor from the calls that returned. *)
Ltac cursor_facts :=
  repeat match goal with
    | H : parse_term _ _ _ = Ret _ _ |- _ => apply term_adv in H
    | H : parse_expr _ _ _ _ = Ret _ _ |- _ => apply expr_adv in H
    | H : parse_expr_loop _ _ _ _ _ = Ret _ _ |- _ => apply expr_loop_adv in H
    | H : parse_scope _ _ _ = Ret _ _ |- _ => apply scope_adv in H
    | H : parse_scope_loop _ _ _ _ = Ret _ _ |- _ => apply scope_loop_adv in H
    | H : parse_if_pred _ _ _ = Ret _ _ |- _ => apply if_pred_adv in H
    | H : parse_stmt _ _ _ = Ret _ _ |- _ => apply stmt_adv in H
    | H : consume _ _ = Ret _ _ |- _ => apply consume_adv in H
    | H : try_consume _ _ _ = Ret _ _ |- _ => apply try_consume_adv in H
    | H : try_consume_err _ _ _ = Ret _ _ |- _ => apply try_consume_err_adv in H
    | H : fold _ _ _ _ = Ret _ _ |- _ => apply fold_adv in H
    | H : peek _ _ _ = Ret _ _ |- _ => apply peek_adv in H
    | H : peek_type _ _ 0 _ = Ret _ _ |- _ => apply (test_adv _ _ 0) in H
    end;
  unfold adv, adv_opt in *; cbv beta iota in *.

Ltac in_range := cursor_facts; lia.

Ltac tr_step :=
  match goal with
  | |- tr _ (bind _ _) (bind _ _) _ _ _ =>
      apply tr_bind; intros ? ? ? ?; split
  | |- tr _ (ret _) (ret _) _ _ _ => apply tr_ret
  | |- tr _ (exit_with _ _ _) _ _ _ _ => apply tr_exit
  | |- tr _ (consume _) (consume _) _ _ _ => apply tr_consume
  | |- tr _ (try_consume_err _ _) (try_consume_err _ _) _ _ _ =>
      apply tr_try_consume_err
  | |- tr _ (fold _ _ _) (fold _ _ _) _ _ _ => apply tr_fold
  | |- tr _ (try_consume _ _) (try_consume _ _) _ _ _ =>
      apply tr_try_consume_in; in_range
  | |- tr _ (peek _ 0) (peek _ 0) _ _ _ => apply tr_peek0_in; in_range
  | |- tr _ (peek_type _ ?t 0) (peek_type _ ?t 0) _ _ _ =>
      apply (tr_peek_type_in t 0); in_range
  | |- tr _ (match ?x with _ => _ end) _ _ _ _ => destruct x eqn:?
  | |- tr _ (if ?b then _ else _) _ _ _ _ => destruct b eqn:?
  end.

(** A sub-call that must have returned a result, by [IH]. *)
Ltac tr_some IH :=
  match goal with
  | Hf : _ = Ret _ _ |- tr _ _ _ _ ?a _ =>
      destruct a; [apply IH|no_return Hf]
  end.

Lemma expr_window n :
  (forall i t j, tr before (parse_term tokens n) (parse_term all n) i (Some t) j) /\
  (forall min_prec i e j,
      tr before (parse_expr tokens n min_prec) (parse_expr all n min_prec)
         i (Some e) j) /\
  (forall min_prec e i e' j,
      i <= List.length tokens ->
      tr before (parse_expr_loop tokens n min_prec e)
         (parse_expr_loop all n min_prec e) i e' j).
Proof.
  induction n as [|n [IHt [IHe IHl]]].
  - repeat split; intros; intro Hrun; discriminate Hrun.
  - repeat split; intros.
    + apply tr_intro. intros H0. apply term_adv in H0. simpl in H0.
      cbn [parse_term].
      repeat first [ tr_step | tr_some IHe ].
    + cbn [parse_expr].
      repeat first [ tr_step | tr_some IHt | apply IHl; in_range ].
    + cbn [parse_expr_loop].
      destruct (Nat.eq_dec i (List.length tokens)) as [->|Hne].
      * intros Hrun. unfold bind, peek in *. rewrite peek_at_0 in *.
        rewrite nth_error_window_end.
        assert (nth_error tokens (List.length tokens) = None) as Hnone
            by (apply nth_error_None; lia).
        rewrite Hnone in Hrun. unfold ret in *. injection Hrun as He Hj. subst.
        destruct (nth_error after 0) as [h|] eqn:Eh; [|reflexivity].
        destruct (quiet h Eh) as [Hq _]. now rewrite Hq.
      * assert (i < List.length tokens) by lia.
        repeat first [ tr_step | tr_some IHe | apply IHl; in_range ].
Qed.

Lemma stmt_window n :
  (forall i sc j, tr before (parse_scope tokens n) (parse_scope all n) i (Some sc) j) /\
  (forall stmts i l j,
      i <= List.length tokens ->
      (exists tok, nth_error tokens j = Some tok /\ type tok = RIGHT_CURLY_BRACKET) ->
      tr before (parse_scope_loop tokens n stmts) (parse_scope_loop all n stmts)
         i l j) /\
  (forall i r j,
      i <= List.length tokens ->
      tr before (parse_if_pred tokens n) (parse_if_pred all n) i r j) /\
  (forall i s j, tr before (parse_stmt tokens n) (parse_stmt all n) i (Some s) j).
Proof.
  induction n as [|n [IHsc [IHsl [IHp IHst]]]].
  - repeat split; intros; intro Hrun; discriminate Hrun.
  - destruct (expr_window n) as [_ [IHe _]].
    repeat split; intros.
    + apply tr_intro. intros H0. apply scope_adv in H0. simpl in H0.
      cbn [parse_scope].
      repeat first
        [ tr_step
        | match goal with
          | Hf : bind (try_consume_err _ _) _ _ = Ret _ _
            |- tr _ (parse_scope_loop _ _ _) _ _ _ _ =>
              apply IHsl; [in_range|exact (closing_brace_next _ _ _ _ Hf)]
          end ].
    + cbn [parse_scope_loop].
      apply tr_bind. intros [s|] i1 Hm Hf.
      * split; [apply IHst|apply IHsl; [in_range|assumption]].
      * pose proof (stmt_adv _ _ _ _ _ Hm) as Hi. simpl in Hi. subst i1.
        injection Hf as Hl Hj. subst j l.
        split; [|apply tr_ret].
        intros _. destruct n as [|n]; [discriminate Hm|].
        match goal with
        | Hb : exists tok, _ |- _ => destruct Hb as [tok [Htok Hty]]
        end.
        apply (stmt_at_closing_brace _ _ _ tok); [|exact Hty].
        rewrite nth_error_window; [exact Htok|].
        apply nth_error_Some. congruence.
    + cbn [parse_if_pred].
      repeat first
        [ match goal with
          | |- tr _ (try_consume _ ELIF) _ _ _ _ =>
              apply tr_try_consume_quiet;
              [in_range|intros h Hh; now destruct (quiet h Hh) as [_ [? _]]]
          | |- tr _ (try_consume _ ELSE) _ _ _ _ =>
              apply tr_try_consume_quiet;
              [in_range|intros h Hh; now destruct (quiet h Hh) as [_ [_ ?]]]
          end
        | tr_step | tr_some IHe | tr_some IHsc | apply IHp; in_range ].
    + apply tr_intro. intros Hrun. pose proof (stmt_adv _ _ _ _ _ Hrun) as H0.
      simpl in H0. cbn [parse_stmt].
      apply tr_bind. intros a i1 Hm Hf. split; [apply tr_peek0_in; lia|].
      pose proof (peek_adv _ _ _ _ _ Hm). subst i1.
      apply peek0_inv in Hm. subst a.
      destruct (nth_error tokens i) as [tok|] eqn:Etok; [|apply tr_ret].
      assert (Hwin : nth_error all (k + i) = Some tok)
        by (rewrite nth_error_window; [exact Etok|lia]).
      clear Hf.
      (* is_return *)
      apply tr_bind. intros x i1 Hm Hf.
      split; [apply (tr_peek_type_in RETURN 0); lia|].
      pose proof (test_adv _ _ 0 _ _ _ Hm). subst i1.
      destruct x.
      { repeat first [ tr_step | tr_some IHe ]. }
      clear Hm Hf.
      (* is_var_decl *)
      apply tr_bind. intros x i1 Hm Hf.
      pose proof (var_decl_test_adv _ _ _ _ Hm). subst i1.
      destruct x.
      { split.
        - repeat (apply tr_and_then_true; intros ? ?; split).
          + apply (tr_peek_type_true VAR 0).
          + apply (tr_peek_type_true IDENTIFIER 1).
          + apply (tr_peek_type_true EQUAL 2).
        - repeat first [ tr_step | tr_some IHe ]. }
      destruct (TokenType_eq_dec (type tok) VAR) as [Ety|Ety].
      { rewrite (stmt_none_var _ _ _ _ Etok Ety Hm) in Hrun. discriminate Hrun. }
      split.
      { intros _. now apply (var_decl_test_false _ _ tok). }
      clear Hm Hf Ety.
      (* is_assign *)
      apply tr_bind. intros x i1 Hm Hf.
      pose proof (assign_test_adv _ _ _ _ Hm). subst i1.
      destruct x.
      { split.
        - repeat (apply tr_and_then_true; intros ? ?; split).
          + apply (tr_peek_type_true IDENTIFIER 0).
          + apply (tr_peek_type_true EQUAL 1).
        - repeat first [ tr_step | tr_some IHe ]. }
      destruct (TokenType_eq_dec (type tok) IDENTIFIER) as [Ety|Ety].
      { rewrite (stmt_none_ident _ _ _ _ Etok Ety Hm) in Hrun. discriminate Hrun. }
      split.
      { intros _. now apply (assign_test_false _ _ tok). }
      clear Hm Hf Ety.
      repeat first [ tr_step | tr_some IHe | tr_some IHsc | apply IHp; in_range ].
Qed.

End Window.

End Locality.

(** ** The token kinds of an AST *)

Module UnparseFacts.

Import Node Unparse.

Lemma parsed_keys_app a b :
  parsed_keys (a ++ b) = parsed_keys a && parsed_keys b.
Proof. apply forallb_app. Qed.

Lemma expr_kinds : forall e, parsed_keys (unparse_expr e) = true.
Proof.
  apply (Grammar.Expr_mut
           (fun t => parsed_keys (unparse_term t) = true)
           (fun v => parsed_keys (unparse_term_var v) = true)
           (fun e => parsed_keys (unparse_expr e) = true)
           (fun v => parsed_keys (unparse_expr_var v) = true)
           (fun b => parsed_keys (unparse_bin b) = true));
    try (intros; assumption); try reflexivity.
  - intros e IH. cbn [unparse_term_var].
    change (parsed_keys (unparse_expr e ++ [kw RIGHT_PARENTHESIS]) = true).
    now rewrite parsed_keys_app, IH.
  - intros l IHl r IHr. cbn [unparse_bin]. now rewrite parsed_keys_app, IHl.
  - intros l IHl r IHr. cbn [unparse_bin]. now rewrite parsed_keys_app, IHl.
  - intros l IHl r IHr. cbn [unparse_bin]. now rewrite parsed_keys_app, IHl.
  - intros l IHl r IHr. cbn [unparse_bin]. now rewrite parsed_keys_app, IHl.
Qed.

Lemma stmt_kinds : forall s, parsed_keys (unparse_stmt s) = true.
Proof.
  apply (NodeFacts.Stmt_nested_ind
           (fun s => parsed_keys (unparse_stmt s) = true)
           (fun sc => parsed_keys (unparse_scope sc) = true)
           (fun p => parsed_keys (unparse_pred p) = true)).
  - intros e. exact (expr_kinds e).
  - intros identifier e. exact (expr_kinds e).
  - intros ident e. exact (expr_kinds e).
  - intros sc IH. exact IH.
  - intros e sc pred IHsc IHp. cbn [unparse_stmt].
    change (parsed_keys
              (unparse_expr e ++ kw RIGHT_PARENTHESIS :: unparse_scope sc
                 ++ match pred with Some p => unparse_pred p | None => [] end)
            = true).
    rewrite parsed_keys_app, (expr_kinds e).
    change (parsed_keys
              (unparse_scope sc
                 ++ match pred with Some p => unparse_pred p | None => [] end)
            = true).
    rewrite parsed_keys_app, IHsc.
    destruct pred as [p|]; [exact (IHp p eq_refl)|reflexivity].
  - intros stmts IH. cbn [unparse_scope].
    change (parsed_keys (flat_map unparse_stmt stmts ++ [kw RIGHT_CURLY_BRACKET])
            = true).
    rewrite parsed_keys_app, andb_true_r.
    induction IH as [|s stmts Hs _ IH]; [reflexivity|].
    cbn [flat_map]. now rewrite parsed_keys_app, Hs.
  - intros e sc next IHsc IHp. cbn [unparse_pred].
    change (parsed_keys
              (unparse_expr e ++ kw RIGHT_PARENTHESIS :: unparse_scope sc
                 ++ match next with Some q => unparse_pred q | None => [] end)
            = true).
    rewrite parsed_keys_app, (expr_kinds e).
    change (parsed_keys
              (unparse_scope sc
                 ++ match next with Some q => unparse_pred q | None => [] end)
            = true).
    rewrite parsed_keys_app, IHsc.
    destruct next as [q|]; [exact (IHp q eq_refl)|reflexivity].
  - intros sc IH. exact IH.
Qed.

Lemma prog_kinds (prog : Prog) : parsed_keys (unparse_prog prog) = true.
Proof.
  destruct prog as [stmts]. unfold unparse_prog. cbn [Node.stmts].
  induction stmts as [|s stmts IH]; [reflexivity|].
  cbn [flat_map]. rewrite parsed_keys_app, (stmt_kinds s). exact IH.
Qed.

End UnparseFacts.

(** ** The tokenizer never runs out of fuel *)

Module TokenizerFacts.

Import Tokenizer.

Lemma skip_line_comment_length src :
  String.length (skip_line_comment src) <= String.length src.
Proof.
  induction src as [|c rest IH]; simpl; [lia|].
  destruct (Ascii.eqb c newline); simpl; lia.
Qed.

Lemma skip_block_comment_length src :
  String.length (skip_block_comment src) <= String.length src.
Proof.
  induction src as [|c rest IH]; simpl; [lia|].
  destruct (Ascii.eqb c "*" && peek_is rest 0 "/"); simpl; lia.
Qed.

Lemma consume_if_any_length src :
  String.length (consume_if_any src) <= String.length src.
Proof. destruct src; simpl; lia. Qed.

Lemma take_while_length p src :
  String.length (snd (take_while p src)) <= String.length src.
Proof.
  induction src as [|c rest IH]; simpl; [lia|].
  destruct (p c); [|simpl; lia].
  destruct (take_while p rest) as [buf rest']. simpl in *. lia.
Qed.

Lemma tokenize_loop_fuel fuel :
  forall src line_count tokens,
    String.length src < fuel ->
    tokenize_loop fuel src line_count tokens <> OutOfFuel.
Proof.
  induction fuel as [|fuel IH]; intros src line_count tokens Hlen; [lia|].
  destruct src as [|c rest]; [discriminate|].
  cbn [tokenize_loop]. simpl String.length in Hlen.
  destruct (Ascii.eqb c "/" && peek_is (String c rest) 1 "/") eqn:Eline.
  { apply IH.
    apply andb_prop in Eline as [Ec _].
    apply Ascii.eqb_eq in Ec. subst c.
    change (skip_line_comment (String "/" rest)) with (skip_line_comment rest).
    pose proof (skip_line_comment_length rest). lia. }
  destruct (Ascii.eqb c "/" && peek_is (String c rest) 1 "*").
  { apply IH.
    pose proof (consume_if_any_length
                  (consume_if_any (skip_block_comment (consume_if_any rest)))).
    pose proof (consume_if_any_length (skip_block_comment (consume_if_any rest))).
    pose proof (skip_block_comment_length (consume_if_any rest)).
    pose proof (consume_if_any_length rest). lia. }
  destruct (isalpha c).
  { pose proof (take_while_length (fun d => isalnum d || Ascii.eqb d "_") rest) as Hw.
    destruct (take_while _ rest) as [more rest']. apply IH. simpl in Hw. lia. }
  destruct (isdigit c).
  { pose proof (take_while_length isdigit rest) as Hw.
    destruct (take_while _ rest) as [more rest']. apply IH. simpl in Hw. lia. }
  destruct (punctuation c); [apply IH; lia|].
  destruct (Ascii.eqb c quote).
  { destruct rest as [|d rest']; [discriminate|].
    destruct (isalnum d); [|discriminate].
    destruct (peek_is rest' 0 quote); [|discriminate].
    apply IH. pose proof (consume_if_any_length rest'). simpl in *. lia. }
  destruct (Ascii.eqb c newline); [apply IH; lia|].
  destruct (isspace c); [apply IH; lia|discriminate].
Qed.

(** The iteration that starts at a quote (lines 218-241). *)
Lemma at_quote fuel rest line_count tokens :
  tokenize_loop (S fuel) (String quote rest) line_count tokens =
  match rest with
  | String d rest' =>
      if isalnum d then
        if peek_is rest' 0 quote then
          tokenize_loop fuel (consume_if_any rest') line_count
            (tokens ++ [mkToken CHAR_LITERAL line_count (Some (String d EmptyString))])
        else Exit (err_closing_quote line_count)
      else Exit (err_valid_char line_count)
  | EmptyString => Exit (err_valid_char line_count)
  end.
Proof. reflexivity. Qed.

(** Newlines between tokens are counted one by one. *)
Lemma newlines_counted n :
  forall fuel src line_count tokens,
    tokenize_loop (n + fuel) (Shape.newlines n ++ src) line_count tokens =
    tokenize_loop fuel src (line_count + Z.of_nat n) tokens.
Proof.
  induction n as [|n IH]; intros fuel src line_count tokens.
  - simpl. now rewrite Z.add_0_r.
  - change (tokenize_loop (S (n + fuel))
              (String newline (Shape.newlines n ++ src)) line_count tokens
            = tokenize_loop fuel src (line_count + Z.of_nat (S n)) tokens).
    cbn [tokenize_loop].
    change (tokenize_loop (n + fuel) (Shape.newlines n ++ src) (line_count + 1) tokens
            = tokenize_loop fuel src (line_count + Z.of_nat (S n)) tokens).
    rewrite IH. f_equal. lia.
Qed.

(** Newlines inside a block comment are skipped with the comment. *)
Lemma newlines_skipped n src :
  skip_block_comment (Shape.newlines n ++ "*/" ++ src) = "*/" ++ src.
Proof. induction n as [|n IH]; [reflexivity|exact IH]. Qed.

Lemma length_newlines n src :
  String.length (Shape.newlines n ++ src) = n + String.length src.
Proof. induction n as [|n IH]; simpl; [reflexivity|now rewrite IH]. Qed.

(** [tokenize] returns a token sequence or exits with a diagnostic. *)
Lemma tokenize_total src : tokenize src <> OutOfFuel.
Proof. apply tokenize_loop_fuel. lia. Qed.

End TokenizerFacts.

(** ** The loop of the tokenizer, iteration by iteration *)

Module LexemeFacts.

Import Tokenizer Lexeme TokenizerFacts.

Lemma iteration_eq fuel c rest line_count tokens :
  tokenize_loop (S fuel) (String c rest) line_count tokens
  = iteration (tokenize_loop fuel) c rest line_count tokens.
Proof. reflexivity. Qed.

Lemma skip_line_comment_slash rest :
  skip_line_comment (String "/" rest) = skip_line_comment rest.
Proof. reflexivity. Qed.

(** What an iteration continues with is shorter than what it started with. *)
Lemma iteration_ext k k' c rest line_count tokens :
  (forall src l a, String.length src <= String.length rest ->
                   k src l a = k' src l a) ->
  iteration k c rest line_count tokens = iteration k' c rest line_count tokens.
Proof.
  intros H. unfold iteration.
  destruct (Ascii.eqb c "/" && peek_is (String c rest) 1 "/") eqn:Eline.
  { apply H. apply andb_prop in Eline as [Ec _].
    apply Ascii.eqb_eq in Ec. subst c. rewrite skip_line_comment_slash.
    apply skip_line_comment_length. }
  destruct (Ascii.eqb c "/" && peek_is (String c rest) 1 "*").
  { apply H.
    pose proof (consume_if_any_length
                  (consume_if_any (skip_block_comment (consume_if_any rest)))).
    pose proof (consume_if_any_length (skip_block_comment (consume_if_any rest))).
    pose proof (skip_block_comment_length (consume_if_any rest)).
    pose proof (consume_if_any_length rest). lia. }
  destruct (isalpha c).
  { pose proof (take_while_length (fun d => isalnum d || Ascii.eqb d "_") rest) as Hw.
    destruct (take_while _ rest) as [more rest']. apply H. exact Hw. }
  destruct (isdigit c).
  { pose proof (take_while_length isdigit rest) as Hw.
    destruct (take_while _ rest) as [more rest']. apply H. exact Hw. }
  destruct (punctuation c); [apply H; lia|].
  destruct (Ascii.eqb c quote).
  { destruct rest as [|d rest']; [reflexivity|].
    destruct (isalnum d); [|reflexivity].
    destruct (peek_is rest' 0 quote); [|reflexivity].
    apply H. pose proof (consume_if_any_length rest'). simpl. lia. }
  destruct (Ascii.eqb c newline); [apply H; lia|].
  destruct (isspace c); [apply H; lia|reflexivity].
Qed.

(** Fuel beyond the length of the text makes no difference. *)
Lemma tokenize_loop_enough fuel :
  forall fuel' src line_count tokens,
    String.length src < fuel -> String.length src < fuel' ->
    tokenize_loop fuel src line_count tokens
    = tokenize_loop fuel' src line_count tokens.
Proof.
  induction fuel as [|fuel IH]; intros fuel' src line_count tokens H H'; [lia|].
  destruct fuel' as [|fuel']; [lia|].
  destruct src as [|c rest]; [reflexivity|].
  rewrite !iteration_eq. apply iteration_ext.
  intros src l a Hlen. simpl in H, H'. apply IH; lia.
Qed.

Lemma resume_nil line_count tokens :
  resume EmptyString line_count tokens = Tokens tokens.
Proof. reflexivity. Qed.

Lemma resume_step c rest line_count tokens :
  resume (String c rest) line_count tokens
  = iteration resume c rest line_count tokens.
Proof.
  unfold resume at 1. rewrite iteration_eq. apply iteration_ext.
  intros src l a Hlen. unfold resume. simpl String.length.
  apply tokenize_loop_enough; lia.
Qed.

Lemma resume_enough fuel src line_count tokens :
  String.length src < fuel ->
  tokenize_loop fuel src line_count tokens = resume src line_count tokens.
Proof. intros H. apply tokenize_loop_enough; [exact H|lia]. Qed.

(** *** What the loop keeps *)

Lemma count_newlines_nonneg s : (0 <= Shape.count_newlines s)%Z.
Proof.
  induction s as [|c rest IH]; simpl; [lia|].
  destruct (Ascii.eqb c newline); lia.
Qed.

Lemma count_skip_line_comment s :
  (Shape.count_newlines (skip_line_comment s) <= Shape.count_newlines s)%Z.
Proof.
  induction s as [|c rest IH]; [simpl; lia|].
  cbn [skip_line_comment]. destruct (Ascii.eqb c newline) eqn:E; [lia|].
  cbn [Shape.count_newlines]. rewrite E. lia.
Qed.

Lemma count_skip_block_comment s :
  (Shape.count_newlines (skip_block_comment s) <= Shape.count_newlines s)%Z.
Proof.
  induction s as [|c rest IH]; [simpl; lia|].
  cbn [skip_block_comment].
  destruct (Ascii.eqb c "*" && peek_is rest 0 "/"); [lia|].
  cbn [Shape.count_newlines]. destruct (Ascii.eqb c newline); lia.
Qed.

Lemma count_consume_if_any s :
  (Shape.count_newlines (consume_if_any s) <= Shape.count_newlines s)%Z.
Proof.
  destruct s as [|c rest]; [simpl; lia|].
  cbn [consume_if_any Shape.count_newlines].
  pose proof (count_newlines_nonneg rest). destruct (Ascii.eqb c newline); lia.
Qed.

Lemma count_take_while p s :
  (Shape.count_newlines (snd (take_while p s)) <= Shape.count_newlines s)%Z.
Proof.
  induction s as [|c rest IH]; [simpl; lia|].
  cbn [take_while]. destruct (p c); [|simpl; lia].
  destruct (take_while p rest) as [buf rest']. cbn [snd] in *.
  cbn [Shape.count_newlines]. destruct (Ascii.eqb c newline); lia.
Qed.

Lemma take_while_all p s : all_chars p (fst (take_while p s)) = true.
Proof.
  induction s as [|c rest IH]; [reflexivity|].
  cbn [take_while]. destruct (p c) eqn:E; [|reflexivity].
  destruct (take_while p rest) as [buf rest']. cbn [fst all_chars] in *.
  now rewrite E, IH.
Qed.

Lemma word_token_line buf l : line (word_token buf l) = l.
Proof.
  unfold word_token.
  repeat match goal with
    | |- context [if ?b then _ else _] => destruct b
    end; reflexivity.
Qed.

Lemma word_token_ok buf l : is_word buf = true -> token_ok (word_token buf l) = true.
Proof.
  intros Hw. unfold word_token.
  destruct (String.eqb buf "int") eqn:E1; [reflexivity|].
  destruct (String.eqb buf "char") eqn:E2; [reflexivity|].
  destruct (String.eqb buf "var") eqn:E3; [reflexivity|].
  destruct (String.eqb buf "func") eqn:E4; [reflexivity|].
  destruct (String.eqb buf "return") eqn:E5; [reflexivity|].
  destruct (String.eqb buf "if") eqn:E6; [reflexivity|].
  destruct (String.eqb buf "elif") eqn:E7; [reflexivity|].
  destruct (String.eqb buf "else") eqn:E8; [reflexivity|].
  unfold token_ok, is_keyword. cbn [type val].
  now rewrite Hw, E1, E2, E3, E4, E5, E6, E7, E8.
Qed.

Lemma lines_from_push l tokens tok :
  lines_from l tokens = true ->
  Forall (fun t => (line t <= line tok)%Z) tokens ->
  (l <= line tok)%Z ->
  lines_from l (tokens ++ [tok]) = true.
Proof.
  revert l. induction tokens as [|t tokens IH]; intros l Hs Hall Hl.
  - cbn. rewrite andb_true_r. now apply Z.leb_le.
  - cbn [lines_from app] in *. apply andb_prop in Hs as [Ht Hs].
    rewrite Ht. cbn [andb].
    apply IH; [exact Hs|now inversion Hall|].
    inversion Hall; assumption.
Qed.

Lemma tokens_ok_push l tokens tok :
  tokens_ok l tokens -> (1 <= l)%Z ->
  token_ok tok = true -> line tok = l ->
  tokens_ok l (tokens ++ [tok]).
Proof.
  intros [Hok [Hs Hall]] Hl Htok Hline. split; [|split].
  - rewrite forallb_app, Hok. cbn. now rewrite Htok.
  - apply lines_from_push; [exact Hs|now rewrite Hline|lia].
  - apply Forall_app. split; [exact Hall|].
    constructor; [lia|constructor].
Qed.

Lemma tokens_ok_le l B tokens :
  tokens_ok l tokens -> (l <= B)%Z -> tokens_ok B tokens.
Proof.
  intros [Hok [Hs Hall]] Hle. split; [exact Hok|split; [exact Hs|]].
  eapply Forall_impl; [|exact Hall]. cbv beta. intros; lia.
Qed.

Lemma loop_keeps fuel :
  forall src line_count tokens B,
    tokens_ok line_count tokens ->
    (1 <= line_count)%Z ->
    (line_count + Shape.count_newlines src <= B)%Z ->
    match tokenize_loop fuel src line_count tokens with
    | Tokens out => tokens_ok B out
    | Exit err => lexical_error B err
    | OutOfFuel => True
    end.
Proof.
  induction fuel as [|fuel IH]; intros src l tokens B Hok Hl HB; [exact I|].
  destruct src as [|c rest].
  { cbn [tokenize_loop]. cbn in HB. apply (tokens_ok_le l); [exact Hok|lia]. }
  assert (Hrest : (Shape.count_newlines rest <= Shape.count_newlines (String c rest))%Z).
  { cbn [Shape.count_newlines]. destruct (Ascii.eqb c newline); lia. }
  pose proof (count_newlines_nonneg rest) as Hnn.
  assert (Herr : forall err,
             err = err_valid_char l \/ err = err_closing_quote l \/
             (exists d, stray d = true /\ err = err_invalid_token d l) ->
             lexical_error B err).
  { intros err H. exists l. split; [lia|exact H]. }
  rewrite iteration_eq. unfold iteration.
  destruct (Ascii.eqb c "/" && peek_is (String c rest) 1 "/") eqn:Eline.
  { apply IH; [exact Hok|exact Hl|].
    pose proof (count_skip_line_comment (String c rest)). lia. }
  destruct (Ascii.eqb c "/" && peek_is (String c rest) 1 "*").
  { apply IH; [exact Hok|exact Hl|].
    pose proof (count_consume_if_any
                  (consume_if_any (skip_block_comment (consume_if_any rest)))).
    pose proof (count_consume_if_any (skip_block_comment (consume_if_any rest))).
    pose proof (count_skip_block_comment (consume_if_any rest)).
    pose proof (count_consume_if_any rest). lia. }
  destruct (isalpha c) eqn:Ealpha.
  { pose proof (count_take_while (fun d => isalnum d || Ascii.eqb d "_") rest) as Hc.
    pose proof (take_while_all (fun d => isalnum d || Ascii.eqb d "_") rest) as Ha.
    destruct (take_while _ rest) as [more rest']. cbn [fst snd] in *.
    apply IH; [|exact Hl|lia].
    apply tokens_ok_push; [exact Hok|exact Hl| |apply word_token_line].
    apply word_token_ok. cbn [is_word]. now rewrite Ealpha. }
  destruct (isdigit c) eqn:Edigit.
  { pose proof (count_take_while isdigit rest) as Hc.
    pose proof (take_while_all isdigit rest) as Ha.
    destruct (take_while _ rest) as [more rest']. cbn [fst snd] in *.
    apply IH; [|exact Hl|lia].
    apply tokens_ok_push; [exact Hok|exact Hl| |reflexivity].
    unfold token_ok. cbn [type val is_number]. now rewrite Edigit. }
  destruct (punctuation c) as [k|] eqn:Epunct.
  { apply IH; [|exact Hl|lia].
    apply tokens_ok_push; [exact Hok|exact Hl| |reflexivity].
    unfold punctuation in Epunct.
    repeat match type of Epunct with
      | (if ?b then _ else _) = _ => destruct b
      end; try discriminate Epunct; now injection Epunct as <-. }
  destruct (Ascii.eqb c quote) eqn:Equote.
  { destruct rest as [|d rest']; [apply Herr; now left|].
    destruct (isalnum d) eqn:Ealnum; [|apply Herr; now left].
    destruct (peek_is rest' 0 quote); [|apply Herr; right; now left].
    apply IH; [|exact Hl|].
    - apply tokens_ok_push; [exact Hok|exact Hl| |reflexivity].
      unfold token_ok. cbn [type val is_char]. exact Ealnum.
    - pose proof (count_consume_if_any rest').
      assert (Shape.count_newlines rest' <= Shape.count_newlines (String d rest'))%Z.
      { cbn [Shape.count_newlines]. pose proof (count_newlines_nonneg rest').
        destruct (Ascii.eqb d newline); lia. }
      lia. }
  destruct (Ascii.eqb c newline) eqn:Enl.
  { apply IH; [apply (tokens_ok_le l); [exact Hok|lia]|lia|].
    cbn [Shape.count_newlines] in HB. rewrite Enl in HB. lia. }
  destruct (isspace c) eqn:Espace.
  { apply IH; [exact Hok|exact Hl|lia]. }
  apply Herr. right. right. exists c. split; [|reflexivity].
  unfold stray. now rewrite Ealpha, Edigit, Epunct, Equote, Espace.
Qed.

Lemma tokenize_keeps src :
  match tokenize src with
  | Tokens out => tokens_ok (1 + Shape.count_newlines src) out
  | Exit err => lexical_error (1 + Shape.count_newlines src) err
  | OutOfFuel => False
  end.
Proof.
  assert (Hinit : tokens_ok 1 []).
  { split; [reflexivity|split; [reflexivity|constructor]]. }
  pose proof (loop_keeps (S (String.length src)) src 1 []
                (1 + Shape.count_newlines src) Hinit ltac:(lia) ltac:(lia)) as Hk.
  pose proof (tokenize_total src) as Ht.
  unfold tokenize in *.
  destruct (tokenize_loop (S (String.length src)) src 1 []);
    [exact Hk|exact Hk|contradiction].
Qed.

Lemma lines_from_lower l tokens tok :
  lines_from l tokens = true -> In tok tokens -> (l <= line tok)%Z.
Proof.
  revert l. induction tokens as [|t tokens IH]; intros l Hs Hin; [contradiction|].
  cbn [lines_from] in Hs. apply andb_prop in Hs as [Hl Hs].
  apply Z.leb_le in Hl. destruct Hin as [->|Hin]; [exact Hl|].
  specialize (IH _ Hs Hin). lia.
Qed.

Lemma tokens_ok_line B tokens tok :
  tokens_ok B tokens -> In tok tokens -> (1 <= line tok <= B)%Z.
Proof.
  intros [_ [Hs Hall]] Hin. split.
  - exact (lines_from_lower 1 tokens tok Hs Hin).
  - rewrite Forall_forall in Hall. exact (Hall tok Hin).
Qed.

(** *** Reading back a rendered token *)

Lemma letter_or_digit_is_no_slash c :
  implb (isalpha c || isdigit c) (negb (Ascii.eqb c "/")) = true.
Proof. destruct c as [[] [] [] [] [] [] [] []]; reflexivity. Qed.

Lemma digit_is_no_letter c : implb (isdigit c) (negb (isalpha c)) = true.
Proof. destruct c as [[] [] [] [] [] [] [] []]; reflexivity. Qed.

Lemma take_while_stops p more d rest :
  all_chars p more = true -> p d = false ->
  take_while p (more ++ String d rest) = (more, String d rest).
Proof.
  intros Hall Hd. induction more as [|c more IH].
  - cbn. now rewrite Hd.
  - cbn [all_chars] in Hall. apply andb_prop in Hall as [Hc Hall].
    cbn [append take_while]. now rewrite Hc, (IH Hall).
Qed.

Lemma word_token_identifier buf l :
  is_keyword buf = false -> word_token buf l = mkToken IDENTIFIER l (Some buf).
Proof.
  unfold is_keyword, word_token. intros H.
  destruct (String.eqb buf "int"); [discriminate H|].
  destruct (String.eqb buf "char"); [discriminate H|].
  destruct (String.eqb buf "var"); [discriminate H|].
  destruct (String.eqb buf "func"); [discriminate H|].
  destruct (String.eqb buf "return"); [discriminate H|].
  destruct (String.eqb buf "if"); [discriminate H|].
  destruct (String.eqb buf "elif"); [discriminate H|].
  destruct (String.eqb buf "else"); [discriminate H|].
  reflexivity.
Qed.

Lemma resume_newlines n :
  forall src l tokens,
    resume (Shape.newlines n ++ src) l tokens
    = resume src (l + Z.of_nat n) tokens.
Proof.
  induction n as [|n IH]; intros src l tokens.
  - cbn [Shape.newlines append]. now rewrite Z.add_0_r.
  - cbn [Shape.newlines append]. rewrite resume_step.
    change (resume (Shape.newlines n ++ src) (l + 1) tokens
            = resume src (l + Z.of_nat (S n)) tokens).
    rewrite IH. f_equal. lia.
Qed.

Lemma resume_space rest l tokens :
  resume (String " " rest) l tokens = resume rest l tokens.
Proof. rewrite resume_step. reflexivity. Qed.

Lemma resume_lexeme tok rest tokens :
  token_ok tok = true ->
  resume (lexeme tok ++ String " " rest) (line tok) tokens
  = resume rest (line tok) (tokens ++ [tok]).
Proof.
  destruct tok as [ty l [s|]]; unfold token_ok, lexeme; cbn [type val line];
    destruct ty; intros Hok; try discriminate Hok;
    try (rewrite <- (resume_space rest); cbn [append];
         rewrite resume_step; reflexivity).
  - (* an identifier *)
    apply andb_prop in Hok as [Hw Hk]. apply negb_true_iff in Hk.
    destruct s as [|c more]; [discriminate Hw|].
    cbn [is_word] in Hw. apply andb_prop in Hw as [Hc Hmore].
    pose proof (letter_or_digit_is_no_slash c) as Hs.
    rewrite Hc in Hs. cbn in Hs. apply negb_true_iff in Hs.
    cbn [append]. rewrite resume_step. unfold iteration.
    rewrite Hs, Hc. cbn [andb].
    change (fun d => isalnum d || Ascii.eqb d "_") with word_char.
    rewrite (take_while_stops word_char more " " rest Hmore eq_refl).
    rewrite (word_token_identifier _ l Hk). apply resume_space.
  - (* an integer literal *)
    destruct s as [|c more]; [discriminate Hok|].
    cbn [is_number] in Hok. apply andb_prop in Hok as [Hc Hmore].
    pose proof (letter_or_digit_is_no_slash c) as Hs.
    rewrite Hc, orb_true_r in Hs. cbn in Hs. apply negb_true_iff in Hs.
    pose proof (digit_is_no_letter c) as Ha.
    rewrite Hc in Ha. cbn in Ha. apply negb_true_iff in Ha.
    cbn [append]. rewrite resume_step. unfold iteration.
    rewrite Hs, Ha, Hc. cbn [andb].
    rewrite (take_while_stops isdigit more " " rest Hmore eq_refl).
    apply resume_space.
  - (* a character literal *)
    destruct s as [|d [|? ?]]; try discriminate Hok.
    cbn [is_char] in Hok. rewrite <- (resume_space rest).
    cbn [append]. rewrite resume_step.
    change (iteration resume quote
              (String d (String quote (String " " rest))) l tokens)
      with (if isalnum d
            then resume (String " " rest) l
                   (tokens ++ [mkToken CHAR_LITERAL l (Some (String d EmptyString))])
            else Exit (err_valid_char l)).
    now rewrite Hok.
Qed.

Lemma resume_render tokens :
  forall l acc,
    forallb token_ok tokens = true -> lines_from l tokens = true ->
    resume (render l tokens) l acc = Tokens (acc ++ tokens).
Proof.
  induction tokens as [|tok tokens IH]; intros l acc Hok Hs.
  - cbn [render]. rewrite resume_nil. now rewrite app_nil_r.
  - cbn [forallb lines_from] in Hok, Hs.
    apply andb_prop in Hok as [Htok Hok]. apply andb_prop in Hs as [Hl Hs].
    apply Z.leb_le in Hl.
    cbn [render]. rewrite resume_newlines.
    replace (l + Z.of_nat (Z.to_nat (line tok - l)))%Z with (line tok) by lia.
    rewrite (resume_lexeme tok _ acc Htok), (IH _ _ Hok Hs).
    now rewrite <- app_assoc.
Qed.

(** *** Comments *)

Lemma skip_block_comment_closed body rest :
  closes_comment body = false ->
  skip_block_comment (body ++ String "*" (String "/" rest))
  = String "*" (String "/" rest).
Proof.
  induction body as [|c more IH]; intros H; [reflexivity|].
  cbn [closes_comment] in H. apply orb_false_elim in H as [Hc Hmore].
  cbn [append skip_block_comment].
  replace (Ascii.eqb c "*" && peek_is (more ++ String "*" (String "/" rest)) 0 "/")
    with false; [exact (IH Hmore)|].
  destruct (Ascii.eqb c "*"); [|reflexivity].
  cbn [andb] in *. destruct more as [|d more']; [reflexivity|].
  symmetry. exact Hc.
Qed.

Lemma skip_block_comment_open body :
  closes_comment body = false -> skip_block_comment body = EmptyString.
Proof.
  induction body as [|c more IH]; intros H; [reflexivity|].
  cbn [closes_comment] in H. apply orb_false_elim in H as [Hc Hmore].
  cbn [skip_block_comment]. rewrite Hc. exact (IH Hmore).
Qed.

Lemma skip_line_comment_to_newline body rest :
  all_chars on_the_line body = true ->
  skip_line_comment (body ++ String newline rest) = String newline rest.
Proof.
  induction body as [|c more IH]; intros H; [reflexivity|].
  cbn [all_chars] in H. apply andb_prop in H as [Hc Hmore].
  unfold on_the_line in Hc. apply negb_true_iff in Hc.
  cbn [append skip_line_comment]. rewrite Hc. exact (IH Hmore).
Qed.

Lemma skip_line_comment_to_end body :
  all_chars on_the_line body = true -> skip_line_comment body = EmptyString.
Proof.
  induction body as [|c more IH]; intros H; [reflexivity|].
  cbn [all_chars] in H. apply andb_prop in H as [Hc Hmore].
  unfold on_the_line in Hc. apply negb_true_iff in Hc.
  cbn [skip_line_comment]. rewrite Hc. exact (IH Hmore).
Qed.

Lemma resume_block_comment body rest l tokens :
  closes_comment body = false ->
  resume (String "/" (String "*" (body ++ String "*" (String "/" rest)))) l tokens
  = resume rest l tokens.
Proof.
  intros H. rewrite resume_step. unfold iteration.
  cbn [Ascii.eqb Bool.eqb andb peek_is peek String.get consume_if_any].
  now rewrite (skip_block_comment_closed body rest H).
Qed.

Lemma resume_open_comment body l tokens :
  closes_comment body = false ->
  resume (String "/" (String "*" body)) l tokens = Tokens tokens.
Proof.
  intros H. rewrite resume_step. unfold iteration.
  cbn [Ascii.eqb Bool.eqb andb peek_is peek String.get consume_if_any].
  now rewrite (skip_block_comment_open body H).
Qed.

Lemma resume_line_comment body rest l tokens :
  all_chars on_the_line body = true ->
  resume (String "/" (String "/" (body ++ String newline rest))) l tokens
  = resume rest (l + 1) tokens.
Proof.
  intros H. rewrite resume_step. unfold iteration.
  cbn [Ascii.eqb Bool.eqb andb peek_is peek String.get].
  rewrite !skip_line_comment_slash, (skip_line_comment_to_newline body rest H).
  rewrite resume_step. reflexivity.
Qed.

Lemma resume_last_line_comment body l tokens :
  all_chars on_the_line body = true ->
  resume (String "/" (String "/" body)) l tokens = Tokens tokens.
Proof.
  intros H. rewrite resume_step. unfold iteration.
  cbn [Ascii.eqb Bool.eqb andb peek_is peek String.get].
  now rewrite !skip_line_comment_slash, (skip_line_comment_to_end body H).
Qed.

End LexemeFacts.

(** ** The earlier tokenizer *)

Module LegacyFacts.

Import Lexeme TokenizerFacts.

Lemma take_while_split p s :
  s = fst (Tokenizer.take_while p s) ++ snd (Tokenizer.take_while p s).
Proof.
  induction s as [|c rest IH]; [reflexivity|].
  cbn [Tokenizer.take_while]. destruct (p c); [|reflexivity].
  destruct (Tokenizer.take_while p rest) as [buf rest']. cbn [fst snd append] in *.
  now rewrite <- IH.
Qed.

Lemma all_known_app a b :
  Legacy.all_known (a ++ b) = Legacy.all_known a && Legacy.all_known b.
Proof.
  induction a as [|c a IH]; [reflexivity|].
  cbn [append Legacy.all_known]. now rewrite IH, andb_assoc.
Qed.

Lemma all_known_chars p s :
  (forall c, p c = true -> Legacy.known c = true) ->
  all_chars p s = true -> Legacy.all_known s = true.
Proof.
  intros Hp. induction s as [|c rest IH]; [reflexivity|].
  cbn [all_chars Legacy.all_known]. intros H. apply andb_prop in H as [Hc Hrest].
  now rewrite (Hp c Hc), (IH Hrest).
Qed.

(** What [take_while] leaves holds an unknown character exactly when the
    text did. *)
Lemma all_known_taken p s :
  (forall c, p c = true -> Legacy.known c = true) ->
  Legacy.all_known (snd (Tokenizer.take_while p s)) = Legacy.all_known s.
Proof.
  intros Hp. rewrite (take_while_split p s) at 2. rewrite all_known_app.
  now rewrite (all_known_chars p _ Hp (LexemeFacts.take_while_all p s)).
Qed.

Lemma alnum_known c : isalnum c = true -> Legacy.known c = true.
Proof.
  unfold isalnum, Legacy.known. intros H. now rewrite H.
Qed.

Lemma digit_known c : isdigit c = true -> Legacy.known c = true.
Proof.
  unfold Legacy.known. intros H. rewrite H. now rewrite orb_true_r.
Qed.

Lemma newline_is_space c : Ascii.eqb c newline = true -> isspace c = true.
Proof. intros H. apply Ascii.eqb_eq in H. now subst. Qed.

Lemma legacy_loop fuel :
  forall src tokens,
    String.length src < fuel ->
    if Legacy.all_known src
    then exists out, Legacy.tokenize_loop fuel src tokens = Legacy.Tokens out
    else Legacy.tokenize_loop fuel src tokens = Legacy.Undefined.
Proof.
  induction fuel as [|fuel IH]; intros src tokens Hlen; [lia|].
  destruct src as [|c rest]; [now exists tokens|].
  cbn [Legacy.tokenize_loop Legacy.all_known]. unfold Legacy.known.
  simpl String.length in Hlen.
  destruct (isalpha c) eqn:Ealpha.
  { cbn [orb andb].
    pose proof (take_while_length isalnum rest) as Hw.
    pose proof (all_known_taken isalnum rest alnum_known) as Hk.
    destruct (Tokenizer.take_while isalnum rest) as [more rest'].
    cbn [snd] in *. rewrite <- Hk. apply IH. lia. }
  destruct (isdigit c) eqn:Edigit.
  { cbn [orb andb].
    pose proof (take_while_length isdigit rest) as Hw.
    pose proof (all_known_taken isdigit rest digit_known) as Hk.
    destruct (Tokenizer.take_while isdigit rest) as [more rest'].
    cbn [snd] in *. rewrite <- Hk. apply IH. lia. }
  destruct (Legacy.punctuation c) as [k|]; [cbn [orb andb]; apply IH; lia|].
  destruct (isspace c) eqn:Espace; [cbn [orb andb]; apply IH; lia|].
  cbn [orb andb].
  destruct (Ascii.eqb c newline) eqn:Enl; [|reflexivity].
  rewrite (newline_is_space c Enl) in Espace. discriminate Espace.
Qed.

(** *** The tokenizer of [tokenizer.cpp] on the same texts *)

Lemma known_suffix_line s :
  Legacy.all_known s = true ->
  Legacy.all_known (Tokenizer.skip_line_comment s) = true.
Proof.
  induction s as [|c rest IH]; [reflexivity|]. intros H.
  cbn [Tokenizer.skip_line_comment]. destruct (Ascii.eqb c newline); [exact H|].
  cbn [Legacy.all_known] in H. apply andb_prop in H as [_ H]. exact (IH H).
Qed.

Lemma known_suffix_block s :
  Legacy.all_known s = true ->
  Legacy.all_known (Tokenizer.skip_block_comment s) = true.
Proof.
  induction s as [|c rest IH]; [reflexivity|]. intros H.
  cbn [Tokenizer.skip_block_comment].
  destruct (Ascii.eqb c "*" && Tokenizer.peek_is rest 0 "/"); [exact H|].
  cbn [Legacy.all_known] in H. apply andb_prop in H as [_ H]. exact (IH H).
Qed.

Lemma known_suffix_consume s :
  Legacy.all_known s = true ->
  Legacy.all_known (Tokenizer.consume_if_any s) = true.
Proof.
  destruct s as [|c rest]; [reflexivity|]. cbn [Legacy.all_known]. intros H.
  now apply andb_prop in H as [_ H].
Qed.

Lemma known_suffix_taken p s :
  Legacy.all_known s = true ->
  Legacy.all_known (snd (Tokenizer.take_while p s)) = true.
Proof.
  induction s as [|c rest IH]; [reflexivity|]. intros H.
  cbn [Tokenizer.take_while]. destruct (p c); [|exact H].
  cbn [Legacy.all_known] in H. apply andb_prop in H as [_ H].
  specialize (IH H). now destruct (Tokenizer.take_while p rest).
Qed.

Lemma known_is_no_quote c :
  implb (Legacy.known c) (negb (Ascii.eqb c quote)) = true.
Proof. destruct c as [[] [] [] [] [] [] [] []]; reflexivity. Qed.

Lemma known_is_not_stray c :
  implb (Legacy.known c) (negb (stray c)) = true.
Proof. destruct c as [[] [] [] [] [] [] [] []]; reflexivity. Qed.

Lemma current_loop fuel :
  forall src l tokens,
    Legacy.all_known src = true ->
    match Tokenizer.tokenize_loop fuel src l tokens with
    | Tokenizer.Exit _ => False
    | _ => True
    end.
Proof.
  induction fuel as [|fuel IH]; intros src l tokens Hk; [exact I|].
  destruct src as [|c rest]; [exact I|].
  pose proof Hk as Hk'. cbn [Legacy.all_known] in Hk'.
  apply andb_prop in Hk' as [Hc Hrest].
  rewrite LexemeFacts.iteration_eq. unfold iteration.
  destruct (Ascii.eqb c "/" && Tokenizer.peek_is (String c rest) 1 "/").
  { apply IH. now apply known_suffix_line. }
  destruct (Ascii.eqb c "/" && Tokenizer.peek_is (String c rest) 1 "*").
  { apply IH. now repeat apply known_suffix_consume; apply known_suffix_block,
                    known_suffix_consume. }
  destruct (isalpha c) eqn:Ealpha.
  { pose proof (known_suffix_taken (fun d => isalnum d || Ascii.eqb d "_") rest Hrest).
    destruct (Tokenizer.take_while _ rest) as [more rest']. now apply IH. }
  destruct (isdigit c) eqn:Edigit.
  { pose proof (known_suffix_taken isdigit rest Hrest).
    destruct (Tokenizer.take_while _ rest) as [more rest']. now apply IH. }
  destruct (Tokenizer.punctuation c) as [k|] eqn:Epunct; [now apply IH|].
  pose proof (known_is_no_quote c) as Hq. rewrite Hc in Hq. cbn [implb] in Hq.
  apply negb_true_iff in Hq. rewrite Hq.
  destruct (Ascii.eqb c newline); [now apply IH|].
  destruct (isspace c) eqn:Espace; [now apply IH|].
  pose proof (known_is_not_stray c) as Hs. rewrite Hc in Hs. cbn [implb] in Hs.
  apply negb_true_iff in Hs. unfold stray in Hs.
  rewrite Ealpha, Edigit, Epunct, Hq, Espace in Hs. discriminate Hs.
Qed.

End LegacyFacts.

(** * The claims *)

Import Parser ParserLogic ParserFacts Shape.

(** ** Tokenizer *)

(** C2 (the code departs from the claim): newlines inside a block comment
    do not increment the line counter.  For the text "/*", newline, "*/x",
    one newline precedes the identifier, yet its token carries line 1, not
    line 2; more generally, after a block comment holding [n] newlines the
    token still carries line 1, whereas after [n] newlines outside a comment
    it carries line 1 + [n], as the claim says. *)
Theorem block_comment_newline_not_counted :
  count_newlines ("/*" ++ String newline "*/") = 1%Z /\
  Tokenizer.tokenize ("/*" ++ String newline "*/x")
    = Tokenizer.Tokens [ident 1 "x"] /\
  (forall n,
      count_newlines ("/*" ++ newlines n ++ "*/") = Z.of_nat n /\
      Tokenizer.tokenize ("/*" ++ newlines n ++ "*/x")
        = Tokenizer.Tokens [ident 1 "x"] /\
      Tokenizer.tokenize (newlines n ++ "x")
        = Tokenizer.Tokens [ident (1 + Z.of_nat n) "x"]).
Proof.
  split; [reflexivity|]. split; [reflexivity|].
  intros n. split; [|split].
  - change (count_newlines ("/*" ++ newlines n ++ "*/"))
      with (0 + (0 + count_newlines (newlines n ++ "*/")))%Z.
    induction n as [|n IH]; [reflexivity|].
    change (count_newlines (newlines (S n) ++ "*/"))
      with (1 + count_newlines (newlines n ++ "*/"))%Z.
    lia.
  - unfold Tokenizer.tokenize.
    change (String.length ("/*" ++ newlines n ++ "*/x"))
      with (S (S (String.length (newlines n ++ "*/x")))).
    rewrite TokenizerFacts.length_newlines.
    replace (S (S (S (n + String.length "*/x")))) with (S (S (S (n + 3))))
      by reflexivity.
    change (Tokenizer.tokenize_loop (S (S (S (n + 3)))) ("/*" ++ newlines n ++ "*/x") 1 [])
      with (Tokenizer.tokenize_loop (S (S (n + 3)))
              (Tokenizer.consume_if_any
                 (Tokenizer.consume_if_any
                    (Tokenizer.skip_block_comment (newlines n ++ "*/" ++ "x"))))
              1 []).
    rewrite TokenizerFacts.newlines_skipped. reflexivity.
  - unfold Tokenizer.tokenize. rewrite TokenizerFacts.length_newlines.
    replace (S (n + String.length "x")) with (n + 2) by (simpl; lia).
    rewrite TokenizerFacts.newlines_counted. reflexivity.
Qed.

(** C5, as stated, fails: a character literal whose closing quote is missing
    exits with the diagnostic "expected `'`", which is not "expected a valid
    char"; and a quote inside a comment is no error at all. *)
Lemma missing_closing_quote_has_its_own_diagnostic :
  Tokenizer.tokenize "'a" = Tokenizer.Exit "[Error] expected `'` on line 1" /\
  (forall N, Tokenizer.tokenize "'a"
             <> Tokenizer.Exit ("[Error] expected a valid char on line " ++ show_int N)) /\
  Tokenizer.tokenize "//'" = Tokenizer.Tokens [].
Proof.
  repeat split; try reflexivity.
  intros N H. vm_compute in H. discriminate H.
Qed.

(** C5, amended: when the scan loop is at a quote (the unread input is a
    quote followed by [rest], the current line is [line_count]), then
    - if [rest] is empty or starts with a character that is not
      alphanumeric, the process exits with
      "[Error] expected a valid char on line <line_count>";
    - if [rest] starts with an alphanumeric character that is not followed
      by a quote, the process exits with
      "[Error] expected `'` on line <line_count>";
    in both cases no token sequence is produced.  In particular, for an
    input that consists of [n] newlines followed by such a quote, the
    diagnostic reports line 1 + [n]. *)
Theorem malformed_char_literal_is_fatal :
  (forall fuel rest line_count tokens,
      match rest with
      | EmptyString => True
      | String d _ => isalnum d = false
      end ->
      Tokenizer.tokenize_loop (S fuel) (String quote rest) line_count tokens
      = Tokenizer.Exit ("[Error] expected a valid char on line " ++ show_int line_count)) /\
  (forall fuel d rest line_count tokens,
      isalnum d = true ->
      Tokenizer.peek rest 0 <> Some quote ->
      Tokenizer.tokenize_loop (S fuel) (String quote (String d rest)) line_count tokens
      = Tokenizer.Exit ("[Error] expected `'` on line " ++ show_int line_count)) /\
  (forall n rest,
      match rest with
      | EmptyString => True
      | String d _ => isalnum d = false
      end ->
      Tokenizer.tokenize (newlines n ++ String quote rest)
      = Tokenizer.Exit ("[Error] expected a valid char on line "
                          ++ show_int (1 + Z.of_nat n))) /\
  (forall n d rest,
      isalnum d = true ->
      Tokenizer.peek rest 0 <> Some quote ->
      Tokenizer.tokenize (newlines n ++ String quote (String d rest))
      = Tokenizer.Exit ("[Error] expected `'` on line " ++ show_int (1 + Z.of_nat n))).
Proof.
  assert (H1 : forall fuel rest line_count tokens,
      match rest with
      | EmptyString => True
      | String d _ => isalnum d = false
      end ->
      Tokenizer.tokenize_loop (S fuel) (String quote rest) line_count tokens
      = Tokenizer.Exit (Tokenizer.err_valid_char line_count)).
  { intros fuel rest line_count tokens H.
    rewrite TokenizerFacts.at_quote.
    destruct rest as [|d rest']; [reflexivity|].
    rewrite H. reflexivity. }
  assert (H2 : forall fuel d rest line_count tokens,
      isalnum d = true ->
      Tokenizer.peek rest 0 <> Some quote ->
      Tokenizer.tokenize_loop (S fuel) (String quote (String d rest)) line_count tokens
      = Tokenizer.Exit (Tokenizer.err_closing_quote line_count)).
  { intros fuel d rest line_count tokens Hd Hq.
    rewrite TokenizerFacts.at_quote, Hd.
    assert (Tokenizer.peek_is rest 0 quote = false) as ->; [|reflexivity].
    unfold Tokenizer.peek_is. destruct (Tokenizer.peek rest 0) as [c|]; [|reflexivity].
    destruct (Ascii.eqb_spec c quote); [subst; congruence|reflexivity]. }
  assert (Hstart : forall n src,
             Tokenizer.tokenize (newlines n ++ String quote src) =
             Tokenizer.tokenize_loop (S (S (String.length src)))
               (String quote src) (1 + Z.of_nat n) []).
  { intros n src. unfold Tokenizer.tokenize.
    rewrite TokenizerFacts.length_newlines.
    replace (S (n + String.length (String quote src)))
      with (n + S (S (String.length src))) by (simpl; lia).
    apply TokenizerFacts.newlines_counted. }
  split; [|split; [|split]].
  - exact H1.
  - exact H2.
  - intros n rest H. rewrite Hstart. exact (H1 _ rest _ [] H).
  - intros n d rest Hd Hq. rewrite Hstart. exact (H2 _ d rest _ [] Hd Hq).
Qed.

Lemma malformed_char_literal_is_fatal_witness :
  Tokenizer.tokenize_loop 3 (String quote "+'") 4 [ident 1 "x"]
    = Tokenizer.Exit "[Error] expected a valid char on line 4" /\
  Tokenizer.tokenize_loop 3 (String quote "ab'") 4 [ident 1 "x"]
    = Tokenizer.Exit "[Error] expected `'` on line 4" /\
  Tokenizer.tokenize (newlines 2 ++ String quote "")
    = Tokenizer.Exit "[Error] expected a valid char on line 3" /\
  Tokenizer.tokenize (newlines 0 ++ String quote "a")
    = Tokenizer.Exit "[Error] expected `'` on line 1".
Proof.
  destruct malformed_char_literal_is_fatal as [H1 [H2 [H3 H4]]].
  split; [|split; [|split]].
  - apply (H1 2 "+'" 4%Z). reflexivity.
  - apply (H2 2 "a"%char "b'" 4%Z); [reflexivity|discriminate].
  - apply (H3 2 ""). exact I.
  - apply (H4 0 "a"%char ""); [reflexivity|discriminate].
Defined.

(** ** Expressions *)

Lemma parse_expr_more_fuel tokens n m min_prec i r j :
  parse_expr tokens n min_prec i = Ret r j -> n <= m ->
  parse_expr tokens m min_prec i = Ret r j.
Proof.
  intros H Hle.
  destruct (expr_fuel_mono tokens n m Hle) as [_ [He _]].
  exact (refines_ret _ _ _ _ _ (He min_prec) H).
Qed.

(** C3: [+] and [-] bind at precedence 0, [*] and [/] at precedence 1; an
    operator whose precedence is below the current minimum stops the folding
    loop, which returns the expression folded so far without consuming the
    operator; and the tokens of "2 + 3 * 4" parse to
    Add(IntegerLiteral 2, Mul(IntegerLiteral 3, IntegerLiteral 4)). *)
Theorem precedence_of_2_plus_3_times_4 :
  (bin_prec PLUS = Some 0%Z /\ bin_prec MINUS = Some 0%Z /\
   bin_prec STAR = Some 1%Z /\ bin_prec SLASH = Some 1%Z) /\
  (forall tokens fuel min_prec expr i tok prec,
      nth_error tokens i = Some tok ->
      bin_prec (type tok) = Some prec ->
      (prec < min_prec)%Z ->
      parse_expr_loop tokens (S fuel) min_prec expr i = Ret expr i) /\
  Tokenizer.tokenize "2 + 3 * 4" = Tokenizer.Tokens tokens_2_plus_3_times_4 /\
  (forall fuel, 12 <= fuel ->
      parse_expr tokens_2_plus_3_times_4 fuel 0 0 =
      Ret (Some (add (lit (int_lit 1 "2") NONE)
                     (mul (lit (int_lit 1 "3") NONE)
                          (lit (int_lit 1 "4") INT)
                          INT)
                     INT))
          5).
Proof.
  split; [|split; [|split]].
  - repeat split.
  - intros tokens fuel min_prec expr i tok prec Htok Hprec Hlt.
    apply loop_stop. now rewrite Htok, Hprec.
  - reflexivity.
  - intros fuel Hfuel.
    apply (parse_expr_more_fuel _ 12); [reflexivity|exact Hfuel].
Qed.

Lemma precedence_of_2_plus_3_times_4_witness :
  parse_expr_loop tokens_2_plus_3_times_4 (S 0) 1 (lit (int_lit 1 "2") INT) 1
    = Ret (lit (int_lit 1 "2") INT) 1 /\
  parse_expr tokens_2_plus_3_times_4 12 0 0 =
    Ret (Some (add (lit (int_lit 1 "2") NONE)
                   (mul (lit (int_lit 1 "3") NONE) (lit (int_lit 1 "4") INT) INT)
                   INT))
        5.
Proof.
  destruct precedence_of_2_plus_3_times_4 as [_ [Hstop [_ Htree]]].
  split.
  - apply (Hstop _ 0 1%Z _ 1 (punct 1 PLUS) 0%Z); [reflexivity|reflexivity|lia].
  - apply (Htree 12). lia.
Defined.

(** C4: operators of one level associate to the left.  After consuming an
    operator of precedence [prec] the loop parses the right operand with
    minimum precedence [prec + 1]; an expression parsed with a minimum ends
    before any operator binding at least that much, so the right operand
    does not take a following operator of the same level; and the tokens of
    "8 - 3 - 2" parse to Sub(Sub(8, 3), 2). *)
Theorem left_associativity_of_8_minus_3_minus_2 :
  (forall tokens n min_prec expr i op prec,
      nth_error tokens i = Some op ->
      bin_prec (type op) = Some prec ->
      (min_prec <= prec)%Z ->
      parse_expr_loop tokens (S n) min_prec expr i =
      bind (parse_expr tokens n (prec + 1)%Z)
           (after_rside tokens n min_prec expr op) (S i)) /\
  (forall tokens n min_prec i e j tok prec,
      parse_expr tokens n min_prec i = Ret (Some e) j ->
      nth_error tokens j = Some tok ->
      bin_prec (type tok) = Some prec ->
      (prec < min_prec)%Z) /\
  Tokenizer.tokenize "8 - 3 - 2" = Tokenizer.Tokens tokens_8_minus_3_minus_2 /\
  (forall fuel, 12 <= fuel ->
      parse_expr tokens_8_minus_3_minus_2 fuel 0 0 =
      Ret (Some (sub (sub (lit (int_lit 1 "8") NONE)
                          (lit (int_lit 1 "3") INT)
                          NONE)
                     (lit (int_lit 1 "2") INT)
                     INT))
          5).
Proof.
  split; [|split; [|split]].
  - intros. now apply loop_step.
  - intros tokens n min_prec i e j tok prec Hparse Htok Hprec.
    destruct (expr_stops tokens n) as [He _].
    exact (wp_returned _ _ _ _ _ _ (He min_prec i) Hparse tok prec Htok Hprec).
  - reflexivity.
  - intros fuel Hfuel.
    apply (parse_expr_more_fuel _ 12); [reflexivity|exact Hfuel].
Qed.

Lemma left_associativity_of_8_minus_3_minus_2_witness :
  parse_expr_loop tokens_8_minus_3_minus_2 (S 11) 0 (lit (int_lit 1 "8") INT) 1 =
    bind (parse_expr tokens_8_minus_3_minus_2 11 (0 + 1)%Z)
         (after_rside tokens_8_minus_3_minus_2 11 0 (lit (int_lit 1 "8") INT)
                      (punct 1 MINUS)) 2 /\
  (0 < 0 + 1)%Z /\
  parse_expr tokens_8_minus_3_minus_2 12 0 0 =
    Ret (Some (sub (sub (lit (int_lit 1 "8") NONE) (lit (int_lit 1 "3") INT) NONE)
                   (lit (int_lit 1 "2") INT)
                   INT))
        5.
Proof.
  destruct left_associativity_of_8_minus_3_minus_2 as [Hstep [Hstop [_ Htree]]].
  split; [|split].
  - apply (Hstep _ 11 0%Z _ 1 (punct 1 MINUS) 0%Z); [reflexivity|reflexivity|lia].
  - apply (Hstop tokens_8_minus_3_minus_2 11 (0 + 1)%Z 2
                 (lit (int_lit 1 "3") INT) 3 (punct 1 MINUS) 0%Z);
      reflexivity.
  - apply (Htree 12). lia.
Defined.

Lemma never_a_type_error {A} (m : M A) i (Q : A -> nat -> Prop) msg l :
  wp no_type_error m i Q -> m i <> Exit (parse_error "wrong operation :" msg l).
Proof.
  unfold wp. intros Hwp E. rewrite E in Hwp. apply Hwp. now exists msg, l.
Qed.

(** C9: for every token sequence, the type-mismatch branch of [parse_expr]
    is not reachable.  [parse_term] tags an integer literal [INT], an
    identifier [NONE] ([to_variable_type] maps [IDENTIFIER] to [NONE]) and a
    parenthesised term with the tag of the inner expression; every
    expression [parse_expr] returns is tagged [NONE] or [INT]; the guard
    "both tags concrete and unequal" is false for such tags; and no run of
    [parse_prog] or of any of the parsing methods, from any cursor, exits
    with a "wrong operation" diagnostic. *)
Theorem type_mismatch_is_unreachable :
  to_variable_type IDENTIFIER = NONE /\
  (forall tokens n i t j,
      parse_term tokens n i = Ret (Some t) j ->
      match t with
      | Node.mkTerm (Node.TermIntegerLiteral _) tag => tag = INT
      | Node.mkTerm (Node.TermIdentifier _) tag => tag = NONE
      | Node.mkTerm (Node.TermParen e) tag => tag = Node.Expr_type e
      end) /\
  (forall tokens n min_prec i e j,
      parse_expr tokens n min_prec i = Ret (Some e) j ->
      Node.Expr_type e = NONE \/ Node.Expr_type e = INT) /\
  (forall l r, (l = NONE \/ l = INT) -> (r = NONE \/ r = INT) ->
               type_mismatch l r = false) /\
  (forall tokens n min_prec i msg l,
      parse_expr tokens n min_prec i
      <> Exit (parse_error "wrong operation :" msg l)) /\
  (forall tokens n i msg l,
      parse_term tokens n i <> Exit (parse_error "wrong operation :" msg l) /\
      parse_stmt tokens n i <> Exit (parse_error "wrong operation :" msg l) /\
      parse_scope tokens n i <> Exit (parse_error "wrong operation :" msg l) /\
      parse_if_pred tokens n i <> Exit (parse_error "wrong operation :" msg l)) /\
  (forall tokens n stmts i msg l,
      parse_prog_loop tokens n stmts i
      <> Exit (parse_error "wrong operation :" msg l)) /\
  (forall tokens msg l,
      parse_prog tokens <> Exit (parse_error "wrong operation :" msg l)).
Proof.
  split; [reflexivity|].
  split; [|split; [|split; [|split; [|split; [|split]]]]].
  - intros tokens n i t j H.
    exact (wp_returned _ _ _ _ _ _ (term_tagging tokens n i) H).
  - intros tokens n min_prec i e j H.
    destruct (expr_tags tokens n) as [_ [He _]].
    exact (wp_returned _ _ _ _ _ _ (He min_prec i) H).
  - intros l r. apply tags_never_mismatch.
  - intros tokens n min_prec i msg l.
    destruct (expr_tags tokens n) as [_ [He _]].
    exact (never_a_type_error _ _ _ _ _ (He min_prec i)).
  - intros tokens n i msg l.
    destruct (expr_tags tokens n) as [Ht _].
    destruct (stmt_tags tokens n) as [Hsc [_ [Hp Hst]]].
    split; [|split; [|split]].
    + exact (never_a_type_error _ _ _ _ _ (Ht i)).
    + exact (never_a_type_error _ _ _ _ _ (Hst i)).
    + exact (never_a_type_error _ _ _ _ _ (Hsc i)).
    + exact (never_a_type_error _ _ _ _ _ (Hp i)).
  - intros tokens n stmts i msg l.
    exact (never_a_type_error _ _ _ _ _ (prog_tags tokens n stmts i)).
  - intros tokens msg l.
    exact (never_a_type_error _ _ _ _ _ (prog_tags tokens _ [] 0)).
Qed.

Lemma type_mismatch_is_unreachable_witness :
  match Node.mkTerm (Node.TermIdentifier (ident 1 "x")) NONE with
  | Node.mkTerm (Node.TermIntegerLiteral _) tag => tag = INT
  | Node.mkTerm (Node.TermIdentifier _) tag => tag = NONE
  | Node.mkTerm (Node.TermParen e) tag => tag = Node.Expr_type e
  end /\
  (Node.Expr_type (lit (int_lit 1 "1") INT) = NONE \/
   Node.Expr_type (lit (int_lit 1 "1") INT) = INT) /\
  type_mismatch NONE INT = false.
Proof.
  destruct type_mismatch_is_unreachable as [_ [Hterm [Htag [Hguard _]]]].
  split; [|split].
  - apply (Hterm tokens_x_plus_1 1 0
                 (Node.mkTerm (Node.TermIdentifier (ident 1 "x")) NONE) 1).
    reflexivity.
  - apply (Htag tokens_1_plus_x 3 1%Z 0 (lit (int_lit 1 "1") INT) 1).
    reflexivity.
  - apply Hguard; [left|right]; reflexivity.
Defined.

(** C1, as stated, fails: the tokens of "x + 1" parse to an [Add] node
    folded from a term tagged [NONE] and a term tagged [INT]; the join of
    these tags is [INT], but the expression is tagged [NONE]. *)
Lemma tag_is_not_the_join :
  Tokenizer.tokenize "x + 1" = Tokenizer.Tokens tokens_x_plus_1 /\
  parse_expr tokens_x_plus_1 8 0 0 =
    Ret (Some (add (var (ident 1 "x") NONE) (lit (int_lit 1 "1") INT) NONE)) 3 /\
  spec_join_all
    (term_tags (add (var (ident 1 "x") NONE) (lit (int_lit 1 "1") INT) NONE))
    = Some INT /\
  ~ (forall tokens n min_prec i e j,
        parse_expr tokens n min_prec i = Ret (Some e) j ->
        spec_join_all (term_tags e) = Some (Node.Expr_type e)).
Proof.
  split; [reflexivity|]. split; [reflexivity|]. split; [reflexivity|].
  intros H.
  specialize (H tokens_x_plus_1 8 0%Z 0 _ _ eq_refl).
  discriminate H.
Qed.

Lemma loop_keeps_tag tokens n :
  forall min_prec e i,
    wp anything (parse_expr_loop tokens n min_prec e) i
       (fun e' _ => Node.Expr_type e' = Node.Expr_type e).
Proof.
  induction n as [|n IH]; intros; [exact I|].
  cbn [parse_expr_loop]. apply wp_bind, wp_peek0.
  destruct (nth_error tokens i) as [tok|] eqn:Etok; [|now apply wp_ret].
  destruct (bin_prec (type tok)) as [prec|] eqn:Eprec; [|now apply wp_ret].
  destruct (prec <? min_prec)%Z; [now apply wp_ret|].
  apply wp_bind, wp_consume; [|intros; exact I].
  intros op Hop _. assert (op = tok) as -> by congruence.
  apply wp_bind.
  eapply wp_weaken; [apply wp_anything| |trivial..].
  intros [rside|] j _; [|now apply wp_exit_with].
  destruct (type_mismatch (Node.Expr_type e) (Node.Expr_type rside));
    [now apply wp_exit_with|].
  apply wp_bind. eapply wp_fold; [exact Eprec|]. intros b Hb.
  eapply wp_weaken; [apply IH| |trivial..].
  intros e' j' H. exact H.
Qed.

(** C1, amended: the tag of the expression [parse_expr] returns is the tag
    of its leftmost term, since the tag is set from the first term and the
    folding loop never changes it.  When the loop folds the expression so
    far with a right operand and one of the two tags is [NONE], the type
    check passes and the loop goes on with the folded node, tagged as the
    left operand was: the tokens of "1 + x" give an expression tagged
    [INT], those of "x + 1" one tagged [NONE]. *)
Theorem tag_is_leftmost_term_tag :
  (forall tokens n min_prec i e j,
      parse_expr tokens n min_prec i = Ret (Some e) j ->
      Node.Expr_type e = Node.Term_type (leftmost e)) /\
  (forall tokens n min_prec e i e' j,
      parse_expr_loop tokens n min_prec e i = Ret e' j ->
      Node.Expr_type e' = Node.Expr_type e) /\
  (forall tokens n min_prec expr i op prec rside j,
      nth_error tokens i = Some op ->
      bin_prec (type op) = Some prec ->
      (min_prec <= prec)%Z ->
      parse_expr tokens n (prec + 1)%Z (S i) = Ret (Some rside) j ->
      Node.Expr_type expr = NONE \/ Node.Expr_type rside = NONE ->
      exists b,
        bin_node (type op) (Node.mkExpr (Node.Expr_var expr) NONE) rside = Some b /\
        parse_expr_loop tokens (S n) min_prec expr i =
          parse_expr_loop tokens n min_prec
            (Node.mkExpr (Node.OfBinExpr b) (Node.Expr_type expr)) j) /\
  parse_expr tokens_1_plus_x 8 0 0 =
    Ret (Some (add (lit (int_lit 1 "1") NONE) (var (ident 1 "x") NONE) INT)) 3 /\
  parse_expr tokens_x_plus_1 8 0 0 =
    Ret (Some (add (var (ident 1 "x") NONE) (lit (int_lit 1 "1") INT) NONE)) 3.
Proof.
  split; [|split; [|split; [|split]]].
  - intros tokens n min_prec i e j H.
    destruct (expr_leftmost tokens n) as [He _].
    exact (wp_returned _ _ _ _ _ _ (He min_prec i) H).
  - intros tokens n min_prec e i e' j H.
    exact (wp_returned _ _ _ _ _ _ (loop_keeps_tag tokens n min_prec e i) H).
  - intros tokens n min_prec expr i op prec rside j Hop Hprec Hle Hrside Hnone.
    destruct (bin_node_defined (type op) prec
                (Node.mkExpr (Node.Expr_var expr) NONE) rside Hprec) as [b Hb].
    exists b. split; [exact Hb|].
    rewrite (loop_step tokens n min_prec expr i op prec Hop Hprec Hle).
    unfold bind at 1. rewrite Hrside. unfold after_rside.
    assert (type_mismatch (Node.Expr_type expr) (Node.Expr_type rside) = false) as ->.
    { unfold type_mismatch. destruct Hnone as [-> | ->].
      - reflexivity.
      - destruct (Node.Expr_type expr =? NONE)%Z; reflexivity. }
    unfold bind. rewrite fold_eq, Hb. reflexivity.
  - reflexivity.
  - reflexivity.
Qed.

Lemma tag_is_leftmost_term_tag_witness :
  Node.Expr_type (add (var (ident 1 "x") NONE) (lit (int_lit 1 "1") INT) NONE)
    = Node.Term_type
        (leftmost (add (var (ident 1 "x") NONE) (lit (int_lit 1 "1") INT) NONE)) /\
  Node.Expr_type (var (ident 1 "x") NONE) = Node.Expr_type (var (ident 1 "x") NONE) /\
  exists b,
    bin_node PLUS (Node.mkExpr (Node.Expr_var (var (ident 1 "x") NONE)) NONE)
             (lit (int_lit 1 "1") INT) = Some b /\
    parse_expr_loop tokens_x_plus_1 (S 6) 0 (var (ident 1 "x") NONE) 1 =
      parse_expr_loop tokens_x_plus_1 6 0
        (Node.mkExpr (Node.OfBinExpr b) (Node.Expr_type (var (ident 1 "x") NONE))) 3.
Proof.
  destruct tag_is_leftmost_term_tag as [Hleft [Hkeep [Hfold _]]].
  split; [|split].
  - apply (Hleft tokens_x_plus_1 8 0%Z 0 _ 3). reflexivity.
  - apply (Hkeep tokens_x_plus_1 1 0%Z _ 3 _ 3). reflexivity.
  - apply (Hfold tokens_x_plus_1 6 0%Z (var (ident 1 "x") NONE) 1 (punct 1 PLUS) 0%Z
                 (lit (int_lit 1 "1") INT) 3).
    + reflexivity.
    + reflexivity.
    + lia.
    + reflexivity.
    + left. reflexivity.
Defined.

(** ** Statements *)

Lemma else_is_last (p : Node.IfPred) :
  forall k, nth_error (links p) k = Some ElseLink -> S k = List.length (links p).
Proof.
  revert p. fix IH 1. intros p k H.
  destruct p as [e sc [next|]|sc].
  - cbn [links] in *. destruct k as [|k]; [discriminate H|].
    cbn [nth_error List.length] in *. f_equal. exact (IH next k H).
  - cbn [links] in *. destruct k as [|[|k]]; discriminate H.
  - cbn [links] in *. destruct k as [|[|k]]; [reflexivity|discriminate H..].
Qed.

Lemma at_most_one_else (p : Node.IfPred) : else_count p <= 1.
Proof.
  revert p. fix IH 1. intros p. unfold else_count in *.
  destruct p as [e sc [next|]|sc]; cbn; [exact (IH next)|lia..].
Qed.

(** C7: a predicate chain returned by [parse_if_pred] has at most one [Else]
    link, and an [Else] link is the last link of its chain (the AST admits
    no other chain: only an [Elif] link has a successor).  The tokens of
    "if (x) {} elif (y) {} else {}" parse to an [If] statement whose chain
    is one [Elif] link followed by one [Else] link.  After an [else] clause
    the chain is closed: a further [else] or [elif] is not taken into it,
    and, as neither starts a statement, the parse exits with "missing
    statement". *)
Theorem if_chain_shape :
  (forall tokens n i p j,
      parse_if_pred tokens n i = Ret (Some p) j ->
      else_count p <= 1 /\
      forall k, nth_error (links p) k = Some ElseLink ->
                S k = List.length (links p)) /\
  Tokenizer.tokenize "if (x) {} elif (y) {} else {}"
    = Tokenizer.Tokens tokens_if_elif_else /\
  (forall fuel, 47 <= fuel ->
      parse_stmt tokens_if_elif_else fuel 0 =
      Ret (Some (Node.StmtIf
                   (var (ident 1 "x") NONE)
                   (Node.mkScope [])
                   (Some (Node.IfPredElif
                            (var (ident 1 "y") NONE)
                            (Node.mkScope [])
                            (Some (Node.IfPredElse (Node.mkScope [])))))))
          15) /\
  links (Node.IfPredElif (var (ident 1 "y") NONE) (Node.mkScope [])
                         (Some (Node.IfPredElse (Node.mkScope []))))
    = [ElifLink; ElseLink] /\
  Tokenizer.tokenize "if (x) {} else {} else {}"
    = Tokenizer.Tokens tokens_if_else_else /\
  parse_if_pred tokens_if_else_else 20 6
    = Ret (Some (Node.IfPredElse (Node.mkScope []))) 9 /\
  parse_prog tokens_if_else_else
    = Exit "[Parse Error] missing statement on line 1" /\
  Tokenizer.tokenize "if (x) {} else {} elif (y) {}"
    = Tokenizer.Tokens tokens_if_else_elif /\
  parse_prog tokens_if_else_elif
    = Exit "[Parse Error] missing statement on line 1".
Proof.
  split; [|split; [|split; [|split; [|repeat split]]]].
  - intros tokens n i p j _. split; [apply at_most_one_else|apply else_is_last].
  - reflexivity.
  - intros fuel Hfuel.
    destruct (stmt_fuel_mono tokens_if_elif_else 47 fuel Hfuel) as [_ [_ [_ Hst]]].
    apply (refines_ret _ _ _ _ _ Hst). reflexivity.
  - reflexivity.
Qed.

Lemma if_chain_shape_witness :
  (else_count (Node.IfPredElif (var (ident 1 "y") NONE) (Node.mkScope [])
                               (Some (Node.IfPredElse (Node.mkScope [])))) <= 1 /\
   forall k,
     nth_error (links (Node.IfPredElif (var (ident 1 "y") NONE) (Node.mkScope [])
                                       (Some (Node.IfPredElse (Node.mkScope []))))) k
       = Some ElseLink ->
     S k = List.length
             (links (Node.IfPredElif (var (ident 1 "y") NONE) (Node.mkScope [])
                                     (Some (Node.IfPredElse (Node.mkScope [])))))) /\
  parse_stmt tokens_if_elif_else 47 0 =
    Ret (Some (Node.StmtIf
                 (var (ident 1 "x") NONE)
                 (Node.mkScope [])
                 (Some (Node.IfPredElif
                          (var (ident 1 "y") NONE)
                          (Node.mkScope [])
                          (Some (Node.IfPredElse (Node.mkScope [])))))))
        15.
Proof.
  destruct if_chain_shape as [Hchain [_ [Htree _]]].
  split.
  - apply (Hchain tokens_if_elif_else 20 6 _ 15). reflexivity.
  - apply (Htree 47). lia.
Defined.

Lemma parse_stmt_enough_fuel tokens n m i r j :
  parse_stmt tokens n i = Ret r j ->
  3 * (List.length tokens - i) + 2 <= m ->
  parse_stmt tokens m i = Ret r j.
Proof.
  intros H Hm.
  destruct (Nat.le_ge_cases n m) as [Hle|Hge].
  - destruct (stmt_fuel_mono tokens n m Hle) as [_ [_ [_ Hst]]].
    exact (refines_ret _ _ _ _ _ Hst H).
  - destruct (stmt_fuel_mono tokens m n Hge) as [_ [_ [_ Hst]]].
    destruct (Hst i) as [E|E]; [|congruence].
    destruct (stmt_progress tokens m) as [_ [_ [_ Hp]]].
    specialize (Hp i). unfold wp in Hp. rewrite E in Hp. simpl in Hp. lia.
Qed.

Lemma parse_prog_loop_of_seq tokens i segs :
  stmt_seq tokens i segs ->
  forall m stmts0,
    3 * (List.length tokens - i) + 3 <= m ->
    exists j, parse_prog_loop tokens m stmts0 i
              = Ret (Node.mkProg (stmts0 ++ map fst segs)) j.
Proof.
  induction 1 as [i Hend|i n s j rest Hlt Hs Hrest IH]; intros m stmts0 Hm.
  - destruct m as [|m]; [lia|]. exists i.
    cbn [parse_prog_loop]. unfold bind, peek. rewrite peek_at_0.
    apply nth_error_None in Hend. simpl map. rewrite Hend, app_nil_r. reflexivity.
  - destruct m as [|m]; [lia|].
    destruct (stmt_progress tokens n) as [_ [_ [_ Hp]]].
    pose proof (wp_returned _ _ _ _ _ _ (Hp i) Hs) as Hadv. simpl in Hadv.
    destruct (IH m (stmts0 ++ [s])%list ltac:(lia)) as [k Hk].
    exists k. cbn [parse_prog_loop]. unfold bind at 1, peek. rewrite peek_at_0.
    destruct (nth_error tokens i) as [tok|] eqn:Etok.
    2:{ apply nth_error_None in Etok. lia. }
    unfold bind.
    rewrite (parse_stmt_enough_fuel tokens n m i _ _ Hs ltac:(lia)).
    rewrite Hk, <- app_assoc. reflexivity.
Qed.

Lemma seq_of_parse_prog_loop tokens n :
  forall stmts0 i prog j,
    parse_prog_loop tokens n stmts0 i = Ret prog j ->
    exists segs,
      Node.stmts prog = (stmts0 ++ map fst segs)%list /\ stmt_seq tokens i segs.
Proof.
  induction n as [|n IH]; intros stmts0 i prog j H; [discriminate H|].
  cbn [parse_prog_loop] in H. unfold bind at 1, peek in H. rewrite peek_at_0 in H.
  destruct (nth_error tokens i) as [tok|] eqn:Etok.
  - unfold bind in H.
    destruct (parse_stmt tokens n i) as [[s|] k| | |] eqn:Es; try discriminate H.
    + destruct (IH _ _ _ _ H) as [rest [Hprog Hseq]].
      exists ((s, k) :: rest). split.
      * rewrite Hprog, <- app_assoc. reflexivity.
      * apply (seq_stmt tokens i n s k rest); [|exact Es|exact Hseq].
        apply nth_error_Some. congruence.
    + rewrite exit_with_eq in H. destruct (error_line tokens k); discriminate H.
  - inversion H; subst. exists []. split; [now rewrite app_nil_r|].
    apply seq_end. now apply nth_error_None.
Qed.

Lemma stmt_seq_increasing tokens i segs :
  stmt_seq tokens i segs -> increasing_from i (map snd segs).
Proof.
  induction 1 as [i Hend|i n s j rest Hlt Hs Hrest IH]; [exact I|].
  destruct (stmt_progress tokens n) as [_ [_ [_ Hp]]].
  pose proof (wp_returned _ _ _ _ _ _ (Hp i) Hs) as Hadv. simpl in Hadv.
  simpl. split; [lia|exact IH].
Qed.

Lemma parse_prog_of_seq tokens segs :
  stmt_seq tokens 0 segs ->
  parse_prog tokens = Ret (Node.mkProg (map fst segs)) (List.length tokens).
Proof.
  intros Hseq. unfold parse_prog.
  destruct (parse_prog_loop_of_seq tokens 0 segs Hseq
              (fuel_for (List.length tokens)) []) as [j Hj].
  { unfold fuel_for. lia. }
  rewrite Hj. simpl. f_equal.
  pose proof (wp_returned _ _ _ _ _ _
                (prog_progress tokens (fuel_for (List.length tokens)) [] 0) Hj)
    as [Hadv Hlen].
  unfold adv in Hadv. lia.
Qed.

Lemma single_stmt_inv segment s :
  single_stmt segment s ->
  exists n tok,
    parse_stmt segment n 0 = Ret (Some s) (List.length segment) /\
    nth_error segment 0 = Some tok /\ stmt_start (type tok).
Proof.
  unfold single_stmt, parse_prog. intros H.
  destruct (seq_of_parse_prog_loop _ _ _ _ _ _ H) as [segs [Hprog Hseq]].
  simpl in Hprog.
  destruct segs as [|[s' j] [|x rest]]; try discriminate Hprog.
  injection Hprog as <-.
  inversion Hseq as [|i n s0 j0 rest Hlt Hs Hrest]; subst.
  inversion Hrest as [i Hend|]; subst.
  pose proof (stmt_adv _ _ _ _ _ Hs) as Hadv. simpl in Hadv.
  assert (j = List.length segment) as -> by lia.
  pose proof (wp_returned _ _ _ _ _ _ (stmt_starts segment n 0) Hs) as [tok [Htok Hst]].
  now exists n, tok.
Qed.

(** The first token of a sequence of statements does not continue what
    precedes it. *)
Lemma statements_are_quiet segments stmts :
  Forall2 single_stmt segments stmts -> quiet_after (List.concat segments).
Proof.
  intros HF h Hh. destruct HF as [|segment s segments stmts Hs HF].
  - discriminate Hh.
  - destruct (single_stmt_inv _ _ Hs) as [n [tok [_ [Htok Hst]]]].
    simpl in Hh. destruct segment as [|t0 segment]; [discriminate Htok|].
    simpl in Hh, Htok. assert (h = tok) as -> by congruence.
    unfold stmt_start in Hst.
    destruct Hst as [E|[E|[E|[E|E]]]]; rewrite E; repeat split; discriminate.
Qed.

Lemma stmt_seq_of_segments segments stmts :
  Forall2 single_stmt segments stmts ->
  forall before,
  exists segs,
    map fst segs = stmts /\
    stmt_seq (before ++ List.concat segments) (List.length before) segs.
Proof.
  induction 1 as [|segment s segments stmts Hs HF IH]; intros before.
  - exists []. split; [reflexivity|]. apply seq_end.
    simpl. rewrite app_nil_r. lia.
  - destruct (single_stmt_inv _ _ Hs) as [n [tok [Hparse [Htok Hst]]]].
    assert (Hlen : 0 < List.length segment).
    { apply nth_error_Some. congruence. }
    destruct (IH (before ++ segment)%list) as [segs [Hmap Hseq]].
    exists ((s, List.length before + List.length segment) :: segs).
    split; [simpl; now rewrite Hmap|].
    destruct (Locality.stmt_window before segment (List.concat segments)
                (statements_are_quiet _ _ HF) n) as [_ [_ [_ Hwin]]].
    specialize (Hwin 0 s (List.length segment) Hparse).
    unfold window in Hwin. rewrite Nat.add_0_r in Hwin.
    simpl List.concat.
    apply (seq_stmt _ _ n _ _ _); [|exact Hwin|].
    + rewrite !length_app. lia.
    + rewrite <- app_assoc, length_app in Hseq. exact Hseq.
Qed.

(** C8: a source program consisting of N top-level statements parses to a
    Program of exactly these N statements, in source order.
    - When the tokens are the concatenation of N segments, each of which is
      by itself a program of exactly one statement, [parse_prog] returns the
      Program of these N statements in the order of the segments.
    - More generally, when the tokens are N statements one after the other
      (the k-th statement is what [parse_stmt] returns when started where
      the previous one ended, the first one at token 0, the last one ending
      with the last token; each statement ends strictly after it starts),
      [parse_prog] returns the Program of exactly these statements in that
      order, so its length is N.
    - Every Program [parse_prog] returns is the statement list of such a
      sequence. *)
Theorem statement_sequence_preserved :
  (forall segments stmts,
      Forall2 single_stmt segments stmts ->
      parse_prog (List.concat segments)
      = Ret (Node.mkProg stmts) (List.length (List.concat segments)) /\
      List.length stmts = List.length segments) /\
  (forall tokens segs,
      stmt_seq tokens 0 segs ->
      increasing_from 0 (map snd segs) /\
      parse_prog tokens = Ret (Node.mkProg (map fst segs)) (List.length tokens) /\
      (forall prog j,
          parse_prog tokens = Ret prog j ->
          List.length (Node.stmts prog) = List.length segs /\
          forall k, nth_error (Node.stmts prog) k
                    = option_map fst (nth_error segs k))) /\
  (forall tokens prog j,
      parse_prog tokens = Ret prog j ->
      exists segs,
        Node.stmts prog = map fst segs /\ stmt_seq tokens 0 segs).
Proof.
  split; [|split].
  - intros segments stmts HF. split.
    + destruct (stmt_seq_of_segments _ _ HF []) as [segs [Hmap Hseq]].
      simpl in Hseq. rewrite (parse_prog_of_seq _ _ Hseq), Hmap. reflexivity.
    + symmetry. exact (Forall2_length HF).
  - intros tokens segs Hseq.
    split; [exact (stmt_seq_increasing tokens 0 segs Hseq)|].
    split; [exact (parse_prog_of_seq tokens segs Hseq)|].
    intros prog j Hprog. rewrite (parse_prog_of_seq tokens segs Hseq) in Hprog.
    inversion Hprog; subst. simpl. split.
    + apply length_map.
    + intros k. apply nth_error_map.
  - intros tokens prog j H. unfold parse_prog in H.
    destruct (seq_of_parse_prog_loop tokens _ _ _ _ _ H) as [segs [Hprog Hseq]].
    exists segs. split; [exact Hprog|exact Hseq].
Qed.

Lemma statement_sequence_preserved_witness :
  (parse_prog
     (List.concat [[punct 1 VAR; ident 1 "x"; punct 1 EQUAL; int_lit 1 "1"];
              [ident 2 "x"; punct 2 EQUAL; ident 2 "x"; punct 2 PLUS; int_lit 2 "2"];
              [punct 3 RETURN; ident 3 "x"]])
   = Ret (Node.mkProg
            [Node.StmtVar (ident 1 "x") (lit (int_lit 1 "1") INT);
             Node.StmtVarAssign (ident 2 "x")
               (add (var (ident 2 "x") NONE) (lit (int_lit 2 "2") INT) NONE);
             Node.StmtReturn (var (ident 3 "x") NONE)])
         11 /\
   3 = 3) /\
  (increasing_from 0 [4; 9; 11] /\
   parse_prog tokens_three_stmts =
     Ret (Node.mkProg
            [Node.StmtVar (ident 1 "x") (lit (int_lit 1 "1") INT);
             Node.StmtVarAssign (ident 2 "x")
               (add (var (ident 2 "x") NONE) (lit (int_lit 2 "2") INT) NONE);
             Node.StmtReturn (var (ident 3 "x") NONE)])
         11) /\
  exists segs,
    [Node.StmtVar (ident 1 "x") (lit (int_lit 1 "1") INT);
     Node.StmtVarAssign (ident 2 "x")
       (add (var (ident 2 "x") NONE) (lit (int_lit 2 "2") INT) NONE);
     Node.StmtReturn (var (ident 3 "x") NONE)] = map fst segs /\
    stmt_seq tokens_three_stmts 0 segs.
Proof.
  destruct statement_sequence_preserved as [Hcat [Hto Hfrom]].
  split; [|split].
  - apply (Hcat [[punct 1 VAR; ident 1 "x"; punct 1 EQUAL; int_lit 1 "1"];
                 [ident 2 "x"; punct 2 EQUAL; ident 2 "x"; punct 2 PLUS;
                  int_lit 2 "2"];
                 [punct 3 RETURN; ident 3 "x"]]).
    repeat (apply Forall2_cons; [reflexivity|]). apply Forall2_nil.
  - assert (Hseq : stmt_seq tokens_three_stmts 0
              [(Node.StmtVar (ident 1 "x") (lit (int_lit 1 "1") INT), 4);
               (Node.StmtVarAssign (ident 2 "x")
                  (add (var (ident 2 "x") NONE) (lit (int_lit 2 "2") INT) NONE), 9);
               (Node.StmtReturn (var (ident 3 "x") NONE), 11)]).
    { apply (seq_stmt _ 0 10 _ 4); [simpl; lia|reflexivity|].
      apply (seq_stmt _ 4 10 _ 9); [simpl; lia|reflexivity|].
      apply (seq_stmt _ 9 10 _ 11); [simpl; lia|reflexivity|].
      apply seq_end. simpl. lia. }
    destruct (Hto tokens_three_stmts _ Hseq) as [Hinc [Hprog _]].
    split; [exact Hinc|exact Hprog].
  - apply (Hfrom tokens_three_stmts
             (Node.mkProg
                [Node.StmtVar (ident 1 "x") (lit (int_lit 1 "1") INT);
                 Node.StmtVarAssign (ident 2 "x")
                   (add (var (ident 2 "x") NONE) (lit (int_lit 2 "2") INT) NONE);
                 Node.StmtReturn (var (ident 3 "x") NONE)]) 11).
    reflexivity.
Defined.

(** C10: parsing terminates on every finite token sequence.  A call of
    [parse_stmt] or of [parse_term] that returns a statement or a term has
    moved the cursor forward by at least one token (and not beyond the
    tokens), and one that returns "absent" has left the cursor where it was;
    the loops of [parse_scope] and of [parse_prog] stop as soon as
    [parse_stmt] returns "absent" (the first goes on to the closing brace,
    the second exits with "missing statement"); [parse_prog]'s loop also stops
    when no token is left.  Hence a number of steps linear in the number of
    unread tokens is enough for every call, and [parse_prog] always returns a
    Program, with the cursor behind the last token, or exits with a
    diagnostic. *)
Theorem parsing_terminates :
  (forall tokens n i r j,
      parse_stmt tokens n i = Ret r j ->
      match r with
      | Some _ => i < j /\ j <= List.length tokens
      | None => j = i
      end) /\
  (forall tokens n i r j,
      parse_term tokens n i = Ret r j ->
      match r with
      | Some _ => i < j /\ j <= List.length tokens
      | None => j = i
      end) /\
  (forall tokens n i j stmts,
      parse_stmt tokens n i = Ret None j ->
      parse_scope_loop tokens (S n) stmts i = Ret stmts j) /\
  (forall tokens n i j stmts,
      parse_stmt tokens n i = Ret None j ->
      nth_error tokens i <> None ->
      parse_prog_loop tokens (S n) stmts i
      = exit_with tokens "statement" missing j) /\
  (forall tokens n i stmts,
      nth_error tokens i = None ->
      parse_prog_loop tokens (S n) stmts i = Ret (Node.mkProg stmts) i) /\
  (forall tokens n i min_prec,
      2 * (List.length tokens - i) + 2 <= n ->
      parse_term tokens n i <> OutOfFuel /\
      parse_expr tokens n min_prec i <> OutOfFuel) /\
  (forall tokens n i,
      3 * (List.length tokens - i) + 3 <= n ->
      parse_stmt tokens n i <> OutOfFuel /\
      parse_scope tokens n i <> OutOfFuel /\
      parse_if_pred tokens n i <> OutOfFuel /\
      (forall stmts, parse_scope_loop tokens n stmts i <> OutOfFuel) /\
      (forall stmts, parse_prog_loop tokens n stmts i <> OutOfFuel)) /\
  (forall tokens n,
      3 * List.length tokens + 3 <= n ->
      parse_prog_loop tokens n [] 0 = parse_prog tokens) /\
  (forall tokens,
      (exists prog, parse_prog tokens = Ret prog (List.length tokens)) \/
      (exists err, parse_prog tokens = Exit err)).
Proof.
  assert (Hoof : forall A need n (m : M A) i Q,
             wp (total n need) m i Q -> need <= n -> m i <> OutOfFuel).
  { intros A need n m i Q Hwp Hn E. unfold wp in Hwp. rewrite E in Hwp.
    simpl in Hwp. lia. }
  split; [|split; [|split; [|split; [|split; [|split; [|split; [|split]]]]]]].
  - intros tokens n i r j H.
    destruct (stmt_progress tokens n) as [_ [_ [_ Hp]]].
    exact (wp_returned _ _ _ _ _ _ (Hp i) H).
  - intros tokens n i r j H.
    destruct (expr_progress tokens n) as [Hp _].
    exact (wp_returned _ _ _ _ _ _ (Hp i) H).
  - intros tokens n i j stmts H.
    cbn [parse_scope_loop]. unfold bind. now rewrite H.
  - intros tokens n i j stmts H Htok.
    cbn [parse_prog_loop]. unfold bind at 1, peek. rewrite peek_at_0.
    destruct (nth_error tokens i); [|contradiction].
    unfold bind. now rewrite H.
  - intros tokens n i stmts H.
    cbn [parse_prog_loop]. unfold bind, peek. rewrite peek_at_0, H. reflexivity.
  - intros tokens n i min_prec Hn.
    destruct (expr_progress tokens n) as [Ht [He _]].
    split; [apply (Hoof _ _ _ _ _ _ (Ht i))|apply (Hoof _ _ _ _ _ _ (He min_prec i))];
      lia.
  - intros tokens n i Hn.
    destruct (stmt_progress tokens n) as [Hsc [Hsl [Hp Hst]]].
    split; [|split; [|split; [|split]]].
    + apply (Hoof _ _ _ _ _ _ (Hst i)). lia.
    + apply (Hoof _ _ _ _ _ _ (Hsc i)). lia.
    + apply (Hoof _ _ _ _ _ _ (Hp i)). lia.
    + intros stmts. apply (Hoof _ _ _ _ _ _ (Hsl stmts i)). lia.
    + intros stmts. apply (Hoof _ _ _ _ _ _ (prog_progress tokens n stmts i)). lia.
  - intros tokens n Hn. unfold parse_prog.
    assert (Hn' : parse_prog_loop tokens n [] 0 <> OutOfFuel).
    { apply (Hoof _ _ _ _ _ _ (prog_progress tokens n [] 0)). lia. }
    assert (Hf : parse_prog_loop tokens (fuel_for (List.length tokens)) [] 0
                 <> OutOfFuel).
    { apply (Hoof _ _ _ _ _ _ (prog_progress tokens _ [] 0)). unfold fuel_for. lia. }
    destruct (Nat.le_ge_cases n (fuel_for (List.length tokens))) as [Hle|Hge].
    + destruct (prog_fuel_mono tokens _ _ [] Hle 0) as [E|E]; [contradiction|exact E].
    + destruct (prog_fuel_mono tokens _ _ [] Hge 0) as [E|E];
        [contradiction|symmetry; exact E].
  - intros tokens.
    pose proof (prog_progress tokens (fuel_for (List.length tokens)) [] 0) as Hp.
    unfold wp, parse_prog in *.
    destruct (parse_prog_loop tokens (fuel_for (List.length tokens)) [] 0)
      as [prog j|err| |].
    + left. exists prog. f_equal. unfold adv in Hp. lia.
    + right. now exists err.
    + contradiction.
    + unfold fuel_for in Hp. simpl in Hp. lia.
Qed.

Lemma parsing_terminates_witness :
  (0 < 4 /\ 4 <= List.length tokens_three_stmts) /\
  (4 < 5 /\ 5 <= List.length tokens_three_stmts) /\
  parse_scope_loop tokens_if_elif_else (S 1) [] 5 = Ret [] 5 /\
  parse_prog_loop tokens_x_plus_1 (S 1) [] 1
    = exit_with tokens_x_plus_1 "statement" missing 1 /\
  parse_prog_loop tokens_x_plus_1 (S 0) [] 3 = Ret (Node.mkProg []) 3 /\
  (parse_term tokens_x_plus_1 8 0 <> OutOfFuel /\
   parse_expr tokens_x_plus_1 8 0 0 <> OutOfFuel) /\
  parse_stmt tokens_three_stmts 36 0 <> OutOfFuel /\
  parse_prog_loop tokens_x_plus_1 12 [] 0 = parse_prog tokens_x_plus_1.
Proof.
  destruct parsing_terminates as [Hst [Ht [Hsl [Hpl [Hend [He [Hs [Hany _]]]]]]]].
  split; [|split; [|split; [|split; [|split; [|split; [|split]]]]]].
  - apply (Hst tokens_three_stmts 10 0 (Some (Node.StmtVar (ident 1 "x")
                                                (lit (int_lit 1 "1") INT))) 4).
    reflexivity.
  - apply (Ht tokens_three_stmts 1 4
              (Some (Node.mkTerm (Node.TermIdentifier (ident 2 "x")) NONE)) 5).
    reflexivity.
  - apply (Hsl tokens_if_elif_else 1 5 5 []). reflexivity.
  - apply (Hpl tokens_x_plus_1 1 1 1 []); [reflexivity|discriminate].
  - apply (Hend tokens_x_plus_1 0 3 []). reflexivity.
  - apply (He tokens_x_plus_1 8 0 0%Z). simpl. lia.
  - apply (Hs tokens_three_stmts 36 0). simpl. lia.
  - apply (Hany tokens_x_plus_1 12). simpl. lia.
Defined.

(** * Further properties of the parser *)

(** ** The AST keeps the tokens *)

(** X1: a Program returned by [parse_prog] holds the whole token sequence.
    Writing the Program back, statement by statement, gives the kind of
    every token and the text of every identifier and integer literal, in
    order; nothing but line numbers is lost.  Hence two token sequences
    that parse to the same Program have the same kinds and the same texts,
    token by token. *)
Theorem program_keeps_the_tokens :
  (forall tokens prog j,
      parse_prog tokens = Ret prog j ->
      map Unparse.key tokens = Unparse.unparse_prog prog) /\
  (forall tokens tokens' prog j j',
      parse_prog tokens = Ret prog j ->
      parse_prog tokens' = Ret prog j' ->
      map Unparse.key tokens = map Unparse.key tokens').
Proof.
  assert (Hkeys : forall tokens prog j,
             parse_prog tokens = Ret prog j ->
             map Unparse.key tokens = Unparse.unparse_prog prog).
  { intros tokens prog j H. unfold parse_prog in H.
    assert (Hwp := prog_spans tokens (fuel_for (List.length tokens)) [] 0
                     (Unparse.spans_nil tokens 0)).
    destruct (wp_returned _ _ _ _ _ _ Hwp H) as [Hs Hend].
    exact (proj2 (spans_all tokens _ _ Hs Hend)). }
  split; [exact Hkeys|].
  intros tokens tokens' prog j j' H H'.
  now rewrite (Hkeys _ _ _ H), (Hkeys _ _ _ H').
Qed.

Lemma program_keeps_the_tokens_witness :
  map Unparse.key tokens_three_stmts =
  Unparse.unparse_prog
    (Node.mkProg
       [Node.StmtVar (ident 1 "x") (lit (int_lit 1 "1") INT);
        Node.StmtVarAssign (ident 2 "x")
          (add (var (ident 2 "x") NONE) (lit (int_lit 2 "2") INT) NONE);
        Node.StmtReturn (var (ident 3 "x") NONE)]) /\
  map Unparse.key tokens_three_stmts =
  map Unparse.key
      [punct 7 VAR; ident 1 "x"; punct 8 EQUAL; int_lit 1 "1";
       ident 2 "x"; punct 8 EQUAL; ident 2 "x"; punct 9 PLUS; int_lit 2 "2";
       punct 9 RETURN; ident 3 "x"].
Proof.
  destruct program_keeps_the_tokens as [Hkeys Hsame].
  split.
  - apply (Hkeys tokens_three_stmts _ 11). reflexivity.
  - apply (Hsame tokens_three_stmts _
             (Node.mkProg
                [Node.StmtVar (ident 1 "x") (lit (int_lit 1 "1") INT);
                 Node.StmtVarAssign (ident 2 "x")
                   (add (var (ident 2 "x") NONE) (lit (int_lit 2 "2") INT) NONE);
                 Node.StmtReturn (var (ident 3 "x") NONE)])
             11 11); reflexivity.
Defined.

(** X2: a term or an expression returned by [parse_term] or [parse_expr],
    from any cursor and for any minimal precedence, is written with exactly
    the tokens the call consumed: the tokens from the cursor before the call
    up to the cursor after it have the kinds and texts of the node written
    back in infix form, parentheses included. *)
Theorem expression_keeps_its_tokens :
  (forall tokens n i t j,
      parse_term tokens n i = Ret (Some t) j ->
      map Unparse.key (Unparse.slice tokens i j) = Unparse.unparse_term t) /\
  (forall tokens n min_prec i e j,
      parse_expr tokens n min_prec i = Ret (Some e) j ->
      map Unparse.key (Unparse.slice tokens i j) = Unparse.unparse_expr e).
Proof.
  split.
  - intros tokens n i t j H.
    destruct (expr_spans tokens n) as [Ht _].
    exact (proj2 (spans_slice tokens _ _ _ (wp_returned _ _ _ _ _ _ (Ht i) H))).
  - intros tokens n min_prec i e j H.
    destruct (expr_spans tokens n) as [_ [He _]].
    exact (proj2 (spans_slice tokens _ _ _
                    (wp_returned _ _ _ _ _ _ (He min_prec i) H))).
Qed.

Lemma expression_keeps_its_tokens_witness :
  map Unparse.key (Unparse.slice tokens_2_plus_3_times_4 2 3)
  = [(INTEGER_LITERAL, Some "3")] /\
  map Unparse.key (Unparse.slice tokens_2_plus_3_times_4 2 5)
  = [(INTEGER_LITERAL, Some "3"); (STAR, None); (INTEGER_LITERAL, Some "4")].
Proof.
  destruct expression_keeps_its_tokens as [Ht He].
  split.
  - apply (Ht tokens_2_plus_3_times_4 1 2
              (Node.mkTerm (Node.TermIntegerLiteral (int_lit 1 "3")) INT) 3).
    reflexivity.
  - apply (He tokens_2_plus_3_times_4 6 1%Z 2
              (mul (lit (int_lit 1 "3") NONE) (lit (int_lit 1 "4") INT) INT) 5).
    reflexivity.
Defined.

(** X3: a statement, a scope or a predicate chain returned by [parse_stmt],
    [parse_scope] or [parse_if_pred], from any cursor, is written with
    exactly the tokens the call consumed, braces, parentheses and keywords
    included. *)
Theorem statement_keeps_its_tokens :
  (forall tokens n i s j,
      parse_stmt tokens n i = Ret (Some s) j ->
      map Unparse.key (Unparse.slice tokens i j) = Unparse.unparse_stmt s) /\
  (forall tokens n i sc j,
      parse_scope tokens n i = Ret (Some sc) j ->
      map Unparse.key (Unparse.slice tokens i j) = Unparse.unparse_scope sc) /\
  (forall tokens n i p j,
      parse_if_pred tokens n i = Ret (Some p) j ->
      map Unparse.key (Unparse.slice tokens i j) = Unparse.unparse_pred p).
Proof.
  split; [|split].
  - intros tokens n i s j H.
    destruct (stmt_spans tokens n) as [_ [_ [_ Hst]]].
    exact (proj2 (spans_slice tokens _ _ _
                    (wp_returned _ _ _ _ _ _ (Hst i) H))).
  - intros tokens n i sc j H.
    destruct (stmt_spans tokens n) as [Hsc _].
    exact (proj2 (spans_slice tokens _ _ _
                    (wp_returned _ _ _ _ _ _ (Hsc i) H))).
  - intros tokens n i p j H.
    destruct (stmt_spans tokens n) as [_ [_ [Hp _]]].
    exact (proj2 (spans_slice tokens _ _ _
                    (wp_returned _ _ _ _ _ _ (Hp i) H))).
Qed.

Lemma statement_keeps_its_tokens_witness :
  map Unparse.key (Unparse.slice tokens_if_elif_else 0 15)
  = Unparse.unparse_stmt
      (Node.StmtIf (var (ident 1 "x") NONE) (Node.mkScope [])
         (Some (Node.IfPredElif (var (ident 1 "y") NONE) (Node.mkScope [])
                  (Some (Node.IfPredElse (Node.mkScope [])))))) /\
  map Unparse.key (Unparse.slice tokens_if_elif_else 4 6)
  = [(LEFT_CURLY_BACKET, None); (RIGHT_CURLY_BRACKET, None)] /\
  map Unparse.key (Unparse.slice tokens_if_elif_else 12 15)
  = [(ELSE, None); (LEFT_CURLY_BACKET, None); (RIGHT_CURLY_BRACKET, None)].
Proof.
  destruct statement_keeps_its_tokens as [Hst [Hsc Hp]].
  split; [|split].
  - apply (Hst tokens_if_elif_else 20 0 _ 15). reflexivity.
  - apply (Hsc tokens_if_elif_else 20 4 (Node.mkScope []) 6). reflexivity.
  - apply (Hp tokens_if_elif_else 20 12 (Node.IfPredElse (Node.mkScope [])) 15).
    reflexivity.
Defined.

(** ** The shape of expressions *)

(** X4: every expression [parse_expr] returns, from any cursor, has the
    shape of precedence climbing with left association.  The operator at its
    top binds at least the minimal precedence of the call; at every binary
    node, the left operand is shaped for the precedence of the node's
    operator and the right operand for that precedence plus one; an
    expression in parentheses is shaped for 0.  So the right operand of [*]
    or [/] is never a binary node, and the right operand of [+] or [-] and
    the left operand of [*] or [/] never have [+] or [-] at their top. *)
Theorem expressions_are_precedence_climbed :
  (forall tokens n min_prec i e j,
      parse_expr tokens n min_prec i = Ret (Some e) j ->
      climbed min_prec e = true) /\
  (forall tokens n i t j,
      parse_term tokens n i = Ret (Some t) j -> climbed_term t = true) /\
  (forall e, climbed 2 e = true -> top_operator e = None) /\
  (forall e, climbed 1 e = true ->
             top_operator e <> Some PLUS /\ top_operator e <> Some MINUS).
Proof.
  split; [|split; [|split]].
  - intros tokens n min_prec i e j H.
    destruct (expr_climbed tokens n) as [_ [He _]].
    exact (wp_returned _ _ _ _ _ _ (He min_prec i) H).
  - intros tokens n i t j H.
    destruct (expr_climbed tokens n) as [Ht _].
    exact (wp_returned _ _ _ _ _ _ (Ht i) H).
  - intros [[t|[l r|l r|l r|l r]] ty] H; try reflexivity; discriminate H.
  - intros [[t|[l r|l r|l r|l r]] ty] H; split; intros E;
      try discriminate E; discriminate H.
Qed.

Lemma expressions_are_precedence_climbed_witness :
  climbed 0 (sub (sub (lit (int_lit 1 "8") NONE) (lit (int_lit 1 "3") INT) NONE)
                 (lit (int_lit 1 "2") INT) INT) = true /\
  climbed_term (Node.mkTerm (Node.TermIntegerLiteral (int_lit 1 "3")) INT) = true /\
  top_operator (lit (int_lit 1 "2") INT) = None /\
  (top_operator (mul (lit (int_lit 1 "3") NONE) (lit (int_lit 1 "4") INT) INT)
   <> Some PLUS /\
   top_operator (mul (lit (int_lit 1 "3") NONE) (lit (int_lit 1 "4") INT) INT)
   <> Some MINUS).
Proof.
  destruct expressions_are_precedence_climbed as [He [Ht [Htop Hmul]]].
  split; [|split; [|split]].
  - apply (He tokens_8_minus_3_minus_2 12 0%Z 0 _ 5). reflexivity.
  - apply (Ht tokens_2_plus_3_times_4 1 2 _ 3). reflexivity.
  - apply (Htop (lit (int_lit 1 "2") INT)). reflexivity.
  - apply (Hmul (mul (lit (int_lit 1 "3") NONE) (lit (int_lit 1 "4") INT) INT)).
    reflexivity.
Defined.

(** ** How parsing fails *)

(** X5: every message the parser exits with, from [parse_prog] or from any
    parsing method started at any cursor, is
    "[Parse Error] missing W on line N", where W is one of "expression",
    "return value", "scope", "statement", "(", ")" and "}", and N is the
    line of a token of the input. *)
Theorem parse_errors_are_diagnostics :
  (forall tokens err,
      parse_prog tokens = Exit err -> is_diagnostic tokens err) /\
  (forall tokens n i err,
      parse_stmt tokens n i = Exit err \/
      parse_scope tokens n i = Exit err \/
      parse_if_pred tokens n i = Exit err \/
      parse_term tokens n i = Exit err \/
      (exists min_prec, parse_expr tokens n min_prec i = Exit err) ->
      is_diagnostic tokens err).
Proof.
  split.
  - intros tokens err H. unfold parse_prog in H.
    exact (wp_diagnosed tokens _ _ _ _ _
             (prog_reported tokens _ [] 0) (prog_tags tokens _ [] 0) H).
  - intros tokens n i err H.
    destruct (stmt_reported tokens n) as [Rsc [_ [Rp Rst]]].
    destruct (stmt_tags tokens n) as [Tsc [_ [Tp Tst]]].
    destruct (expr_reported tokens n) as [Rt [Re _]].
    destruct (expr_tags tokens n) as [Tt [Te _]].
    destruct H as [H|[H|[H|[H|[min_prec H]]]]].
    + exact (wp_diagnosed tokens _ _ _ _ _ (Rst i) (Tst i) H).
    + exact (wp_diagnosed tokens _ _ _ _ _ (Rsc i) (Tsc i) H).
    + exact (wp_diagnosed tokens _ _ _ _ _ (Rp i) (Tp i) H).
    + exact (wp_diagnosed tokens _ _ _ _ _ (Rt i) (Tt i) H).
    + exact (wp_diagnosed tokens _ _ _ _ _ (Re min_prec i) (Te min_prec i) H).
Qed.

Lemma parse_errors_are_diagnostics_witness :
  is_diagnostic tokens_x_plus_1 "[Parse Error] missing statement on line 1" /\
  is_diagnostic [punct 3 LEFT_PARENTHESIS; int_lit 4 "1"]
                "[Parse Error] missing ) on line 4".
Proof.
  destruct parse_errors_are_diagnostics as [Hprog Hany].
  split.
  - apply (Hprog tokens_x_plus_1). reflexivity.
  - apply (Hany [punct 3 LEFT_PARENTHESIS; int_lit 4 "1"] 20 0).
    right. right. right. left. reflexivity.
Defined.

(** X6: no parsing method, started at any cursor of any token sequence,
    reads a token that is not there.  [consume] is only reached with a token
    under the cursor, [exit_with] only with a token under the cursor or
    before it (so [peek(-1).value()] holds a value whenever it is evaluated),
    and the [assert(false)] of [parse_expr] is not reached. *)
Theorem parser_reads_no_missing_token :
  forall tokens n i,
    parse_term tokens n i <> Crash /\
    (forall min_prec, parse_expr tokens n min_prec i <> Crash) /\
    (forall min_prec e, parse_expr_loop tokens n min_prec e i <> Crash) /\
    parse_scope tokens n i <> Crash /\
    parse_if_pred tokens n i <> Crash /\
    parse_stmt tokens n i <> Crash /\
    (forall stmts, parse_prog_loop tokens n stmts i <> Crash) /\
    parse_prog tokens <> Crash.
Proof.
  assert (Hno : forall A need n (m : M A) i Q,
             wp (total n need) m i Q -> m i <> Crash).
  { intros A need n m i Q Hwp E. unfold wp in Hwp. now rewrite E in Hwp. }
  intros tokens n i.
  destruct (expr_progress tokens n) as [Ht [He Hl]].
  destruct (stmt_progress tokens n) as [Hsc [_ [Hp Hst]]].
  split; [exact (Hno _ _ _ _ _ _ (Ht i))|].
  split; [intros min_prec; exact (Hno _ _ _ _ _ _ (He min_prec i))|].
  split; [intros min_prec e; exact (Hno _ _ _ _ _ _ (Hl min_prec e i))|].
  split; [exact (Hno _ _ _ _ _ _ (Hsc i))|].
  split; [exact (Hno _ _ _ _ _ _ (Hp i))|].
  split; [exact (Hno _ _ _ _ _ _ (Hst i))|].
  split; [intros stmts; exact (Hno _ _ _ _ _ _ (prog_progress tokens n stmts i))|].
  exact (Hno _ _ _ _ _ _ (prog_progress tokens _ [] 0)).
Qed.

(** [parse_prog] returns a Program or exits with a message. *)
Lemma parse_prog_returns_or_exits tokens :
  (exists prog j, parse_prog tokens = Ret prog j) \/
  (exists err, parse_prog tokens = Exit err).
Proof.
  pose proof (prog_progress tokens (fuel_for (List.length tokens)) [] 0) as Hp.
  unfold wp, parse_prog in *.
  destruct (parse_prog_loop tokens (fuel_for (List.length tokens)) [] 0)
    as [prog j|err| |].
  - left. now exists prog, j.
  - right. now exists err.
  - contradiction.
  - unfold fuel_for in Hp. simpl in Hp. lia.
Qed.

(** X7: the parser has no use for the tokens [func], [int], [char], a
    character literal, [:] and [,], which the tokenizer produces.  Every
    token of a sequence that parses to a Program is of one of the other
    sixteen kinds, and a sequence that holds a token of one of these six
    kinds, anywhere, is rejected with a "missing ..." diagnostic. *)
Theorem unused_token_kinds_are_rejected :
  (forall tokens prog j tok,
      parse_prog tokens = Ret prog j -> In tok tokens ->
      Unparse.parsed_kind (type tok) = true) /\
  (forall tokens tok,
      In tok tokens -> Unparse.parsed_kind (type tok) = false ->
      exists err, parse_prog tokens = Exit err /\ is_diagnostic tokens err).
Proof.
  assert (Hkinds : forall tokens prog j tok,
             parse_prog tokens = Ret prog j -> In tok tokens ->
             Unparse.parsed_kind (type tok) = true).
  { intros tokens prog j tok H Hin. unfold parse_prog in H.
    assert (Hwp := prog_spans tokens (fuel_for (List.length tokens)) [] 0
                     (Unparse.spans_nil tokens 0)).
    destruct (wp_returned _ _ _ _ _ _ Hwp H) as [Hs Hend].
    destruct (spans_all tokens _ _ Hs Hend) as [_ Hkeys].
    pose proof (UnparseFacts.prog_kinds prog) as Hall.
    rewrite <- Hkeys in Hall. unfold Unparse.parsed_keys in Hall.
    rewrite forallb_forall in Hall.
    exact (Hall (Unparse.key tok) (in_map Unparse.key tokens tok Hin)). }
  split; [exact Hkinds|].
  intros tokens tok Hin Hkind.
  destruct (parse_prog_returns_or_exits tokens) as [[prog [j H]]|[err H]].
  - rewrite (Hkinds tokens prog j tok H Hin) in Hkind. discriminate Hkind.
  - exists err. split; [exact H|].
    unfold parse_prog in H.
    exact (wp_diagnosed tokens _ _ _ _ _
             (prog_reported tokens _ [] 0) (prog_tags tokens _ [] 0) H).
Qed.

Lemma unused_token_kinds_are_rejected_witness :
  Unparse.parsed_kind (type (punct 1 RETURN)) = true /\
  exists err,
    parse_prog [punct 1 VAR; ident 1 "x"; punct 1 COLON; punct 1 TYPE_INT;
                punct 1 EQUAL; int_lit 1 "1"] = Exit err /\
    is_diagnostic [punct 1 VAR; ident 1 "x"; punct 1 COLON; punct 1 TYPE_INT;
                   punct 1 EQUAL; int_lit 1 "1"] err.
Proof.
  destruct unused_token_kinds_are_rejected as [Hkinds Hrej].
  split.
  - apply (Hkinds [punct 1 RETURN; int_lit 1 "0"]
                  (Node.mkProg [Node.StmtReturn (lit (int_lit 1 "0") INT)]) 2).
    + reflexivity.
    + left. reflexivity.
  - apply (Hrej _ (punct 1 COLON)).
    + right. right. left. reflexivity.
    + reflexivity.
Defined.

(** ** What a statement and an expression start with *)

(** X8: [parse_stmt] decides from at most three tokens whether a statement
    starts at the cursor: [return], or [var] followed by an identifier and
    [=], or an identifier followed by [=], or [{], or [if].  When they are
    found, the call returns a statement or exits; otherwise it returns
    "absent" without moving the cursor.  So an expression is no statement,
    and neither is a declaration without [=]: at the top of a program
    [parse_prog] exits with "missing statement", on the line of the token
    where the statement was looked for. *)
Theorem statement_dispatch :
  (forall tokens n i r j,
      parse_stmt tokens n i = Ret r j ->
      (r = None <-> starts_stmt tokens i = false)) /\
  (forall tokens n i,
      starts_stmt tokens i = false -> parse_stmt tokens (S n) i = Ret None i) /\
  (forall tokens n stmts i tok,
      nth_error tokens i = Some tok -> starts_stmt tokens i = false ->
      parse_prog_loop tokens (S (S n)) stmts i
      = Exit (parse_error missing "statement" (line tok))) /\
  (forall tokens tok,
      nth_error tokens 0 = Some tok -> starts_stmt tokens 0 = false ->
      parse_prog tokens = Exit (parse_error missing "statement" (line tok))).
Proof.
  assert (Hnone : forall tokens n i,
             starts_stmt tokens i = false ->
             parse_stmt tokens (S n) i = Ret None i).
  { intros tokens n i H.
    destruct (wp_only_returns _ _ _ (stmt_none tokens n i H))
      as [r [j [E [-> ->]]]].
    exact E. }
  split; [|split; [exact Hnone|split]].
  - intros tokens n i r j H. split.
    + exact (wp_returned _ _ _ _ _ _ (stmt_absent tokens n i) H).
    + intros Hstart. destruct n as [|n]; [discriminate H|].
      rewrite (Hnone tokens n i Hstart) in H. now injection H as <- _.
  - intros tokens n stmts i tok Htok Hstart.
    exact (wp_exits _ _ _ (statement_missing tokens n stmts i tok Htok Hstart)).
  - intros tokens tok Htok Hstart. unfold parse_prog, fuel_for.
    replace (4 * List.length tokens + 8) with (S (S (4 * List.length tokens + 6)))
      by lia.
    exact (wp_exits _ _ _ (statement_missing tokens _ [] 0 tok Htok Hstart)).
Qed.

Lemma statement_dispatch_witness :
  (Some (Node.StmtReturn (var (ident 3 "x") NONE)) = None
   <-> starts_stmt tokens_three_stmts 9 = false) /\
  parse_stmt tokens_x_plus_1 (S 0) 0 = Ret None 0 /\
  parse_prog_loop [punct 1 RETURN; int_lit 1 "0"; punct 2 VAR; ident 2 "x"]
                  (S (S 0)) [Node.StmtReturn (lit (int_lit 1 "0") INT)] 2
  = Exit "[Parse Error] missing statement on line 2" /\
  parse_prog tokens_x_plus_1 = Exit "[Parse Error] missing statement on line 1".
Proof.
  destruct statement_dispatch as [Hiff [Hnone [Hloop Hprog]]].
  split; [|split; [|split]].
  - apply (Hiff tokens_three_stmts 5 9 _ 11). reflexivity.
  - apply (Hnone tokens_x_plus_1 0 0). reflexivity.
  - apply (Hloop [punct 1 RETURN; int_lit 1 "0"; punct 2 VAR; ident 2 "x"]
                 0 _ 2 (punct 2 VAR)); reflexivity.
  - apply (Hprog tokens_x_plus_1 (ident 1 "x")); reflexivity.
Defined.

(** X9: an expression starts with an integer literal, an identifier or
    [(].  [parse_expr] returns "absent", without moving the cursor, exactly
    when the token at the cursor is none of these (or there is none).  Where
    an expression is required and none starts, parsing exits: after [return]
    with "missing return value", after a binary operator with "missing
    expression"; the line reported is that of the token after the keyword or
    operator, or that of the keyword or operator itself when it is the last
    token. *)
Theorem expression_start :
  (forall tokens n min_prec i r j,
      parse_expr tokens n min_prec i = Ret r j ->
      (r = None <-> starts_term tokens i = false)) /\
  (forall tokens n min_prec i,
      starts_term tokens i = false ->
      parse_expr tokens (S (S n)) min_prec i = Ret None i) /\
  (forall tokens n i,
      has_kind tokens i RETURN = true ->
      starts_term tokens (S i) = false ->
      exists tok,
        (nth_error tokens (S i) = Some tok \/
         nth_error tokens (S i) = None /\ nth_error tokens i = Some tok) /\
        parse_stmt tokens (S (S (S n))) i
        = Exit (parse_error missing "return value" (line tok))) /\
  (forall tokens n min_prec e i op prec,
      nth_error tokens i = Some op ->
      bin_prec (type op) = Some prec ->
      (min_prec <= prec)%Z ->
      starts_term tokens (S i) = false ->
      exists tok,
        (nth_error tokens (S i) = Some tok \/
         nth_error tokens (S i) = None /\ nth_error tokens i = Some tok) /\
        parse_expr_loop tokens (S (S (S n))) min_prec e i
        = Exit (parse_error missing "expression" (line tok))).
Proof.
  assert (Hnone : forall tokens n min_prec i,
             starts_term tokens i = false ->
             parse_expr tokens (S (S n)) min_prec i = Ret None i).
  { intros tokens n min_prec i H.
    destruct (wp_only_returns _ _ _ (expr_none tokens n min_prec i H))
      as [r [j [E [-> ->]]]].
    exact E. }
  split; [|split; [exact Hnone|split]].
  - intros tokens n min_prec i r j H. split.
    + exact (wp_returned _ _ _ _ _ _ (expr_absent tokens n min_prec i) H).
    + intros Hstart. destruct n as [|[|n]]; [discriminate H| |].
      * cbn [parse_expr parse_term] in H. discriminate H.
      * rewrite (Hnone tokens n min_prec i Hstart) in H. now injection H as <- _.
  - intros tokens n i Hret Hstart.
    assert (exists tok0, nth_error tokens i = Some tok0) as [tok0 Htok0].
    { unfold has_kind in Hret. destruct (nth_error tokens i) as [tok0|];
        [now exists tok0|discriminate Hret]. }
    destruct (error_line_next tokens i tok0 Htok0) as [tok [Hwhere Hline]].
    exists tok. split; [exact Hwhere|].
    exact (wp_exits _ _ _ (return_without_value tokens n i _ Hret Hstart Hline)).
  - intros tokens n min_prec e i op prec Hop Hprec Hle Hstart.
    destruct (error_line_next tokens i op Hop) as [tok [Hwhere Hline]].
    exists tok. split; [exact Hwhere|].
    exact (wp_exits _ _ _
             (operator_without_operand tokens n min_prec e i op prec _
                Hop Hprec Hle Hstart Hline)).
Qed.

Lemma expression_start_witness :
  (Some (lit (int_lit 1 "4") INT) = None
   <-> starts_term tokens_2_plus_3_times_4 4 = false) /\
  parse_expr tokens_2_plus_3_times_4 (S (S 0)) 0 1 = Ret None 1 /\
  (exists tok,
      (nth_error [punct 1 RETURN; punct 2 RIGHT_CURLY_BRACKET] (S 0) = Some tok \/
       nth_error [punct 1 RETURN; punct 2 RIGHT_CURLY_BRACKET] (S 0) = None /\
       nth_error [punct 1 RETURN; punct 2 RIGHT_CURLY_BRACKET] 0 = Some tok) /\
      parse_stmt [punct 1 RETURN; punct 2 RIGHT_CURLY_BRACKET] (S (S (S 0))) 0
      = Exit (parse_error missing "return value" (line tok))) /\
  (exists tok,
      (nth_error [int_lit 1 "1"; punct 2 PLUS] (S 1) = Some tok \/
       nth_error [int_lit 1 "1"; punct 2 PLUS] (S 1) = None /\
       nth_error [int_lit 1 "1"; punct 2 PLUS] 1 = Some tok) /\
      parse_expr_loop [int_lit 1 "1"; punct 2 PLUS] (S (S (S 0))) 0
                      (lit (int_lit 1 "1") INT) 1
      = Exit (parse_error missing "expression" (line tok))).
Proof.
  destruct expression_start as [Hiff [Hnone [Hret Hop]]].
  split; [|split; [|split]].
  - apply (Hiff tokens_2_plus_3_times_4 4 2%Z 4 _ 5). reflexivity.
  - apply (Hnone tokens_2_plus_3_times_4 0 0%Z 1). reflexivity.
  - apply (Hret [punct 1 RETURN; punct 2 RIGHT_CURLY_BRACKET] 0 0); reflexivity.
  - apply (Hop [int_lit 1 "1"; punct 2 PLUS] 0 0%Z (lit (int_lit 1 "1") INT) 1
               (punct 2 PLUS) 0%Z); [reflexivity|reflexivity|lia|reflexivity].
Defined.

(** ** Parsing inside a longer token sequence *)

(** X10: the parser never looks behind its cursor, and beyond the end of
    what it returns only at the next token.  An expression or a statement
    that is parsed from [tokens] is parsed, node for node, from [tokens] put
    between any tokens [before] and any tokens [after], the cursors shifted
    by the length of [before], provided the first token of [after] is no
    binary operator, no [elif] and no [else].  With nothing after, this holds
    for every [before]. *)
Theorem parsing_is_local :
  (forall before tokens after n min_prec i e j,
      quiet_after after ->
      parse_expr tokens n min_prec i = Ret (Some e) j ->
      parse_expr (before ++ tokens ++ after)%list n min_prec
                 (List.length before + i)
      = Ret (Some e) (List.length before + j)) /\
  (forall before tokens after n i s j,
      quiet_after after ->
      parse_stmt tokens n i = Ret (Some s) j ->
      parse_stmt (before ++ tokens ++ after)%list n (List.length before + i)
      = Ret (Some s) (List.length before + j)) /\
  (forall before tokens n i s j,
      parse_stmt tokens n i = Ret (Some s) j ->
      parse_stmt (before ++ tokens)%list n (List.length before + i)
      = Ret (Some s) (List.length before + j)).
Proof.
  assert (Hstmt : forall before tokens after n i s j,
             quiet_after after ->
             parse_stmt tokens n i = Ret (Some s) j ->
             parse_stmt (before ++ tokens ++ after)%list n (List.length before + i)
             = Ret (Some s) (List.length before + j)).
  { intros before tokens after n i s j Hq H.
    destruct (Locality.stmt_window before tokens after Hq n) as [_ [_ [_ Hst]]].
    exact (Hst i s j H). }
  split; [|split; [exact Hstmt|]].
  - intros before tokens after n min_prec i e j Hq H.
    destruct (Locality.expr_window before tokens after Hq n) as [_ [He _]].
    exact (He min_prec i e j H).
  - intros before tokens n i s j H.
    rewrite <- (app_nil_r tokens) at 1.
    apply Hstmt; [|exact H].
    intros h Hh. discriminate Hh.
Qed.

Lemma parsing_is_local_witness :
  parse_expr ([punct 1 RETURN] ++ tokens_2_plus_3_times_4
                ++ [punct 1 RIGHT_PARENTHESIS])%list 12 0 (1 + 0)
  = Ret (Some (add (lit (int_lit 1 "2") NONE)
                   (mul (lit (int_lit 1 "3") NONE) (lit (int_lit 1 "4") INT) INT)
                   INT))
        (1 + 5) /\
  parse_stmt ([punct 1 LEFT_CURLY_BACKET]
                ++ [punct 1 RETURN; ident 1 "x"]
                ++ [punct 1 RIGHT_CURLY_BRACKET])%list 6 (1 + 0)
  = Ret (Some (Node.StmtReturn (var (ident 1 "x") NONE))) (1 + 2) /\
  parse_stmt ([punct 1 LEFT_CURLY_BACKET] ++ [punct 1 RETURN; ident 1 "x"])%list
             6 (1 + 0)
  = Ret (Some (Node.StmtReturn (var (ident 1 "x") NONE))) (1 + 2).
Proof.
  destruct parsing_is_local as [He [Hst Hpre]].
  split; [|split].
  - apply (He [punct 1 RETURN] tokens_2_plus_3_times_4
              [punct 1 RIGHT_PARENTHESIS] 12 0%Z 0 _ 5).
    + intros h Hh. injection Hh as <-.
      split; [reflexivity|split; discriminate].
    + reflexivity.
  - apply (Hst [punct 1 LEFT_CURLY_BACKET] [punct 1 RETURN; ident 1 "x"]
               [punct 1 RIGHT_CURLY_BRACKET] 6 0 _ 2).
    + intros h Hh. injection Hh as <-.
      split; [reflexivity|split; discriminate].
    + reflexivity.
  - apply (Hpre [punct 1 LEFT_CURLY_BACKET] [punct 1 RETURN; ident 1 "x"] 6 0 _ 2).
    reflexivity.
Defined.

(** * Further properties of the tokenizer *)

(** ** The tokens it builds *)

(** X11: every token [tokenize] returns is well formed, for every source
    that keeps the line counter an [int] (fewer than [2^31 - 1] newline
    characters).  An identifier holds a word (a letter followed by letters,
    digits and underscores) that is none of the eight keywords; an integer
    literal holds one digit or more; a character literal holds one letter or
    digit; a token of any other kind holds no text.  The line numbers of the
    tokens do not decrease, and each lies between 1 and 1 plus the number of
    newline characters of the source, hence is at most [INT_MAX]. *)
Theorem tokens_are_well_formed :
  forall src tokens,
    Lexeme.lines_fit src = true ->
    Tokenizer.tokenize src = Tokenizer.Tokens tokens ->
    forallb Lexeme.token_ok tokens = true /\
    Lexeme.lines_from 1 tokens = true /\
    (forall tok, In tok tokens ->
                 (1 <= line tok <= 1 + count_newlines src)%Z /\
                 (line tok <= Lexeme.INT_MAX)%Z).
Proof.
  intros src tokens Hfit H.
  pose proof (LexemeFacts.tokenize_keeps src) as Hk. rewrite H in Hk.
  split; [exact (proj1 Hk)|split; [exact (proj1 (proj2 Hk))|]].
  intros tok Hin.
  pose proof (LexemeFacts.tokens_ok_line _ _ _ Hk Hin) as Hline.
  split; [exact Hline|].
  unfold Lexeme.lines_fit in Hfit. apply Z.leb_le in Hfit.
  change Shape.count_newlines with count_newlines in Hfit. lia.
Qed.

Lemma tokens_are_well_formed_witness :
  forallb Lexeme.token_ok tokens_2_plus_3_times_4 = true /\
  Lexeme.lines_from 1 tokens_2_plus_3_times_4 = true /\
  (1 <= line (int_lit 1 "3") <= 1 + count_newlines "2 + 3 * 4")%Z /\
  (line (int_lit 1 "3") <= Lexeme.INT_MAX)%Z.
Proof.
  destruct (tokens_are_well_formed "2 + 3 * 4" tokens_2_plus_3_times_4)
    as [Hok [Hs Hall]]; [reflexivity|reflexivity|].
  split; [exact Hok|split; [exact Hs|]].
  apply Hall. right. right. left. reflexivity.
Defined.

(** X12: the tokenizer reads back what is written from well-formed tokens.
    For every sequence of well-formed tokens whose line numbers start at 1
    or more and do not decrease, the text that writes each token on its
    line, followed by a space, is tokenized to exactly that sequence, line
    numbers included.  With X11, the token sequences [tokenize] can return
    are exactly these. *)
Theorem tokenize_reads_back :
  forall tokens,
    forallb Lexeme.token_ok tokens = true ->
    Lexeme.lines_from 1 tokens = true ->
    Tokenizer.tokenize (Lexeme.render 1 tokens) = Tokenizer.Tokens tokens.
Proof.
  intros tokens Hok Hs.
  exact (LexemeFacts.resume_render tokens 1 [] Hok Hs).
Qed.

Lemma tokenize_reads_back_witness :
  Tokenizer.tokenize
    (Lexeme.render 1 [punct 1 VAR; ident 1 "x_1"; punct 1 EQUAL;
                      mkToken CHAR_LITERAL 3 (Some "a"); punct 3 SLASH;
                      int_lit 4 "42"; punct 4 ELSE])
  = Tokenizer.Tokens [punct 1 VAR; ident 1 "x_1"; punct 1 EQUAL;
                      mkToken CHAR_LITERAL 3 (Some "a"); punct 3 SLASH;
                      int_lit 4 "42"; punct 4 ELSE].
Proof.
  apply (tokenize_reads_back
           [punct 1 VAR; ident 1 "x_1"; punct 1 EQUAL;
            mkToken CHAR_LITERAL 3 (Some "a"); punct 3 SLASH;
            int_lit 4 "42"; punct 4 ELSE]); reflexivity.
Defined.

(** ** How tokenizing fails *)

(** X13: every message [tokenize] exits with, on a source that keeps the
    line counter an [int] (fewer than [2^31 - 1] newline characters), is
    one of
    "[Error] expected a valid char on line N",
    "[Error] expected `'` on line N" and
    "[Error] invalid token `c` on line N", where N lies between 1 and 1 plus
    the number of newline characters of the source, and where c is a
    character that is no letter, no digit, no white space, no quote and none
    of the eleven punctuation characters. *)
Theorem lexical_errors_are_diagnostics :
  forall src err,
    Lexeme.lines_fit src = true ->
    Tokenizer.tokenize src = Tokenizer.Exit err ->
    exists N,
      (1 <= N <= 1 + count_newlines src)%Z /\ (N <= Lexeme.INT_MAX)%Z /\
      (err = Tokenizer.err_valid_char N \/
       err = Tokenizer.err_closing_quote N \/
       exists c, Lexeme.stray c = true /\ err = Tokenizer.err_invalid_token c N).
Proof.
  intros src err Hfit H.
  pose proof (LexemeFacts.tokenize_keeps src) as Hk. rewrite H in Hk.
  destruct Hk as [N [HN Herr]]. exists N.
  split; [exact HN|split; [|exact Herr]].
  unfold Lexeme.lines_fit in Hfit. apply Z.leb_le in Hfit.
  change Shape.count_newlines with count_newlines in *. lia.
Qed.

Lemma lexical_errors_are_diagnostics_witness :
  exists N,
    (1 <= N <= 1 + count_newlines (String newline "x = 1 ; y"))%Z /\
    (N <= Lexeme.INT_MAX)%Z /\
    ("[Error] invalid token `;` on line 2" = Tokenizer.err_valid_char N \/
     "[Error] invalid token `;` on line 2" = Tokenizer.err_closing_quote N \/
     exists c, Lexeme.stray c = true /\
               "[Error] invalid token `;` on line 2"
               = Tokenizer.err_invalid_token c N).
Proof.
  apply (lexical_errors_are_diagnostics (String newline "x = 1 ; y")).
  - reflexivity.
  - reflexivity.
Defined.

(** ** Comments *)

(** X14: a comment met by the loop of [tokenize] is skipped, whatever the
    line counter and the tokens built so far, and leaves both unchanged.
    A block comment runs to the first [*/] after its opening [/*]; when
    there is none, it runs to the end of the source, silently.  A line
    comment runs to the next newline, or to the end of the source.  At the
    start of a source this reads: the source tokenizes as the text after the
    comment does. *)
Theorem comments_are_skipped :
  (forall body rest l tokens,
      Lexeme.closes_comment body = false ->
      Lexeme.resume ("/*" ++ body ++ "*/" ++ rest) l tokens
      = Lexeme.resume rest l tokens) /\
  (forall body l tokens,
      Lexeme.closes_comment body = false ->
      Lexeme.resume ("/*" ++ body) l tokens = Tokenizer.Tokens tokens) /\
  (forall body rest l tokens,
      Lexeme.all_chars Lexeme.on_the_line body = true ->
      Lexeme.resume ("//" ++ body ++ String newline rest) l tokens
      = Lexeme.resume rest (l + 1) tokens) /\
  (forall body l tokens,
      Lexeme.all_chars Lexeme.on_the_line body = true ->
      Lexeme.resume ("//" ++ body) l tokens = Tokenizer.Tokens tokens) /\
  (forall body rest,
      Lexeme.closes_comment body = false ->
      Tokenizer.tokenize ("/*" ++ body ++ "*/" ++ rest)
      = Tokenizer.tokenize rest) /\
  (forall src l tokens fuel,
      String.length src < fuel ->
      Tokenizer.tokenize_loop fuel src l tokens = Lexeme.resume src l tokens).
Proof.
  split; [|split; [|split; [|split; [|split]]]].
  - intros. now apply LexemeFacts.resume_block_comment.
  - intros. now apply LexemeFacts.resume_open_comment.
  - intros. now apply LexemeFacts.resume_line_comment.
  - intros. now apply LexemeFacts.resume_last_line_comment.
  - intros body rest H.
    exact (LexemeFacts.resume_block_comment body rest 1 [] H).
  - intros src l tokens fuel H. now apply LexemeFacts.resume_enough.
Qed.

Lemma comments_are_skipped_witness :
  Lexeme.resume ("/*" ++ "a * / b **" ++ "*/" ++ "x") 7 [punct 7 RETURN]
  = Lexeme.resume "x" 7 [punct 7 RETURN] /\
  Lexeme.resume ("/*" ++ "/ return 'ab") 7 [punct 7 RETURN]
  = Tokenizer.Tokens [punct 7 RETURN] /\
  Lexeme.resume ("//" ++ " /* 'ab" ++ String newline "x") 7 [punct 7 RETURN]
  = Lexeme.resume "x" (7 + 1) [punct 7 RETURN] /\
  Lexeme.resume ("//" ++ " 'ab") 7 [punct 7 RETURN]
  = Tokenizer.Tokens [punct 7 RETURN] /\
  Tokenizer.tokenize ("/*" ++ String newline "'" ++ "*/" ++ "x")
  = Tokenizer.tokenize "x" /\
  Tokenizer.tokenize_loop 9 "x" 7 [] = Lexeme.resume "x" 7 [].
Proof.
  destruct comments_are_skipped as [Hblock [Hopen [Hline [Hlast [Hfile Hfuel]]]]].
  split; [|split; [|split; [|split; [|split]]]].
  - apply (Hblock "a * / b **" "x" 7%Z [punct 7 RETURN]). reflexivity.
  - apply (Hopen "/ return 'ab" 7%Z [punct 7 RETURN]). reflexivity.
  - apply (Hline " /* 'ab" "x" 7%Z [punct 7 RETURN]). reflexivity.
  - apply (Hlast " 'ab" 7%Z [punct 7 RETURN]). reflexivity.
  - apply (Hfile (String newline "'") "x"). reflexivity.
  - apply (Hfuel "x" 7%Z [] 9). simpl. lia.
Defined.

(** * The front end as a whole *)

(** X15: tokenizing and then parsing, as [main] does, ends in one of three
    ways, for every source text that keeps the tokenizer's line counter an
    [int] (fewer than [2^31 - 1] newline characters): with one of the three
    messages of the tokenizer; with a "[Parse Error] missing W on line N"
    message of the parser; or with a Program that holds all the tokens of
    the source.  In both kinds of messages N lies between 1 and 1 plus the
    number of newline characters of the source.  And for every well-formed
    token sequence, the front end run on the text written from it is the
    parser run on that sequence. *)
Theorem front_end_outcomes :
  (forall src,
      Lexeme.lines_fit src = true ->
      (exists err,
          compile src = inl (Tokenizer.Exit err) /\
          Lexeme.lexical_error (1 + count_newlines src) err) \/
      (exists what N,
          compile src = inr (Exit (parse_error missing what N)) /\
          In what expected /\ (1 <= N <= 1 + count_newlines src)%Z) \/
      (exists tokens prog,
          Tokenizer.tokenize src = Tokenizer.Tokens tokens /\
          compile src = inr (Ret prog (List.length tokens)) /\
          map Unparse.key tokens = Unparse.unparse_prog prog)) /\
  (forall tokens,
      forallb Lexeme.token_ok tokens = true ->
      Lexeme.lines_from 1 tokens = true ->
      compile (Lexeme.render 1 tokens) = inr (parse_prog tokens)).
Proof.
  split.
  - intros src _. unfold compile.
    pose proof (LexemeFacts.tokenize_keeps src) as Hk.
    destruct (Tokenizer.tokenize src) as [tokens|err|]; [|left|contradiction].
    2:{ exists err. split; [reflexivity|exact Hk]. }
    right.
    pose proof (prog_progress tokens (fuel_for (List.length tokens)) [] 0) as Hp.
    pose proof (prog_spans tokens (fuel_for (List.length tokens)) [] 0
                  (Unparse.spans_nil tokens 0)) as Hs.
    assert (Hd : forall err,
               parse_prog_loop tokens (fuel_for (List.length tokens)) [] 0
               = Exit err -> is_diagnostic tokens err).
    { intros err E.
      exact (wp_diagnosed tokens _ _ _ _ _
               (prog_reported tokens _ [] 0) (prog_tags tokens _ [] 0) E). }
    unfold wp, parse_prog in *.
    destruct (parse_prog_loop tokens (fuel_for (List.length tokens)) [] 0)
      as [prog j|err| |].
    + right. exists tokens, prog. destruct Hs as [Hs Hend].
      destruct (spans_all tokens _ _ Hs Hend) as [-> Hkeys].
      split; [reflexivity|split; [reflexivity|exact Hkeys]].
    + left. destruct (Hd err eq_refl) as [what [tok [Hwhat [Hin ->]]]].
      exists what, (line tok).
      split; [reflexivity|split; [exact Hwhat|]].
      exact (LexemeFacts.tokens_ok_line _ _ _ Hk Hin).
    + contradiction.
    + unfold fuel_for in Hp. simpl in Hp. lia.
  - intros tokens Hok Hs. unfold compile.
    change (Tokenizer.tokenize (Lexeme.render 1 tokens))
      with (Lexeme.resume (Lexeme.render 1 tokens) 1 []).
    now rewrite (LexemeFacts.resume_render tokens 1 [] Hok Hs).
Qed.

Lemma front_end_outcomes_witness :
  ((exists err,
       compile "return 1 +" = inl (Tokenizer.Exit err) /\
       Lexeme.lexical_error (1 + count_newlines "return 1 +") err) \/
   (exists what N,
       compile "return 1 +" = inr (Exit (parse_error missing what N)) /\
       In what expected /\ (1 <= N <= 1 + count_newlines "return 1 +")%Z) \/
   (exists tokens prog,
       Tokenizer.tokenize "return 1 +" = Tokenizer.Tokens tokens /\
       compile "return 1 +" = inr (Ret prog (List.length tokens)) /\
       map Unparse.key tokens = Unparse.unparse_prog prog)) /\
  compile (Lexeme.render 1 tokens_three_stmts)
  = inr (parse_prog tokens_three_stmts).
Proof.
  destruct front_end_outcomes as [Hsrc Hrender].
  split.
  - apply (Hsrc "return 1 +"). reflexivity.
  - apply (Hrender tokens_three_stmts); reflexivity.
Defined.

(** * The programs of the parser *)

(** X16: the parser reads back what is written from a program it can
    build.  For every term, expression, statement list and Program of the
    form the parser builds (tokens of the right kinds in the literals and
    identifiers, tags as [parse_term] and [parse_expr] set them, binary
    nodes in the shape of precedence climbing), parsing the tokens of
    its infix writing returns exactly that Program, with the cursor behind
    the last token; an expression is read back likewise. *)
Theorem written_programs_parse :
  (forall l prog,
      Grammar.built_prog prog = true ->
      parse_prog (Grammar.write_prog l prog)
      = Ret prog (List.length (Grammar.write_prog l prog))) /\
  (forall l e,
      Grammar.built_top e = true ->
      parse_expr (Grammar.write_expr l e)
                 (3 * List.length (Grammar.write_expr l e) + 3) 0 0
      = Ret (Some e) (List.length (Grammar.write_expr l e))).
Proof.
  split.
  - intros l [stmts] Hb. unfold Grammar.write_prog, Grammar.built_prog in *.
    cbn [Node.stmts] in *.
    exact (parse_prog_like _ l stmts Hb (like_itself _)).
  - intros l e Hb.
    apply (written_top _ l e 0 _ Hb).
    + pose proof (reads_like _ _ (like_itself (Grammar.write_expr l e)) [] [])
        as H.
      cbn [app List.length] in H. rewrite app_nil_r in H. exact H.
    + intros tok prec Htok _.
      assert (nth_error (Grammar.write_expr l e)
                        (List.length (Grammar.write_expr l e)) = None) as Hnone
          by (apply nth_error_None; lia).
      congruence.
Qed.

Lemma written_programs_parse_witness :
  parse_prog
    (Grammar.write_prog 5
       (Node.mkProg
          [Node.StmtVar (ident 1 "x") (lit (int_lit 1 "1") INT);
           Node.StmtIf (var (ident 2 "x") NONE)
             (Node.mkScope
                [Node.StmtVarAssign (ident 2 "x")
                   (add (var (ident 2 "x") NONE) (lit (int_lit 2 "2") INT) NONE)])
             (Some (Node.IfPredElse (Node.mkScope [])));
           Node.StmtReturn (var (ident 3 "x") NONE)]))
  = Ret (Node.mkProg
          [Node.StmtVar (ident 1 "x") (lit (int_lit 1 "1") INT);
           Node.StmtIf (var (ident 2 "x") NONE)
             (Node.mkScope
                [Node.StmtVarAssign (ident 2 "x")
                   (add (var (ident 2 "x") NONE) (lit (int_lit 2 "2") INT) NONE)])
             (Some (Node.IfPredElse (Node.mkScope [])));
           Node.StmtReturn (var (ident 3 "x") NONE)])
        20 /\
  parse_expr
    (Grammar.write_expr 5
       (sub (sub (lit (int_lit 1 "8") NONE) (lit (int_lit 1 "3") INT) NONE)
            (lit (int_lit 1 "2") INT) INT))
    (3 * 5 + 3) 0 0
  = Ret (Some (sub (sub (lit (int_lit 1 "8") NONE) (lit (int_lit 1 "3") INT) NONE)
                   (lit (int_lit 1 "2") INT) INT))
        5.
Proof.
  destruct written_programs_parse as [Hprog Hexpr].
  split.
  - apply (Hprog 5%Z). reflexivity.
  - apply (Hexpr 5%Z). reflexivity.
Defined.



(** * The earlier tokenizer *)

(** X18: the tokenizer of [tokenization.hpp] returns tokens exactly for the
    source texts made of letters, digits, white space and the seven
    characters [= ( ) + - * /].  On every other text it reaches its error
    branch, whose message is computed by pointer arithmetic on a string
    literal: it never exits with a diagnostic.  A newline is white space:
    the branch for ['\n'] that follows the one for white space is never the
    one that accepts a character. *)
Theorem earlier_tokenizer_accepts_its_alphabet :
  forall src,
    (Legacy.all_known src = true ->
     exists tokens, Legacy.tokenize src = Legacy.Tokens tokens) /\
    (Legacy.all_known src = false -> Legacy.tokenize src = Legacy.Undefined) /\
    (forall c, Ascii.eqb c newline = true -> isspace c = true).
Proof.
  intros src.
  pose proof (LegacyFacts.legacy_loop (S (String.length src)) src []
                ltac:(lia)) as H.
  unfold Legacy.tokenize.
  split; [|split].
  - intros Hk. now rewrite Hk in H.
  - intros Hk. now rewrite Hk in H.
  - exact LegacyFacts.newline_is_space.
Qed.

Lemma earlier_tokenizer_accepts_its_alphabet_witness :
  (exists tokens, Legacy.tokenize "let x = (1 + y2) / 3" = Legacy.Tokens tokens) /\
  Legacy.tokenize "let x_1 = 2" = Legacy.Undefined.
Proof.
  split.
  - apply (proj1 (earlier_tokenizer_accepts_its_alphabet "let x = (1 + y2) / 3")).
    reflexivity.
  - apply (proj1 (proj2 (earlier_tokenizer_accepts_its_alphabet "let x_1 = 2"))).
    reflexivity.
Defined.

(** X19: the tokenizer of [tokenizer.cpp] accepts every source text the
    earlier tokenizer accepts: where the earlier one returns tokens, the
    later one returns tokens too, and exits with no message. *)
Theorem later_tokenizer_accepts_what_the_earlier_did :
  forall src tokens,
    Legacy.tokenize src = Legacy.Tokens tokens ->
    exists tokens', Tokenizer.tokenize src = Tokenizer.Tokens tokens'.
Proof.
  intros src tokens H.
  assert (Hk : Legacy.all_known src = true).
  { pose proof (LegacyFacts.legacy_loop (S (String.length src)) src []
                  ltac:(lia)) as Hl.
    unfold Legacy.tokenize in H.
    destruct (Legacy.all_known src); [reflexivity|congruence]. }
  pose proof (LegacyFacts.current_loop (S (String.length src)) src 1 [] Hk) as Hc.
  pose proof (TokenizerFacts.tokenize_total src) as Ht.
  unfold Tokenizer.tokenize in *.
  destruct (Tokenizer.tokenize_loop (S (String.length src)) src 1 [])
    as [tokens'|err|]; [now exists tokens'|contradiction|contradiction].
Qed.

Lemma later_tokenizer_accepts_what_the_earlier_did_witness :
  exists tokens', Tokenizer.tokenize "let x = (1 + y2) / 3" = Tokenizer.Tokens tokens'.
Proof.
  apply (later_tokenizer_accepts_what_the_earlier_did
           "let x = (1 + y2) / 3"
           [Legacy.mkToken Legacy.LET None;
            Legacy.mkToken Legacy.IDENTIFIER (Some "x");
            Legacy.mkToken Legacy.EQUAL None;
            Legacy.mkToken Legacy.LEFT_PARENTHESIS None;
            Legacy.mkToken Legacy.INTEGER_LITERAL (Some "1");
            Legacy.mkToken Legacy.PLUS None;
            Legacy.mkToken Legacy.IDENTIFIER (Some "y2");
            Legacy.mkToken Legacy.RIGHT_PARENTHESIS None;
            Legacy.mkToken Legacy.SLASH None;
            Legacy.mkToken Legacy.INTEGER_LITERAL (Some "3")]).
  reflexivity.
Defined.

(** * The parser as the inverse of writing *)

(** X20: [parse_prog] returns a Program exactly on the token sequences that
    are like its writing.  For every token sequence, Program and cursor,
    [parse_prog] returns the Program with that cursor if and only if the
    Program has the form the parser builds, the tokens are, one by one, like
    those of the Program's infix writing (the literal and identifier tokens
    the very ones the nodes hold, every other token of the written kind, on
    any line), and the cursor is the number of tokens.  The line [l] the
    writing puts the keywords on does not matter. *)
Theorem parse_prog_inverts_writing (l : Z) tokens prog j :
  parse_prog tokens = Ret prog j <->
  Grammar.built_prog prog = true /\
  Forall2 Grammar.like tokens (Grammar.write_prog l prog) /\
  j = List.length tokens.
Proof.
  split.
  - intros H. split; [|split].
    + unfold parse_prog in H.
      exact (wp_returned _ _ _ _ _ _
               (prog_built tokens (fuel_for (List.length tokens)) [] 0 eq_refl)
               H).
    + exact (proj2 (parse_prog_reads tokens l prog j H)).
    + exact (proj1 (parse_prog_reads tokens l prog j H)).
  - intros [Hb [Hlike ->]]. destruct prog as [stmts].
    exact (parse_prog_like tokens l stmts Hb Hlike).
Qed.

Lemma parse_prog_inverts_writing_witness :
  parse_prog
    [Grammar.kwt 1 VAR; ident 1 "x"; Grammar.kwt 2 EQUAL; int_lit 3 "4";
     Grammar.kwt 3 STAR; ident 4 "y"; Grammar.kwt 9 RETURN; ident 9 "x"]
  = Ret (Node.mkProg
           [Node.StmtVar (ident 1 "x")
              (mul (lit (int_lit 3 "4") NONE) (var (ident 4 "y") NONE) INT);
            Node.StmtReturn (var (ident 9 "x") NONE)])
        8.
Proof.
  apply (proj2 (parse_prog_inverts_writing 0%Z _ _ _)).
  split; [reflexivity|split; [|reflexivity]].
  repeat constructor.
Defined.
